(** * The OSv virtual memory manager: a shallow embedding

    The development follows the source file: the superblock manager
    (superblock claiming, owner lists, the free-range map), the leaf page
    table entries and [change_perm], the page providers, [tlb_gather] and the
    [unpopulate] walker operation, the VMA registry with [split], [ismapped],
    [protect], the fault handlers, and the public calls [munmap], [msync],
    [advise] and [mincore].

    Machine integers are [Z] with the wrap-around written out; arrays are
    lists read with [!!] and written with [<[i:=x]>], an access outside the
    array being reported instead of silently ignored; [std::map] is a list of
    pairs kept in key order. *)

From Stdlib Require Import ZArith List Bool Lia.
From stdpp Require Import base list sorting.
Import ListNotations.
Local Open Scope Z_scope.

(** ** Machine words *)

Definition u8 (x : Z) : Z := x mod 2 ^ 8.
Definition u32 (x : Z) : Z := x mod 2 ^ 32.
Definition u64 (x : Z) : Z := x mod 2 ^ 64.

(** Modelled from the spec: [align_down] and [align_up] come from
    osv/align.hh, which is not among the sources; the alignment is a power of
    two, and the results are 64-bit words. *)
Definition align_down (n alignment : Z) : Z := n / alignment * alignment.
Definition align_up (n alignment : Z) : Z := align_down (u64 (n + alignment - 1)) alignment.

(** Modelled from the spec: the page sizes are declared in osv/mmu-defs.hh,
    which is not among the sources; a leaf page is 4K, a huge page 2 MiB. *)
Definition page_size : Z := 4096.
Definition huge_page_size : Z := 2097152.

(** Modelled from the spec: the permission and flag bits are declared in
    osv/mmu-defs.hh, which is not among the sources; each is one bit of the
    bitset, in the order of the header. *)
Definition perm_read : Z := 1.
Definition perm_write : Z := 2.
Definition perm_exec : Z := 4.

Definition mmap_fixed : Z := 1.
Definition mmap_populate : Z := 2.
Definition mmap_shared : Z := 4.
Definition mmap_uninitialized : Z := 8.
Definition mmap_jvm_heap : Z := 16.
Definition mmap_small : Z := 32.
Definition mmap_jvm_balloon : Z := 64.
Definition mmap_file : Z := 128.

(** [flags & flag] read as a C++ [bool]. *)
Definition has_bits (flags flag : Z) : bool := negb (Z.land flags flag =? 0).

(** The errno values the calls return. *)
Inductive error : Type :=
| no_error
| ENOMEM
| EINVAL
| EACCES
| EPERM.

(** ** The superblock array *)

(** The marker of an unowned superblock. *)
Definition FREE : Z := 255.

(** [std::atomic<uint8_t>::compare_exchange_weak(expected, desired)] on a slot
    holding [cur]: success, the slot afterwards, and [expected] afterwards
    (on failure the slot's value is stored into [expected]).  Spurious
    failures of the weak form are not modelled. *)
Definition compare_exchange (cur expected desired : Z) : bool * Z * Z :=
  if cur =? expected then (true, desired, expected) else (false, cur, cur).

(** What a run over the array ends with: a value and the array, an access
    past the end of the array (with the array as it was at that moment), or
    the recursion budget of the model used up. *)
Inductive run (A : Type) : Type :=
| Ret (a : A) (sb : list Z)
| Throw (e : error) (sb : list Z)
| OutOfBounds (sb : list Z)
| OutOfFuel.
Arguments Ret {A} a sb.
Arguments Throw {A} e sb.
Arguments OutOfBounds {A} sb.
Arguments OutOfFuel {A}.

(** [release_superblocks(start, n)]: the loop [for (i = start; i < start + n;
    ++i)], with [cpuid] the local that the failed exchanges overwrite. *)
Fixpoint release_loop (fuel : nat) (i stop cpuid : Z) (sb : list Z) : run unit :=
  match fuel with
  | O => OutOfFuel
  | S f =>
      if i <? stop then
        match sb !! Z.to_nat i with
        | None => OutOfBounds sb
        | Some cur =>
            let '(_, cur', cpuid') := compare_exchange cur cpuid FREE in
            release_loop f (i + 1) stop cpuid' (<[Z.to_nat i := cur']> sb)
        end
      else Ret tt sb
  end.

Definition release_superblocks (cpu_id : Z) (start n : Z) (sb : list Z) : run unit :=
  release_loop (S (length sb)) start (u64 (start + n)) cpu_id sb.

(** The scan of [allocate_superblocks]: the first [i] at which [++k == n],
    starting at [i] with the counter at [k]; [None] when the loop runs to
    [superblock_len]. *)
Fixpoint scan_free (sb : list Z) (n : Z) (todo : nat) (i k : Z) : option Z :=
  match todo with
  | O => None
  | S t =>
      match sb !! Z.to_nat i with
      | None => None
      | Some v =>
          if negb (v =? FREE) then scan_free sb n t (i + 1) 0
          else if u32 (k + 1) =? n then Some i
               else scan_free sb n t (i + 1) (u32 (k + 1))
      end
  end.

(** The stores the other CPUs perform between this CPU's scan and its
    compare-and-swap: pairs of a slot and the value stored. *)
Abbreviation interference := (list (nat * Z)) (only parsing).

Definition apply_stores (sb : list Z) (ws : interference) : list Z :=
  fold_left (fun l w => <[fst w := snd w]> l) ws sb.

(** [allocate_superblocks(n)] on CPU [cpu_id].  [sched] gives, for each
    attempt, what the other CPUs store after the scan and before the
    exchange.  The claiming loop [for (j = i-n+1; j <= i; ++j)] leaves at its
    first iteration: a failed exchange releases and starts over, a successful
    one runs into [else break]. *)
Fixpoint allocate_superblocks (fuel : nat) (cpu_id n : Z) (sched : list interference)
    (sb : list Z) : run Z :=
  match fuel with
  | O => OutOfFuel
  | S f =>
      match scan_free sb n (length sb) 0 0 with
      | None => Throw ENOMEM sb
      | Some i =>
          let j := u32 (i - n + 1) in
          if j <=? i then
            let sb1 := apply_stores sb (hd [] sched) in
            match sb1 !! Z.to_nat j with
            | None => OutOfBounds sb1
            | Some cur =>
                let '(ok, cur', _) := compare_exchange cur FREE cpu_id in
                if ok then Ret (u32 (i - n + 1)) (<[Z.to_nat j := cur']> sb1)
                else
                  match release_superblocks cpu_id (u32 (i - n)) (u32 (j - i - n)) sb1 with
                  | Ret _ sb2 => allocate_superblocks f cpu_id n (tl sched) sb2
                  | Throw e sb2 => Throw e sb2
                  | OutOfBounds sb2 => OutOfBounds sb2
                  | OutOfFuel => OutOfFuel
                  end
            end
          else Ret (u32 (i - n + 1)) sb
      end
  end.

(** ** Ownership of addresses *)

(** Modelled from the spec: the address-space constants are declared in
    osv/mmu-defs.hh, which is not among the sources; they are chosen by the
    architecture, with [superblock_area_base < main_mem_area_base] and
    [superblock_len = (main_mem_area_base - superblock_area_base) /
    superblock_size]. *)
Record layout : Type := {
  superblock_area_base : Z;
  main_mem_area_base : Z;
  superblock_size : Z
}.

Definition superblock_len (L : layout) : Z :=
  (main_mem_area_base L - superblock_area_base L) / superblock_size L.

(** [sched::max_cpus]: 64 workers for superblock segments, one more for the
    addresses outside. *)
Definition max_cpus : Z := 64.
Definition workers_size : Z := max_cpus + 1.

Definition superblock_index (L : layout) (addr : Z) : Z :=
  u64 (addr - superblock_area_base L) / superblock_size L.

Definition superblock_ptr (L : layout) (superblock : Z) : Z :=
  u64 (superblock * superblock_size L + superblock_area_base L).

(** [owner(addr)]; [None] is a read past the end of [superblocks]. *)
Definition owner (L : layout) (sb : list Z) (addr : Z) : option Z :=
  if (addr <? superblock_area_base L) || (addr >=? main_mem_area_base L)
  then Some (u8 (workers_size - 1))
  else sb !! Z.to_nat (superblock_index L addr).

(** The loop of [generate_owner_list]; [None] is undefined behaviour (the
    last element of an empty vector, a read past the end of [superblocks]) or
    a loop that does not advance. *)
Fixpoint owner_loop (L : layout) (sb : list Z) (fuel : nat) (start size : Z)
    (i prev_owner : Z) (res : list (Z * Z * Z)) : option (list (Z * Z * Z)) :=
  if i <? size then
    match fuel with
    | O => None
    | S f =>
        match owner L sb (u64 (start + i)) with
        | None => None
        | Some cur_owner =>
            let next_barrier :=
              Z.min (align_up (u64 (start + i + 1)) (superblock_size L)) (u64 (start + size)) in
            let size_in_superblock := u64 (next_barrier - (start + i)) in
            let len := Z.min (superblock_size L) (u64 (size - i)) in
            if prev_owner =? cur_owner then
              match res !! (length res - 1)%nat, length res with
              | Some (s0, l0, _), S _ =>
                  owner_loop L sb f start size (u64 (i + size_in_superblock)) cur_owner
                    (<[(length res - 1)%nat := (s0, u64 (l0 + len), cur_owner)]> res)
              | _, _ => None
              end
            else
              owner_loop L sb f start size (u64 (i + size_in_superblock)) cur_owner
                (res ++ [(u64 (start + i), len, cur_owner)])
        end
    end
  else Some res.

(** [generate_owner_list(start, size)]: the list of (start, size, owner). *)
Definition generate_owner_list (L : layout) (sb : list Z) (start size : Z)
    : option (list (Z * Z * Z)) :=
  if (u64 (start + size) <? superblock_area_base L) || (start >=? main_mem_area_base L) then
    match owner L sb start with
    | Some o => Some [(start, size, o)]
    | None => None
    end
  else owner_loop L sb (Z.to_nat (size / superblock_size L + 2)) start size 0 255 [].

(** ** The free-range map of a shard: [std::map<uintptr_t, u64>] *)

(** The map as the list of its entries in key order; an iterator is a
    position in that list, [end()] the length. *)
Abbreviation range_map := (list (Z * Z)) (only parsing).

Fixpoint upper_bound (addr : Z) (fr : range_map) : nat :=
  match fr with
  | [] => O
  | (k, _) :: r => if addr <? k then O else S (upper_bound addr r)
  end.

(** [insert({k, v})]: a key already present keeps its value. *)
Fixpoint map_insert (k v : Z) (fr : range_map) : range_map :=
  match fr with
  | [] => [(k, v)]
  | (k', v') :: r =>
      if k <? k' then (k, v) :: fr
      else if k =? k' then fr
      else (k', v') :: map_insert k v r
  end.

(** [m[k] = v]. *)
Fixpoint map_assign (k v : Z) (fr : range_map) : range_map :=
  match fr with
  | [] => [(k, v)]
  | (k', v') :: r =>
      if k <? k' then (k, v) :: fr
      else if k =? k' then (k, v) :: r
      else (k', v') :: map_assign k v r
  end.

(** [erase(it)]. *)
Definition map_erase (it : nat) (fr : range_map) : range_map := delete it fr.

(** [prev_range(addr, fr)]: the entry before [upper_bound(addr)], if any. *)
Definition prev_range (addr : Z) (fr : range_map) : option nat :=
  match upper_bound addr fr with
  | O => None
  | S it => Some it
  end.

(** [allocate_range(addr, size)] on the owning shard's map; [None] is a
    failed assertion. *)
Definition allocate_range (addr size : Z) (fr : range_map) : option range_map :=
  match prev_range addr fr with
  | None => None
  | Some it =>
      match fr !! it with
      | None => None
      | Some (first, second) =>
          if second <? size then None
          else if first =? addr then
            let s := second in
            let fr1 := map_erase it fr in
            Some (if s >? size then map_insert (u64 (addr + size)) (u64 (s - size)) fr1 else fr1)
          else
            let offset := u64 (addr - first) in
            let s := u64 (second - offset) in
            let fr1 := map_assign first offset fr in
            Some (if s >? size
                  then map_insert (u64 (addr + offset + size)) (u64 (s - size)) fr1
                  else fr1)
      end
  end.

(** [free_range(addr, size, owner)] on the owner's map. *)
Definition free_range (addr size : Z) (fr : range_map) : range_map :=
  let merged :=
    match prev_range addr fr with
    | Some it =>
        match fr !! it with
        | Some (first, second) =>
            if u64 (first + second) =? addr
            then Some (it, <[it := (first, u64 (second + size))]> fr)
            else None
        | None => None
        end
    | None => None
    end in
  let '(it, fr1) :=
    match merged with
    | Some r => r
    | None => (upper_bound addr (map_insert addr size fr) - 1, map_insert addr size fr)%nat
    end in
  match fr1 !! it, fr1 !! S it with
  | Some (first, second), Some (nfirst, nsecond) =>
      if nfirst =? u64 (addr + size)
      then map_erase (S it) (<[it := (first, u64 (second + nsecond))]> fr1)
      else fr1
  | _, _ => fr1
  end.

(** An address lies in one of the map's intervals. *)
Definition covers (fr : range_map) (x : Z) : Prop :=
  exists b l, In (b, l) fr /\ b <= x < b + l.

Definition coversb (fr : range_map) (x : Z) : bool :=
  existsb (fun e => (fst e <=? x) && (x <? fst e + snd e)) fr.

(** ** Leaf page table entries *)

(** Modelled from the spec: [pt_element] and its accessors are architecture
    code that is not among the sources; an entry is the record of what the
    accessors used in this file read and write (valid, writable, executable,
    large, dirty, reserved bit 0, the copy-on-write software bit, and the
    address of the page).  The address is the one the page allocator
    returned: the linear map between physical and virtual addresses is left
    out. *)
Record pt_element : Type := {
  pte_valid : bool;
  pte_writable : bool;
  pte_executable : bool;
  pte_large : bool;
  pte_dirty : bool;
  pte_rsvd : bool;
  pte_cow : bool;
  pte_addr : Z
}.

Definition make_empty_pte : pt_element :=
  {| pte_valid := false; pte_writable := false; pte_executable := false;
     pte_large := false; pte_dirty := false; pte_rsvd := false; pte_cow := false;
     pte_addr := 0 |}.

(** Two entries hold the same word. *)
Definition pte_eqb (p q : pt_element) : bool :=
  Bool.eqb (pte_valid p) (pte_valid q) && Bool.eqb (pte_writable p) (pte_writable q) &&
  Bool.eqb (pte_executable p) (pte_executable q) && Bool.eqb (pte_large p) (pte_large q) &&
  Bool.eqb (pte_dirty p) (pte_dirty q) && Bool.eqb (pte_rsvd p) (pte_rsvd q) &&
  Bool.eqb (pte_cow p) (pte_cow q) && (pte_addr p =? pte_addr q).

Definition pte_empty (p : pt_element) : bool := pte_eqb p make_empty_pte.

Definition set_valid (v : bool) (p : pt_element) : pt_element :=
  {| pte_valid := v; pte_writable := pte_writable p; pte_executable := pte_executable p;
     pte_large := pte_large p; pte_dirty := pte_dirty p; pte_rsvd := pte_rsvd p;
     pte_cow := pte_cow p; pte_addr := pte_addr p |}.
Definition set_writable (v : bool) (p : pt_element) : pt_element :=
  {| pte_valid := pte_valid p; pte_writable := v; pte_executable := pte_executable p;
     pte_large := pte_large p; pte_dirty := pte_dirty p; pte_rsvd := pte_rsvd p;
     pte_cow := pte_cow p; pte_addr := pte_addr p |}.
Definition set_executable (v : bool) (p : pt_element) : pt_element :=
  {| pte_valid := pte_valid p; pte_writable := pte_writable p; pte_executable := v;
     pte_large := pte_large p; pte_dirty := pte_dirty p; pte_rsvd := pte_rsvd p;
     pte_cow := pte_cow p; pte_addr := pte_addr p |}.
Definition set_rsvd_bit (v : bool) (p : pt_element) : pt_element :=
  {| pte_valid := pte_valid p; pte_writable := pte_writable p; pte_executable := pte_executable p;
     pte_large := pte_large p; pte_dirty := pte_dirty p; pte_rsvd := v;
     pte_cow := pte_cow p; pte_addr := pte_addr p |}.
Definition set_sw_bit_cow (v : bool) (p : pt_element) : pt_element :=
  {| pte_valid := pte_valid p; pte_writable := pte_writable p; pte_executable := pte_executable p;
     pte_large := pte_large p; pte_dirty := pte_dirty p; pte_rsvd := pte_rsvd p;
     pte_cow := v; pte_addr := pte_addr p |}.
Definition set_addr (a : Z) (p : pt_element) : pt_element :=
  {| pte_valid := pte_valid p; pte_writable := pte_writable p; pte_executable := pte_executable p;
     pte_large := pte_large p; pte_dirty := pte_dirty p; pte_rsvd := pte_rsvd p;
     pte_cow := pte_cow p; pte_addr := a |}.

Definition pte_is_cow (p : pt_element) : bool := pte_cow p.

(** [pte_mark_cow]. *)
Definition pte_mark_cow (pte : pt_element) (cow : bool) : pt_element :=
  set_sw_bit_cow cow (if cow then set_writable false pte else pte).

(** The permissions an entry grants, as [change_perm] reads them back into
    [old]. *)
Definition pte_perm (pte : pt_element) : Z :=
  Z.lor (Z.lor (if pte_valid pte then perm_read else 0)
               (if pte_writable pte then perm_write else 0))
        (if pte_executable pte then perm_exec else 0).

(** [change_perm(ptep, perm)], the x86-64 variant: the entry written back and
    whether a permission was taken away. *)
Definition change_perm (pte : pt_element) (perm : Z) : pt_element * bool :=
  let old := pte_perm pte in
  let perm := if pte_is_cow pte then Z.land perm (u32 (Z.lnot perm_write)) else perm in
  let pte := set_valid true pte in
  let pte := set_writable (has_bits perm perm_write) pte in
  let pte := set_executable (has_bits perm perm_exec) pte in
  let pte := set_rsvd_bit (perm =? 0) pte in
  (pte, negb (Z.land old (u32 (Z.lnot perm)) =? 0)).

(** [protection::page]. *)
Definition protection_page (perm : Z) (do_flush : bool) (pte : pt_element) : pt_element * bool :=
  let '(pte', changed) := change_perm pte perm in (pte', do_flush || changed).

(** ** Accesses and access faults *)

(** Modelled from the spec: the page-fault error-code decoders
    [is_page_fault_insn] and [is_page_fault_write] are architecture code that
    is not among the sources; an error code is abstracted to the kind of
    access it reports. *)
Inductive access : Type :=
| access_read
| access_write
| access_insn.

Definition is_page_fault_insn (error_code : access) : bool :=
  match error_code with access_insn => true | _ => false end.
Definition is_page_fault_write (error_code : access) : bool :=
  match error_code with access_write => true | _ => false end.

(** The permission bit an access needs. *)
Definition access_bit (k : access) : Z :=
  match k with
  | access_read => perm_read
  | access_write => perm_write
  | access_insn => perm_exec
  end.

(** [access_fault(vma, error_code)], on the permissions of the VMA. *)
Definition access_fault (perm : Z) (error_code : access) : bool :=
  if is_page_fault_insn error_code then negb (has_bits perm perm_exec)
  else if is_page_fault_write error_code then negb (has_bits perm perm_write)
  else negb (has_bits perm perm_read).

(** When the processor raises a page fault, as the note in [change_perm]
    describes x86: without a present entry every access traps, a reserved bit
    traps every access, and a present entry always lets reads through. *)
Definition page_fault_raised (pte : option pt_element) (k : access) : bool :=
  match pte with
  | None => true
  | Some p =>
      if negb (pte_valid p) || pte_rsvd p then true
      else match k with
           | access_read => false
           | access_write => negb (pte_writable p)
           | access_insn => negb (pte_executable p)
           end
  end.

(** An access is reported as an access fault when the processor traps and
    [vm_fault] finds [access_fault] true for the VMA. *)
Definition reported_access_fault (vma_perm : Z) (pte : option pt_element) (k : access) : bool :=
  page_fault_raised pte k && access_fault vma_perm k.

(** ** Page providers *)

Definition memory : Type := Z -> Z.

Definition memset (m : memory) (addr c size : Z) : memory :=
  fun a => if (addr <=? a) && (a <? addr + size) then c else m a.

(** [pt_level_traits<N>::size]: level 0 is a 4K page, level 1 a huge page. *)
Definition level_size (N : nat) : Z :=
  match N with O => page_size | _ => huge_page_size end.

Inductive provider_event : Type :=
| ev_memset (addr size : Z)
| ev_pte_installed (addr : Z)
| ev_page_freed (addr size : Z).

(** The anonymous page providers. *)
Inductive anon_provider : Type :=
| uninitialized_anonymous_page_provider
| initialized_anonymous_page_provider.

(** [fill(addr, offset, size)] of either provider. *)
Definition fill (p : anon_provider) (m : memory) (addr offset size : Z)
    : memory * list provider_event :=
  match p with
  | uninitialized_anonymous_page_provider => (m, [])
  | initialized_anonymous_page_provider =>
      if addr =? 0 then (m, []) else (memset m addr 0 size, [ev_memset addr size])
  end.

(** Modelled from the spec: [write_pte] is declared in osv/mmu.hh, which is
    not among the sources; it points the proposed entry at the page and
    installs it by compare-and-swap against the expected entry. *)
Definition write_pte (addr : Z) (slot old_pte new_pte : pt_element) : bool * pt_element :=
  if pte_eqb slot old_pte then (true, set_addr addr new_pte) else (false, slot).

(** What [map] ends with: [std::exception] thrown, or its result with the
    slot, the memory and what happened, in order. *)
Inductive map_outcome : Type :=
| map_throws
| map_returns (installed : bool) (slot : pt_element) (m : memory) (log : list provider_event).

(** [set_pte(addr, ptep, pte)]. *)
Definition set_pte (N : nat) (addr : Z) (slot pte : pt_element) (m : memory)
    (log : list provider_event) : map_outcome :=
  if addr =? 0 then map_throws
  else
    let '(ok, slot') := write_pte addr slot make_empty_pte pte in
    if ok then map_returns true slot' m (log ++ [ev_pte_installed addr])
    else map_returns false slot' m (log ++ [ev_page_freed addr (level_size N)]).

(** [map(offset, ptep, pte, write)] at level [N], where [page] is what
    [alloc_page()] or [alloc_huge_page(size)] returned (0 for a null
    pointer). *)
Definition provider_map (p : anon_provider) (N : nat) (page : Z) (offset : Z)
    (slot pte : pt_element) (write : bool) (m : memory) : map_outcome :=
  let '(m1, log) := fill p m page offset (level_size N) in
  set_pte N page slot pte m1 log.

(** ** Batched freeing: [tlb_gather] and the [unpopulate] operation *)

Inductive tlb_event : Type :=
| ev_unmap (addr size : Z) (unmapped : bool)
| ev_flush_tlb_all
| ev_free_page (addr : Z)
| ev_free_huge_page (addr size : Z)
| ev_rcu_defer_free (addr : Z).

Definition max_pages : nat := 20.

(** [pages] holds the filled part of the array, [nr_pages = length pages]. *)
Record tlb_gather : Type := { pages : list (Z * Z) }.

Definition nr_pages (g : tlb_gather) : nat := length (pages g).

Definition free_event (tp : Z * Z) : tlb_event :=
  if snd tp =? page_size then ev_free_page (fst tp) else ev_free_huge_page (fst tp) (snd tp).

(** [tlb_gather::flush()]. *)
Definition gather_flush (g : tlb_gather) (tr : list tlb_event) : bool * tlb_gather * list tlb_event :=
  match nr_pages g with
  | O => (false, g, tr)
  | S _ => (true, {| pages := [] |}, tr ++ ev_flush_tlb_all :: map free_event (pages g))
  end.

(** [tlb_gather::push(addr, size)]. *)
Definition gather_push (g : tlb_gather) (addr size : Z) (tr : list tlb_event)
    : bool * tlb_gather * list tlb_event :=
  let '(flushed, g1, tr1) :=
    if Nat.eqb (nr_pages g) max_pages then gather_flush g tr else (false, g, tr) in
  (flushed, {| pages := pages g1 ++ [(addr, size)] |}, tr1).

Record unpopulate : Type := {
  _tlb_gather : tlb_gather;
  do_flush : bool;
  _total_operated : Z
}.

Definition unpopulate_new : unpopulate :=
  {| _tlb_gather := {| pages := [] |}; do_flush := false; _total_operated := 0 |}.

(** [unpopulate::page] on a leaf of level [N] whose entry points at [addr];
    [unmapped] is what the provider's [unmap] returned after zapping the
    entry. *)
Definition unpopulate_page (account : bool) (N : nat) (addr : Z) (unmapped : bool)
    (u : unpopulate) (tr : list tlb_event) : unpopulate * list tlb_event :=
  let size := level_size N in
  let tr := tr ++ [ev_unmap addr size unmapped] in
  let '(g, fl, tr) :=
    if unmapped then
      let '(flushed, g, tr) := gather_push (_tlb_gather u) addr size tr in
      (g, negb flushed, tr)
    else (_tlb_gather u, true, tr) in
  ({| _tlb_gather := g; do_flush := fl;
      _total_operated := if account then u64 (_total_operated u + size) else _total_operated u |},
   tr).

(** [unpopulate::intermediate_page_post]. *)
Definition unpopulate_intermediate_page_post (pt : Z) (u : unpopulate) (tr : list tlb_event)
    : unpopulate * list tlb_event :=
  (u, tr ++ [ev_rcu_defer_free pt]).

(** [unpopulate::tlb_flush_needed]. *)
Definition unpopulate_tlb_flush_needed (u : unpopulate) (tr : list tlb_event)
    : bool * unpopulate * list tlb_event :=
  let '(flushed, g, tr) := gather_flush (_tlb_gather u) tr in
  (negb flushed && do_flush u,
   {| _tlb_gather := g; do_flush := do_flush u; _total_operated := _total_operated u |}, tr).

(** What the walker calls on the operation while it goes over the range. *)
Inductive walk_step : Type :=
| leaf_page (N : nat) (addr : Z) (unmapped : bool)
| intermediate_post (pt : Z).

Definition unpopulate_step (account : bool) (st : unpopulate * list tlb_event) (w : walk_step)
    : unpopulate * list tlb_event :=
  match w with
  | leaf_page N addr unmapped => unpopulate_page account N addr unmapped (fst st) (snd st)
  | intermediate_post pt => unpopulate_intermediate_page_post pt (fst st) (snd st)
  end.

(** [operate_range(unpopulate(...), ...)]: the walk, then the flush the
    operation asks for, then [finalize] and [account_results]. *)
Definition operate_range_unpopulate (account : bool) (walk : list walk_step)
    : Z * unpopulate * list tlb_event :=
  let '(u, tr) := fold_left (unpopulate_step account) walk (unpopulate_new, []) in
  let '(needed, u, tr) := unpopulate_tlb_flush_needed u tr in
  let tr := if needed then tr ++ [ev_flush_tlb_all] else tr in
  (_total_operated u, u, tr).

(** ** Files and VMAs *)

(** What [make_error] carries, what a call returns, and how a run can end
    otherwise: an exception on its way to the caller, undefined behaviour
    (an iterator dereferenced at [end()], a step before [begin()], an index
    past the end of an array), the recursion budget of the model used up, or
    an [assert] that fails and stops the program. *)
Inductive outcome (A : Type) : Type :=
| Done (a : A)
| Thrown (e : error)
| Undefined
| NoFuel
| Aborted.
Arguments Done {A} a.
Arguments Thrown {A} e.
Arguments Undefined {A}.
Arguments NoFuel {A}.
Arguments Aborted {A}.

#[global] Instance outcome_ret : MRet outcome := fun A a => Done a.
#[global] Instance outcome_bind : MBind outcome := fun A B k x =>
  match x with
  | Done a => k a
  | Thrown e => Thrown e
  | Undefined => Undefined
  | NoFuel => NoFuel
  | Aborted => Aborted
  end.

(** The two factories a file's [mmap] method resolves to. *)
Inductive mmap_method : Type :=
| use_default_file_mmap
| use_map_file_mmap.

(** Modelled from the spec: [file] belongs to the filesystem layer, which is
    not among the sources; a file is what this code reads of it: the open
    flags, the mount's noexec flag, what [stat] returns, its [mmap] method,
    the error, if any, that writing dirty pages back with [write] throws,
    and the outcome of the file's [sync] followed by [sys_fsync]. *)
Record file : Type := {
  f_fread : bool;
  f_fwrite : bool;
  mnt_noexec : bool;
  stat_error : error;
  st_size : Z;
  st_ino : Z;
  st_dev : Z;
  f_mmap : mmap_method;
  f_write_result : error;
  f_sync_result : error
}.

Inductive page_allocator : Type :=
| anonymous_pages (p : anon_provider)
| map_file_page_read (f : file) (foffset : Z)
| map_file_page_mmap (f : file) (off : Z) (shared : bool).

Definition page_allocator_noinitp : page_allocator :=
  anonymous_pages uninitialized_anonymous_page_provider.
Definition page_allocator_initp : page_allocator :=
  anonymous_pages initialized_anonymous_page_provider.

Inductive vma_variant : Type :=
| anon_variant
| file_variant (_file : file) (_offset : Z) (_file_inode _file_dev_id : Z).

Record vma : Type := {
  v_start : Z;
  v_end : Z;
  _perm : Z;
  _flags : Z;
  _map_dirty : bool;
  _page_ops : page_allocator;
  variant : vma_variant
}.

(** [vma::vma]: the range is aligned to pages. *)
Definition vma_new (rstart rend perm flags : Z) (map_dirty : bool)
    (page_ops : page_allocator) (var : vma_variant) : vma :=
  {| v_start := align_down rstart page_size; v_end := align_up rend page_size;
     _perm := perm; _flags := flags; _map_dirty := map_dirty; _page_ops := page_ops;
     variant := var |}.

(** [vma::set]. *)
Definition vma_set (v : vma) (rstart rend : Z) : vma :=
  {| v_start := align_down rstart page_size; v_end := align_up rend page_size;
     _perm := _perm v; _flags := _flags v; _map_dirty := _map_dirty v;
     _page_ops := _page_ops v; variant := variant v |}.

(** [vma::protect]. *)
Definition vma_protect (v : vma) (perm : Z) : vma :=
  {| v_start := v_start v; v_end := v_end v;
     _perm := perm; _flags := _flags v; _map_dirty := _map_dirty v;
     _page_ops := _page_ops v; variant := variant v |}.

(** What [vma::update_flags] stores; the call with its assertion on the
    lock is [mmu.update_flags]. *)
Definition update_flags (v : vma) (flag : Z) : vma :=
  {| v_start := v_start v; v_end := v_end v;
     _perm := _perm v; _flags := Z.lor (_flags v) flag; _map_dirty := _map_dirty v;
     _page_ops := _page_ops v; variant := variant v |}.

Definition has_flags (v : vma) (flag : Z) : bool := has_bits (_flags v) flag.
Definition vma_size (v : vma) : Z := u64 (v_end v - v_start v).

(** [anon_vma::anon_vma]. *)
Definition anon_vma (rstart rend perm flags : Z) : vma :=
  vma_new rstart rend perm flags true
    (if has_bits flags mmap_uninitialized then page_allocator_noinitp else page_allocator_initp)
    anon_variant.

(** [file_vma::validate_perm], on the flags of the VMA and its file. *)
Definition file_validate_perm (flags : Z) (f : file) (perm : Z) : error :=
  if negb (f_fread f) then EACCES
  else if has_bits perm perm_write && (has_bits flags mmap_shared && negb (f_fwrite f)) then EACCES
  else if has_bits perm perm_exec && mnt_noexec f then EPERM
  else no_error.

(** [validate_perm], virtual: only a file VMA can refuse. *)
Definition validate_perm (v : vma) (perm : Z) : error :=
  match variant v with
  | anon_variant => no_error
  | file_variant f _ _ _ => file_validate_perm (_flags v) f perm
  end.

(** [file_vma::file_vma]: the small flag is added to whatever was passed. *)
Definition file_vma (rstart rend perm flags : Z) (f : file) (offset : Z)
    (page_ops : page_allocator) : outcome vma :=
  let flags' := Z.lor flags mmap_small in
  match file_validate_perm flags' f perm with
  | no_error =>
      match stat_error f with
      | no_error =>
          Done (vma_new rstart rend perm flags' (negb (has_bits flags mmap_shared)) page_ops
                  (file_variant f offset (st_ino f) (st_dev f)))
      | e => Thrown e
      end
  | e => Thrown e
  end.

Definition default_file_mmap (f : file) (rstart rend flags perm offset : Z) : outcome vma :=
  file_vma rstart rend perm flags f offset (map_file_page_read f offset).

Definition map_file_mmap (f : file) (rstart rend flags perm offset : Z) : outcome vma :=
  file_vma rstart rend perm flags f offset
    (map_file_page_mmap f offset (has_bits flags mmap_shared)).

(** [file->mmap(range, flags, perm, offset)]. *)
Definition file_mmap (f : file) (rstart rend flags perm offset : Z) : outcome vma :=
  match f_mmap f with
  | use_default_file_mmap => default_file_mmap f rstart rend flags perm offset
  | use_map_file_mmap => map_file_mmap f rstart rend flags perm offset
  end.

(** [file_vma::offset(addr)]. *)
Definition file_offset (v : vma) (offset addr : Z) : Z := u64 (offset + (addr - v_start v)).

(** ** Page faults *)

(** What a fault handler does: a signal, or [populate_vma] over [size] bytes
    at [addr], with [populate_small] when the VMA has the small flag. *)
Inductive fault_outcome : Type :=
| deliver_sigsegv (addr : Z)
| deliver_sigbus (addr : Z)
| populate_vma (small : bool) (addr size : Z) (write : bool).

(** [vma::fault], without the JVM balloon. *)
Definition vma_fault (v : vma) (addr : Z) (error_code : access) : fault_outcome :=
  let hp_start := align_up (v_start v) huge_page_size in
  let hp_end := align_down (v_end v) huge_page_size in
  if negb (has_flags v mmap_small) && ((hp_start <=? addr) && (addr <? hp_end)) then
    populate_vma (has_flags v mmap_small) (align_down addr huge_page_size) huge_page_size
      (is_page_fault_write error_code)
  else
    populate_vma (has_flags v mmap_small) addr page_size (is_page_fault_write error_code).

(** [file_vma::fault]. *)
Definition file_vma_fault (v : vma) (f : file) (offset : Z) (addr : Z) (error_code : access)
    : fault_outcome :=
  let hp_start := align_up (v_start v) huge_page_size in
  let hp_end := align_down (v_end v) huge_page_size in
  let fsize := st_size f in
  if file_offset v offset addr >=? fsize then deliver_sigbus addr
  else if negb (has_flags v mmap_small) && ((hp_start <=? addr) && (addr <? hp_end))
          && (file_offset v offset hp_end <? fsize) then
    populate_vma (has_flags v mmap_small) (align_down addr huge_page_size) huge_page_size
      (is_page_fault_write error_code)
  else
    populate_vma (has_flags v mmap_small) addr page_size (is_page_fault_write error_code).

(** [vma->fault(addr, ef)], virtual. *)
Definition fault (v : vma) (addr : Z) (error_code : access) : fault_outcome :=
  match variant v with
  | anon_variant => vma_fault v addr error_code
  | file_variant f offset _ _ => file_vma_fault v f offset addr error_code
  end.

(** ** The VMA registry of a shard *)

Definition lower_vma_limit : Z := 0.
Definition upper_vma_limit : Z := 0x400000000000.

(** The registry [workers[owner(addr)].vma_list] of the shard that owns the
    addresses a call works on: the intrusive set as the list of its VMAs in
    the order of their start addresses.  An iterator is the position of its
    node, [end()] the length of the list; inserting or erasing a node before
    another one moves the position of the latter. *)
Abbreviation vma_list_type := (list vma) (only parsing).

(** [vma_list_type()]: the two markers at the edges. *)
Definition vma_list_init : vma_list_type :=
  [anon_vma lower_vma_limit lower_vma_limit 0 0; anon_vma upper_vma_limit upper_vma_limit 0 0].

(** [lower_bound(addr, addr_compare())]: the first VMA that does not start
    before [addr]. *)
Fixpoint lower_bound (addr : Z) (l : vma_list_type) : nat :=
  match l with
  | [] => O
  | v :: r => if v_start v <? addr then S (lower_bound addr r) else O
  end.

(** [insert] of the set: a node with the same start keeps its place.
    Also the position of the new node, if there is one. *)
Fixpoint vma_insert (n : vma) (l : vma_list_type) : vma_list_type :=
  match l with
  | [] => [n]
  | v :: r =>
      if v_start n <? v_start v then n :: l
      else if v_start n =? v_start v then l
      else v :: vma_insert n r
  end.

Definition inserted_at (n : vma) (l : vma_list_type) : option nat :=
  let p := lower_bound (v_start n) l in
  match l !! p with
  | Some v => if v_start v =? v_start n then None else Some p
  | None => Some p
  end.

Definition after_insert (p : option nat) (it : nat) : nat :=
  match p with
  | Some p => if (p <=? it)%nat then S it else it
  | None => it
  end.

(** [vma_store::find_intersecting_vma(addr)]: the search in one registry.
    [superblock_manager::find_intersecting_vma] runs it on the registry of the
    worker that owns [addr]: [superblock_manager.find_intersecting_vma]. *)
Definition find_intersecting_vma (l : vma_list_type) (addr : Z) : outcome nat :=
  let it := lower_bound addr l in
  match l !! it with
  | None => Undefined
  | Some v =>
      if v_start v =? addr then Done it
      else
        match it with
        | O => Undefined
        | S it' =>
            match l !! it' with
            | None => Undefined
            | Some v' =>
                if (addr >=? v_start v') && (addr <? v_end v') then Done it' else Done (length l)
            end
        end
  end.

(** [vma_store::find_intersecting_vmas(r)]: the slice [first, second) of one
    registry.  [superblock_manager::find_intersecting_vmas] runs the same
    search on the registry of the worker that owns the range, behind its
    assertion that both ends of the range have the same owner:
    [superblock_manager.find_intersecting_vmas]. *)
Definition find_intersecting_vmas (l : vma_list_type) (rstart rend : Z) : outcome (nat * nat) :=
  if rend <=? rstart then Done (length l, length l)
  else
    let start := lower_bound rstart l in
    match l !! start with
    | None => Undefined
    | Some v =>
        start' ←
          (if v_start v >? rstart then
             match start with
             | O => Undefined
             | S prev =>
                 match l !! prev with
                 | None => Undefined
                 | Some pv => Done (if v_end pv >? rstart then prev else start)
                 end
             end
           else Done start);
        match l !! start' with
        | None => Undefined
        | Some sv =>
            if v_start sv >=? rend then Done (length l, length l)
            else Done (start', lower_bound rend l)
        end
    end.

(** The VMAs an iteration [for (p = first; p != second; ++p)] visits when
    the loop body leaves the set alone. *)
Definition slice (l : vma_list_type) (first second : nat) : list vma :=
  take (second - first) (drop first l).

(** The loop of [ismapped]. *)
Fixpoint ismapped_loop (vs : list vma) (start end_ : Z) : bool :=
  match vs with
  | [] => false
  | p :: r =>
      if v_start p >? start then false
      else if v_end p >=? end_ then true
      else ismapped_loop r (v_end p) end_
  end.

(** The body of [ismapped(addr, size)] on the registry of the worker that
    owns the range, the owner assertion of the search passed; [mmu.ismapped]
    is the call with the assertion. *)
Definition ismapped (l : vma_list_type) (addr size : Z) : outcome bool :=
  let start := addr in
  let end_ := u64 (start + size) in
  '(first, second) ← find_intersecting_vmas l start end_;
  Done (ismapped_loop (slice l first second) start end_).

(** ** The state the calls work on *)

(** A walk over the page tables, or a write-back to a file, that a call
    starts; the walks themselves are the walker's business. *)
Inductive effect : Type :=
| walk_protection (vma_start size perm : Z)
| walk_unpopulate (page_ops : page_allocator) (vma_start start size : Z)
| walk_splithugepages (vma_start start size : Z)
| file_sync (f : file) (start end_ : Z).

Record mm : Type := {
  vma_list : vma_list_type;
  free_ranges : range_map;
  effects : list effect
}.

Definition set_vma_list (st : mm) (l : vma_list_type) : mm :=
  {| vma_list := l; free_ranges := free_ranges st; effects := effects st |}.
Definition add_effect (st : mm) (e : effect) : mm :=
  {| vma_list := vma_list st; free_ranges := free_ranges st; effects := effects st ++ [e] |}.

(** ** Splitting *)

(** The end of both [split] methods, for the VMA [v] at position [i] and the
    new VMA [n]: [set(_range.start(), edge)], then [sb_mgr->insert(n)].  The
    registry afterwards and where the new VMA went. *)
Definition split_insert (l : vma_list_type) (i : nat) (v : vma) (edge : Z) (n : vma)
    : vma_list_type * option nat :=
  let l1 := <[i := vma_set v (v_start v) edge]> l in
  (vma_insert n l1, inserted_at n l1).

(** [anon_vma::split(edge)]. *)
Definition anon_vma_split (l : vma_list_type) (i : nat) (v : vma) (edge : Z)
    : outcome (vma_list_type * option nat) :=
  if (edge <=? v_start v) || (edge >=? v_end v) then Done (l, None)
  else Done (split_insert l i v edge (anon_vma edge (v_end v) (_perm v) (_flags v))).

(** [file_vma::split(edge)]. *)
Definition file_vma_split (l : vma_list_type) (i : nat) (v : vma) (f : file) (offset : Z)
    (edge : Z) : outcome (vma_list_type * option nat) :=
  if (edge <=? v_start v) || (edge >=? v_end v) then Done (l, None)
  else
    let off := file_offset v offset edge in
    n ← file_mmap f edge (v_end v) (_flags v) (_perm v) off;
    Done (split_insert l i v edge n).

(** [i->split(edge)], virtual, on the VMA at position [i]. *)
Definition split (l : vma_list_type) (i : nat) (edge : Z)
    : outcome (vma_list_type * option nat) :=
  match l !! i with
  | None => Undefined
  | Some v =>
      match variant v with
      | anon_variant => anon_vma_split l i v edge
      | file_variant f offset _ _ => file_vma_split l i v f offset edge
      end
  end.

(** ** mprotect *)

Definition contains (start end_ : Z) (y : vma) : bool :=
  (v_start y >=? start) && (v_end y <=? end_).

(** The loop of [protect]. *)
Fixpoint protect_loop (fuel : nat) (start end_ perm : Z) (i second : nat) (st : mm)
    : outcome (error * mm) :=
  match fuel with
  | O => NoFuel
  | S f =>
      if (i =? second)%nat then Done (no_error, st)
      else
        match vma_list st !! i with
        | None => Undefined
        | Some v =>
            if _perm v =? perm then protect_loop f start end_ perm (S i) second st
            else
              match validate_perm v perm with
              | no_error =>
                  '(l1, p1) ← split (vma_list st) i end_;
                  '(l2, p2) ← split l1 i start;
                  let second := after_insert p2 (after_insert p1 second) in
                  match l2 !! i with
                  | None => Undefined
                  | Some v2 =>
                      if contains start end_ v2 then
                        let v3 := vma_protect v2 perm in
                        protect_loop f start end_ perm (S i) second
                          (add_effect (set_vma_list st (<[i := v3]> l2))
                             (walk_protection (v_start v3) (vma_size v3) perm))
                      else protect_loop f start end_ perm (S i) second (set_vma_list st l2)
                  end
              | e => Done (e, st)
              end
        end
  end.

(** [protect(addr, size, perm)] on the registry of the worker that owns the
    range, the owner assertion of the search passed. *)
Definition protect (st : mm) (addr size perm : Z) : outcome (error * mm) :=
  let start := addr in
  let end_ := u64 (start + size) in
  '(first, second) ← find_intersecting_vmas (vma_list st) start end_;
  protect_loop (3 * length (vma_list st) + 1) start end_ perm first second st.

(** [mprotect(addr, len, perm)] once [vma_lock(addr)] is held, on the
    registry of the worker that owns [addr]. *)
Definition mprotect (st : mm) (addr len perm : Z) : outcome (error * mm) :=
  mapped ← ismapped (vma_list st) addr len;
  if negb mapped then Done (ENOMEM, st) else protect st addr len perm.

(** ** munmap, msync, madvise *)

Definition after_erase (p : nat) (it : nat) : nat :=
  if (p <? it)%nat then pred it else it.

(** [evacuate(vma& dead)] on the VMA at position [i]: the unpopulate walk,
    the range given back to the free-range map, the VMA erased.  The number
    of bytes the walk reports is left out. *)
Definition evacuate_vma (st : mm) (i : nat) : outcome mm :=
  match vma_list st !! i with
  | None => Undefined
  | Some dead =>
      Done {| vma_list := delete i (vma_list st);
              free_ranges := free_range (v_start dead) (vma_size dead) (free_ranges st);
              effects := effects st ++
                [walk_unpopulate (_page_ops dead) (v_start dead) (v_start dead) (vma_size dead)] |}
  end.

(** The loop of [evacuate(start, end)]; after [evacuate( *i-- )] the
    iterator is back on the node before, which the position 0 does not
    have. *)
Fixpoint evacuate_loop (fuel : nat) (start end_ : Z) (i second : nat) (st : mm) : outcome mm :=
  match fuel with
  | O => NoFuel
  | S f =>
      if (i =? second)%nat then Done st
      else
        '(l1, p1) ← split (vma_list st) i end_;
        '(l2, p2) ← split l1 i start;
        let second := after_insert p2 (after_insert p1 second) in
        match l2 !! i with
        | None => Undefined
        | Some v =>
            if contains start end_ v then
              st' ← evacuate_vma (set_vma_list st l2) i;
              match i with
              | O => Undefined
              | S _ => evacuate_loop f start end_ i (after_erase i second) st'
              end
            else evacuate_loop f start end_ (S i) second (set_vma_list st l2)
        end
  end.

Definition evacuate (st : mm) (start end_ : Z) : outcome mm :=
  '(first, second) ← find_intersecting_vmas (vma_list st) start end_;
  evacuate_loop (3 * length (vma_list st) + 1) start end_ first second st.

(** [unmap(addr, size)], as [evacuate] on the registry of the worker that
    owns the range; [mmu.unmap] is the call with the owner assertion. *)
Definition unmap (st : mm) (addr size : Z) : outcome mm :=
  let size := align_up size page_size in
  evacuate st addr (u64 (addr + size)).

(** [anon_vma::sync] and [file_vma::sync]; the write-back of a shared file
    mapping is the file's, and its outcome is read off it.  With the
    [map_file_page_read] provider the dirty pages are written by
    [dirty_cleaner], which accounts nothing, so that [sys_fsync] is not
    called and the error is the one [write] throws, if any; with the other
    provider it is the outcome of the file's [sync] and [sys_fsync]. *)
Definition vma_sync (v : vma) (start end_ : Z) (log : list effect) : error * list effect :=
  match variant v with
  | anon_variant => (no_error, log)
  | file_variant f _ _ _ =>
      if negb (has_flags v mmap_shared) then (ENOMEM, log)
      else
        match _page_ops v with
        | map_file_page_read _ _ =>
            (f_write_result f,
             log ++ [file_sync f (Z.max start (v_start v)) (Z.min end_ (v_end v))])
        | _ => (f_sync_result f, log ++ [file_sync f start end_])
        end
  end.

Definition bad (e : error) : bool :=
  match e with no_error => false | _ => true end.

Fixpoint sync_loop (vs : list vma) (start end_ : Z) (err : error) (log : list effect)
    : error * list effect :=
  match vs with
  | [] => (err, log)
  | i :: r =>
      let '(err, log) := vma_sync i (Z.max start (v_start i)) (Z.min end_ (v_end i)) log in
      if bad err then (err, log) else sync_loop r start end_ err log
  end.

(** [sync(addr, length, flags)] on the registry of the worker that owns the
    range; [mmu.sync] is the call with the owner assertion. *)
Definition sync (st : mm) (addr length : Z) : outcome (error * mm) :=
  let length := align_up length page_size in
  let start := addr in
  let end_ := u64 (start + length) in
  '(first, second) ← find_intersecting_vmas (vma_list st) start end_;
  let '(err, log) := sync_loop (slice (vma_list st) first second) start end_ ENOMEM (effects st) in
  Done (err, {| vma_list := vma_list st; free_ranges := free_ranges st; effects := log |}).

(** [munmap(addr, length)] once [vma_lock(addr)] is held, on the registry
    of the worker that owns [addr]; [mmu.munmap] is the call with the lock
    and the owner assertions. *)
Definition munmap (st : mm) (addr length : Z) : outcome (error * mm) :=
  let length := align_up length page_size in
  mapped ← ismapped (vma_list st) addr length;
  if negb mapped then Done (EINVAL, st)
  else
    '(_, st1) ← sync st addr length;
    st2 ← unmap st1 addr length;
    Done (no_error, st2).

(** The loop of [depopulate]. *)
Fixpoint depopulate_loop (vs : list vma) (start length : Z) (log : list effect) : list effect :=
  match vs with
  | [] => log
  | i :: r =>
      depopulate_loop r (u64 (start + vma_size i)) (u64 (length - vma_size i))
        (log ++ [walk_unpopulate (_page_ops i) (v_start i) start (Z.min length (vma_size i))])
  end.

Inductive advice : Type :=
| advise_dontneed
| advise_nohugepage
| advise_other.

(** ** mincore *)

(** Modelled from the spec: the kernel image bounds [elf_start], [elf_size],
    the base of the linear map [phys_mem] and [safe_load] are defined outside
    the sources; [safe_load] tells whether a byte can be read. *)
Record kernel : Type := {
  elf_start : Z;
  elf_size : Z;
  phys_mem : Z;
  safe_load : Z -> bool
}.

(** [is_linear_mapped(addr, size)]. *)
Definition is_linear_mapped (K : kernel) (addr size : Z) : bool :=
  if (addr >=? elf_start K) && (u64 (addr + size) <=? u64 (elf_start K + elf_size K)) then true
  else addr >=? phys_mem K.

(** The loop of [mincore]: the bytes stored through [vec], in order. *)
Fixpoint mincore_loop (K : kernel) (fuel : nat) (p end_ : Z) : list Z :=
  match fuel with
  | O => []
  | S f =>
      if p <? end_ then (if safe_load K p then 1 else 0) :: mincore_loop K f (p + page_size) end_
      else []
  end.

(** ** Entry points that create VMAs *)

(** The VMA [map_anon(addr, size, flags, perm)] creates, before [allocate]
    places it. *)
Definition map_anon_vma (addr size flags perm : Z) : vma :=
  let size := align_up size page_size in
  anon_vma addr (u64 (addr + size)) perm flags.

(** ** The calls with their lock and their assertions *)

(** The calls above work on the registry of one worker and take the lock of
    that worker as held.  The program reaches a registry through the
    superblock manager: [vma_lock(addr)] asserts that the owner of [addr] is
    one of the workers, [find_intersecting_vmas] asserts that both ends of
    the range have the same owner, and both index [workers] with the owner.
    Here are the calls with these steps; the registry [l], or the state
    [st], they are given is that of the worker that owns the address of the
    call. *)
Module superblock_manager.

(** [vma_lock(addr)]: the worker whose lock it returns. *)
Definition vma_lock (L : layout) (sb : list Z) (addr : Z) : outcome Z :=
  match owner L sb addr with
  | None => Undefined
  | Some o => if o <? workers_size then Done o else Aborted
  end.

(** [workers[owner(addr)]]: the worker, when the array has one at that
    index. *)
Definition worker (L : layout) (sb : list Z) (addr : Z) : outcome Z :=
  match owner L sb addr with
  | None => Undefined
  | Some o => if o <? workers_size then Done o else Undefined
  end.

(** [find_intersecting_vma(addr)]. *)
Definition find_intersecting_vma (L : layout) (sb : list Z) (l : vma_list_type) (addr : Z)
    : outcome nat :=
  _ ← worker L sb addr;
  find_intersecting_vma l addr.

(** [find_intersecting_vmas(r)]: the assertion comes first, before the test
    for an empty range. *)
Definition find_intersecting_vmas (L : layout) (sb : list Z) (l : vma_list_type)
    (rstart rend : Z) : outcome (nat * nat) :=
  match owner L sb rstart, owner L sb (u64 (rend - 1)) with
  | Some o, Some o' =>
      if o =? o' then
        _ ← worker L sb rstart;
        find_intersecting_vmas l rstart rend
      else Aborted
  | _, _ => Undefined
  end.

End superblock_manager.

Module mmu.

(** [ismapped(addr, size)]. *)
Definition ismapped (L : layout) (sb : list Z) (l : vma_list_type) (addr size : Z)
    : outcome bool :=
  let start := addr in
  let end_ := u64 (start + size) in
  '(first, second) ← superblock_manager.find_intersecting_vmas L sb l start end_;
  Done (ismapped_loop (slice l first second) start end_).

(** [sync(addr, length, flags)]. *)
Definition sync (L : layout) (sb : list Z) (st : mm) (addr length : Z) : outcome (error * mm) :=
  let length := align_up length page_size in
  let start := addr in
  let end_ := u64 (start + length) in
  '(first, second) ← superblock_manager.find_intersecting_vmas L sb (vma_list st) start end_;
  let '(err, log) := sync_loop (slice (vma_list st) first second) start end_ ENOMEM (effects st) in
  Done (err, {| vma_list := vma_list st; free_ranges := free_ranges st; effects := log |}).

(** [evacuate(start, end)]. *)
Definition evacuate (L : layout) (sb : list Z) (st : mm) (start end_ : Z) : outcome mm :=
  '(first, second) ← superblock_manager.find_intersecting_vmas L sb (vma_list st) start end_;
  evacuate_loop (3 * length (vma_list st) + 1) start end_ first second st.

(** [unmap(addr, size)]. *)
Definition unmap (L : layout) (sb : list Z) (st : mm) (addr size : Z) : outcome mm :=
  let size := align_up size page_size in
  evacuate L sb st addr (u64 (addr + size)).

(** [munmap(addr, length)]. *)
Definition munmap (L : layout) (sb : list Z) (st : mm) (addr length : Z)
    : outcome (error * mm) :=
  _ ← superblock_manager.vma_lock L sb addr;
  let length := align_up length page_size in
  mapped ← ismapped L sb (vma_list st) addr length;
  if negb mapped then Done (EINVAL, st)
  else
    '(_, st1) ← sync L sb st addr length;
    st2 ← unmap L sb st1 addr length;
    Done (no_error, st2).

(** [msync(addr, length, flags)]. *)
Definition msync (L : layout) (sb : list Z) (st : mm) (addr length : Z)
    : outcome (error * mm) :=
  _ ← superblock_manager.vma_lock L sb addr;
  mapped ← ismapped L sb (vma_list st) addr length;
  if negb mapped then Done (ENOMEM, st) else sync L sb st addr length.

(** [depopulate(addr, length)]. *)
Definition depopulate (L : layout) (sb : list Z) (st : mm) (addr length : Z) : outcome mm :=
  let length := align_up length page_size in
  let start := addr in
  '(first, second) ←
    superblock_manager.find_intersecting_vmas L sb (vma_list st) start (u64 (start + length));
  Done {| vma_list := vma_list st; free_ranges := free_ranges st;
          effects := depopulate_loop (slice (vma_list st) first second) start length (effects st) |}.

(** [vma::update_flags(flag)] with its assertion
    [sb_mgr->vma_lock(this).wowned()]: the lock is that of the worker owning
    the address [this] of the VMA object, which the allocator chose; the
    caller holds for writing the lock of the worker [held], and no other. *)
Definition update_flags (L : layout) (sb : list Z) (held this : Z) (v : vma) (flag : Z)
    : outcome vma :=
  o ← superblock_manager.vma_lock L sb this;
  if o =? held then Done (update_flags v flag) else Aborted.

(** The loop of [nohugepage], over the positions [i], [i+1], ...; [this]
    gives the address of the object of each VMA. *)
Fixpoint nohugepage_loop (L : layout) (sb : list Z) (held : Z) (this : vma -> Z)
    (count : nat) (i : nat) (start length : Z) (st : mm) : outcome mm :=
  match count with
  | O => Done st
  | S c =>
      match vma_list st !! i with
      | None => Undefined
      | Some v =>
          st1 ←
            (if negb (has_flags v mmap_small) then
               v' ← update_flags L sb held (this v) v mmap_small;
               Done (add_effect (set_vma_list st (<[i := v']> (vma_list st)))
                       (walk_splithugepages (v_start v) start (Z.min length (vma_size v))))
             else Done st);
          nohugepage_loop L sb held this c (S i)
            (u64 (start + vma_size v)) (u64 (length - vma_size v)) st1
      end
  end.

(** [nohugepage(addr, length)]. *)
Definition nohugepage (L : layout) (sb : list Z) (held : Z) (this : vma -> Z)
    (st : mm) (addr length : Z) : outcome mm :=
  let length := align_up length page_size in
  let start := addr in
  '(first, second) ←
    superblock_manager.find_intersecting_vmas L sb (vma_list st) start (u64 (start + length));
  nohugepage_loop L sb held this (second - first) first start length st.

(** [advise(addr, size, advice)]. *)
Definition advise (L : layout) (sb : list Z) (this : vma -> Z) (st : mm) (addr size : Z)
    (adv : advice) : outcome (error * mm) :=
  held ← superblock_manager.vma_lock L sb addr;
  mapped ← ismapped L sb (vma_list st) addr size;
  if negb mapped then Done (ENOMEM, st)
  else
    match adv with
    | advise_dontneed => st' ← depopulate L sb st addr size; Done (no_error, st')
    | advise_nohugepage => st' ← nohugepage L sb held this st addr size; Done (no_error, st')
    | advise_other => Done (EINVAL, st)
    end.

(** [mincore(addr, length, vec)]: the error and what was written to [vec]. *)
Definition mincore (K : kernel) (L : layout) (sb : list Z) (l : vma_list_type)
    (addr length : Z) : outcome (error * list Z) :=
  let end_ := align_up (u64 (addr + length)) page_size in
  _ ← superblock_manager.vma_lock L sb addr;
  mapped ← (if is_linear_mapped K addr length then Done true
            else ismapped L sb l addr length);
  if negb mapped then Done (ENOMEM, [])
  else Done (no_error, mincore_loop K (Z.to_nat ((end_ - addr) / page_size + 1)) addr end_).

(** [vm_fault(addr, ef)] after the architecture's fast check. *)
Definition vm_fault (L : layout) (sb : list Z) (l : vma_list_type) (addr : Z)
    (error_code : access) : outcome fault_outcome :=
  let addr := align_down addr page_size in
  _ ← superblock_manager.vma_lock L sb addr;
  it ← superblock_manager.find_intersecting_vma L sb l addr;
  match l !! it with
  | None => Done (deliver_sigsegv addr)
  | Some v =>
      if access_fault (_perm v) error_code then Done (deliver_sigsegv addr)
      else Done (fault v addr error_code)
  end.

(** [munmap_anon(addr)]. *)
Definition munmap_anon (L : layout) (sb : list Z) (st : mm) (addr : Z)
    : outcome (error * mm) :=
  _ ← superblock_manager.vma_lock L sb addr;
  v ← superblock_manager.find_intersecting_vma L sb (vma_list st) addr;
  if (v =? length (vma_list st))%nat then Done (EINVAL, st)
  else st' ← evacuate_vma st v; Done (no_error, st').

End mmu.

(** ** Notions the statements below use *)

(** Some VMA of the registry covers the byte. *)
Definition mapped_byte (l : vma_list_type) (x : Z) : Prop :=
  exists v, In v l /\ v_start v <= x < v_end v.

Definition page_aligned (x : Z) : Prop := x mod page_size = 0.

(** The registry holds its two markers: it begins with a VMA at
    [lower_vma_limit] and has one at [upper_vma_limit]. *)
Definition has_markers (l : vma_list_type) : Prop :=
  (exists v0 r, l = v0 :: r /\ v_start v0 = lower_vma_limit) /\
  (exists vn, In vn l /\ v_start vn = upper_vma_limit).

(** What a fault handler populates. *)
Definition populates (o : fault_outcome) (size : Z) : Prop :=
  match o with
  | populate_vma _ _ s _ => s = size
  | _ => False
  end.

(** The pages a trace frees, and the pages it hands to the batch, in order. *)
Definition freed_page (e : tlb_event) : option (Z * Z) :=
  match e with
  | ev_free_page a => Some (a, page_size)
  | ev_free_huge_page a s => Some (a, s)
  | _ => None
  end.

Definition batched_page (e : tlb_event) : option (Z * Z) :=
  match e with
  | ev_unmap a s true => Some (a, s)
  | _ => None
  end.

Definition freed_pages (tr : list tlb_event) : list (Z * Z) := omap freed_page tr.
Definition batched_pages (tr : list tlb_event) : list (Z * Z) := omap batched_page tr.

(** Every page the trace frees was unmapped earlier, with a global TLB flush
    in between. *)
Definition flush_precedes_free (tr : list tlb_event) : Prop :=
  forall i e p, tr !! i = Some e -> freed_page e = Some p ->
    exists j k, (k < j < i)%nat /\ tr !! j = Some ev_flush_tlb_all /\
                tr !! k = Some (ev_unmap (fst p) (snd p) true).

(** What holds between the walker's calls. *)
Definition gather_inv (g : tlb_gather) (tr : list tlb_event) : Prop :=
  flush_precedes_free tr /\
  (forall p, In p (pages g) -> exists k, tr !! k = Some (ev_unmap (fst p) (snd p) true)) /\
  freed_pages tr ++ pages g = batched_pages tr.

(** The number of 4K steps from [p] that stay below [end_]. *)
Definition pages_between (p end_ : Z) : nat :=
  Z.to_nat ((end_ - p + page_size - 1) / page_size).

(** One byte for each of [n] pages from [p] on: 1 when [safe_load] can read
    the page, 0 when it cannot. *)
Fixpoint page_bytes (K : kernel) (n : nat) (p : Z) : list Z :=
  match n with
  | O => []
  | S m => (if safe_load K p then 1 else 0) :: page_bytes K m (p + page_size)
  end.

(** One VMA lies before another: it starts earlier and ends where the other
    starts, at the latest. *)
Definition vma_before (a b : vma) : Prop :=
  v_start a < v_start b /\ v_end a <= v_start b.

(** The VMAs of a registry are in the order of their start addresses and do
    not overlap. *)
Definition ordered_disjoint (l : list vma) : Prop := StronglySorted vma_before l.

(** The VMA with its end moved to [edge]. *)
Definition truncated (v : vma) (edge : Z) : vma :=
  {| v_start := v_start v; v_end := edge; _perm := _perm v; _flags := _flags v;
     _map_dirty := _map_dirty v; _page_ops := _page_ops v; variant := variant v |}.

(** The permissions [change_perm] works with: write is masked off for a
    copy-on-write entry. *)
Definition effective_perm (pte : pt_element) (perm : Z) : Z :=
  if pte_is_cow pte then Z.land perm (u32 (Z.lnot perm_write)) else perm.

(** The byte lies in the VMA. *)
Definition covers_byte (v : vma) (x : Z) : Prop := v_start v <= x < v_end v.

(** A VMA of whole pages inside the window. *)
Definition vma_ok (v : vma) : Prop :=
  page_aligned (v_start v) /\ page_aligned (v_end v) /\
  0 <= v_start v /\ v_start v <= v_end v /\ v_end v <= upper_vma_limit.

(** The invariant of a shard's registry. *)
Definition well_formed (l : list vma) : Prop :=
  ordered_disjoint l /\ forall v, In v l -> vma_ok v.

(** ** Sample data *)

(** One gigabyte superblocks below [main_mem_area_base]. *)
Definition sample_layout : layout :=
  {| superblock_area_base := 0x200000000000;
     main_mem_area_base := 0x400000000000;
     superblock_size := 0x40000000 |}.

(** CPU 0 owns the first superblock, CPU 1 the second, the others are free. *)
Definition sample_superblocks : list Z := 0 :: 1 :: repeat FREE (Z.to_nat 32766).

(** A readable 16 MiB file on a mount that allows execution. *)
Definition sample_file : file :=
  {| f_fread := true; f_fwrite := true; mnt_noexec := false; stat_error := no_error;
     st_size := 0x1000000; st_ino := 7; st_dev := 1; f_mmap := use_default_file_mmap;
     f_write_result := no_error; f_sync_result := no_error |}.

(** The VMA that [default_file_mmap] makes of it over [0x200000, 0x800000),
    read-only and with no flag passed. *)
Definition sample_file_vma : vma :=
  {| v_start := 0x200000; v_end := 0x800000; _perm := perm_read; _flags := mmap_small;
     _map_dirty := true; _page_ops := map_file_page_read sample_file 0;
     variant := file_variant sample_file 0 7 1 |}.

(** A shard with one anonymous read-write VMA over [0x1000, 0x4000). *)
Definition sample_mm : mm :=
  {| vma_list := [anon_vma lower_vma_limit lower_vma_limit 0 0;
                  anon_vma 0x1000 0x4000 (Z.lor perm_read perm_write) 0;
                  anon_vma upper_vma_limit upper_vma_limit 0 0];
     free_ranges := [(0, 0x1000); (0x4000, 0x3FFFFFFFC000)];
     effects := [] |}.

(** A populated, writable 4K leaf entry. *)
Definition sample_pte : pt_element :=
  {| pte_valid := true; pte_writable := true; pte_executable := false;
     pte_large := false; pte_dirty := true; pte_rsvd := false; pte_cow := false;
     pte_addr := 0x7000 |}.

Definition sample_kernel : kernel :=
  {| elf_start := 0x40200000; elf_size := 0x800000; phys_mem := 0xffff800000000000;
     safe_load := fun a => (0x1000 <=? a) && (a <? 0x3000) |}.

(** The sample shard after [mprotect(0x2000, 0x1000, perm_write)]. *)
Definition sample_mm_protected : mm :=
  {| vma_list := [anon_vma lower_vma_limit lower_vma_limit 0 0;
                  anon_vma 0x1000 0x2000 (Z.lor perm_read perm_write) 0;
                  anon_vma 0x2000 0x3000 perm_write 0;
                  anon_vma 0x3000 0x4000 (Z.lor perm_read perm_write) 0;
                  anon_vma upper_vma_limit upper_vma_limit 0 0];
     free_ranges := free_ranges sample_mm;
     effects := [walk_protection 0x2000 0x1000 perm_write] |}.

(** ** The address-space layout *)

(** The address-space constants lie in the 64-bit address space, with the
    superblock area below the main memory area. *)
Definition layout_ok (L : layout) : Prop :=
  0 < superblock_size L /\
  0 <= superblock_area_base L <= main_mem_area_base L /\
  main_mem_area_base L < 2 ^ 64.

(** ** The invariant of a free-range map *)

(** One interval of the map ends before another begins. *)
Definition range_before (a b : Z * Z) : Prop := fst a + snd a <= fst b.

(** An interval of the map is not empty and lies in the address space. *)
Definition range_ok (e : Z * Z) : Prop := 0 <= fst e /\ 0 < snd e /\ fst e + snd e < 2 ^ 64.

(** The invariant of a free-range map: the intervals are in key order and do
    not overlap. *)
Definition ranges_ok (fr : range_map) : Prop :=
  StronglySorted range_before fr /\ Forall range_ok fr.

(** No interval of the map ends where another one begins. *)
Definition coalesced (fr : range_map) : Prop :=
  forall a b, In a fr -> In b fr -> fst a + snd a <> fst b.

(** ** Reserving a range *)

(** [erase(key)]. *)
Fixpoint map_erase_key (k : Z) (fr : range_map) : range_map :=
  match fr with
  | [] => []
  | (k', v') :: r => if k' =? k then r else (k', v') :: map_erase_key k r
  end.

(** The first-fit loop of [reserve_range], over the entries [todo] that begin
    at position [i] of the map: the address handed out and the map
    afterwards, [None] when the loop runs to the end. *)
Fixpoint reserve_fit (size : Z) (i : nat) (todo : range_map) (fr : range_map)
    : option (Z * range_map) :=
  match todo with
  | [] => None
  | (first, second) :: r =>
      if second >? size then
        let second' := u64 (second - size) in
        Some (u64 (first + second'), <[i := (first, second')]> fr)
      else if second =? size then Some (first, map_erase_key first fr)
      else reserve_fit size (S i) r fr
  end.

(** [reserve_range(size)] on CPU [cpu_id], with the CPU's own free-range
    map: the address reserved and the map afterwards. *)
Definition reserve_range (L : layout) (cpu_id size : Z) (sched : list interference)
    (sb : list Z) (fr : range_map) : run (Z * range_map) :=
  match reserve_fit size 0 fr fr with
  | Some res => Ret res sb
  | None =>
      match allocate_superblocks (S (length sched)) cpu_id 1 sched sb with
      | Ret s sb' =>
          let ret := superblock_ptr L s in
          Ret (ret, free_range (u64 (ret + size)) (u64 (superblock_size L - size)) fr) sb'
      | Throw e sb' => Throw e sb'
      | OutOfBounds sb' => OutOfBounds sb'
      | OutOfFuel => OutOfFuel
      end
  end.

(** ** The populate operation *)

Definition set_dirty (v : bool) (p : pt_element) : pt_element :=
  {| pte_valid := pte_valid p; pte_writable := pte_writable p; pte_executable := pte_executable p;
     pte_large := pte_large p; pte_dirty := v; pte_rsvd := pte_rsvd p;
     pte_cow := pte_cow p; pte_addr := pte_addr p |}.

(** [populate::skip]. *)
Definition populate_skip (write : bool) (pte : pt_element) : bool :=
  if pte_empty pte then false else negb write || pte_writable pte.

(** [populate::dirty]. *)
Definition populate_dirty (map_dirty write : bool) (pte : pt_element) : pt_element :=
  set_dirty (map_dirty || write) pte.

(** What [populate::page] ends with: its result, the slot, the memory, the
    bytes accounted so far and what the provider did. *)
Record populated : Type := {
  page_result : bool;
  page_slot : pt_element;
  page_memory : memory;
  page_total : Z;
  page_log : list provider_event
}.

(** [populate::page] at level [N] over an anonymous provider, on a slot that
    holds [slot].  [leaf] is the entry [make_leaf_pte(ptep, 0, _perm)]
    proposes, [page] what the page allocator returns when it is asked. *)
Definition populate_page (account : bool) (p : anon_provider) (N : nat)
    (write map_dirty : bool) (leaf : pt_element) (page offset : Z)
    (slot : pt_element) (m : memory) (total : Z) : populated :=
  if populate_skip write slot then
    {| page_result := true; page_slot := slot; page_memory := m; page_total := total;
       page_log := [] |}
  else
    let pte := populate_dirty map_dirty write leaf in
    match provider_map p N page offset slot pte write m with
    | map_throws =>
        {| page_result := false; page_slot := slot; page_memory := m; page_total := total;
           page_log := [] |}
    | map_returns installed slot' m' log =>
        {| page_result := true; page_slot := slot'; page_memory := m';
           page_total := if installed && account then u64 (total + level_size N) else total;
           page_log := log |}
    end.

(** ** Notions for the traces of unpopulate *)

(** Every call of a provider's [unmap] in the trace is followed by a global
    TLB flush. *)
Definition unmap_is_flushed (tr : list tlb_event) : Prop :=
  forall i a s b, tr !! i = Some (ev_unmap a s b) ->
    exists j, (i < j)%nat /\ tr !! j = Some ev_flush_tlb_all.

(** The bytes of the leaf pages a walk visits. *)
Definition leaf_bytes (walk : list walk_step) : Z :=
  fold_right (fun w acc => match w with leaf_page N _ _ => level_size N + acc | _ => acc end) 0 walk.
(** Between the walker's calls: a call of [unmap] that no flush has followed
    yet has left a page in the batch or has set [do_flush]. *)
Definition flush_owed (u : unpopulate) (tr : list tlb_event) : Prop :=
  forall i a s b, tr !! i = Some (ev_unmap a s b) ->
    (exists j, (i < j)%nat /\ tr !! j = Some ev_flush_tlb_all) \/
    pages (_tlb_gather u) <> [] \/ do_flush u = true.

(** ** The total size of the VMAs *)

(** [vma_store::all_vmas_size], and the sum [superblock_manager::all_vmas_size]
    adds up for each worker: [std::accumulate] over the registry. *)
Definition all_vmas_size (l : vma_list_type) : Z :=
  fold_left (fun s v => u64 (s + vma_size v)) l 0.

(** ** Reserving address space in the set of ranges *)

(** The set of all ranges in use, [std::set<vma_range, vma_range_compare>],
    as the list of its ranges in the order of their start addresses. *)
Record vma_range : Type := { r_start : Z; r_end : Z }.

(** [std::lower_bound(begin, end, start, vma_range_addr_compare())]. *)
Fixpoint range_lower_bound (addr : Z) (s : list vma_range) : nat :=
  match s with
  | [] => O
  | r :: rest => if r_start r <? addr then S (range_lower_bound addr rest) else O
  end.

(** [vma_range_set.insert]: a range with the same start keeps its place. *)
Fixpoint range_insert (n : vma_range) (s : list vma_range) : list vma_range :=
  match s with
  | [] => [n]
  | r :: rest =>
      if r_start n <? r_start r then n :: s
      else if r_start n =? r_start r then s
      else r :: range_insert n rest
  end.

(** The loop of [vma_store::reserve] with the iterators [p] and [n] as
    positions: the address it settles on, ENOMEM, or an iterator
    dereferenced at [end()]. *)
Fixpoint reserve_loop (fuel : nat) (limit : Z) (s : list vma_range) (start size : Z)
    (small : bool) (p n : nat) (good_enough : Z) : outcome Z :=
  match fuel with
  | O => NoFuel
  | S f =>
      match s !! n with
      | None => Undefined
      | Some rn =>
          if r_start rn <=? limit then
            match s !! p with
            | None => Undefined
            | Some rp =>
                if (start >=? r_end rp) && (u64 (start + size) <=? r_start rn) then Done start
                else if (r_end rp >=? start) && (u64 (r_start rn - r_end rp) >=? size) then
                  let good_enough := r_end rp in
                  if small then Done good_enough
                  else if u64 (r_start rn - align_up good_enough huge_page_size) >=? size
                  then Done (align_up good_enough huge_page_size)
                  else reserve_loop f limit s start size small n (S n) good_enough
                else reserve_loop f limit s start size small n (S n) good_enough
            end
          else if good_enough =? 0 then Thrown ENOMEM else Done good_enough
      end
  end.

(** [vma_store::reserve(v, start, size)], with [upper_vma_limit] of
    vma_store.hh as [limit]: the address returned and the set with the range
    that [v->set] gave the VMA. *)
Definition reserve (limit : Z) (s : list vma_range) (start size : Z)
    : outcome (Z * list vma_range) :=
  let small := size <? huge_page_size in
  let p := range_lower_bound start s in
  let p := match p with O => O | S p' => p' end in
  res ← reserve_loop (S (length s)) limit s start size small p (S p) 0;
  Done (res, range_insert {| r_start := align_down res page_size;
                             r_end := align_up (u64 (res + size)) page_size |} s).

(** One range of the set lies before another. *)
Definition range_apart (a b : vma_range) : Prop :=
  r_start a < r_start b /\ r_end a <= r_start b.

(** The ranges of the set are in order, disjoint and inside the address
    space. *)
Definition ranges_sorted (s : list vma_range) : Prop :=
  StronglySorted range_apart s /\
  forall r, In r s -> 0 <= r_start r <= r_end r /\ r_end r < 2 ^ 63.

(** The range meets no range of the set. *)
Definition hole (s : list vma_range) (a size : Z) : Prop :=
  forall r, In r s -> r_end r <= a \/ a + size <= r_start r.

(** ** Notions for the loop of evacuate *)

(** The address lies strictly inside the VMA, where a [split] cuts. *)
Definition strictly_inside (edge : Z) (v : vma) : bool :=
  (v_start v <? edge) && (edge <? v_end v).

(** The iterations the loop of [evacuate] needs for the VMAs it has still to
    visit: one for each, and one more for each piece a [split] will add. *)
Definition evacuate_budget (start end_ : Z) (vs : list vma) : nat :=
  fold_right (fun v n => (1 + (if strictly_inside end_ v then 1 else 0)
                            + (if strictly_inside start v then 1 else 0) + n)%nat) O vs.

(** The VMA has no byte in the range. *)
Definition outside (start end_ : Z) (v : vma) : Prop :=
  v_end v <= start \/ end_ <= v_start v.

(** Every VMA of the registry is anonymous memory. *)
Definition all_anonymous (l : list vma) : Prop :=
  forall v, In v l -> variant v = anon_variant.

(** ** Permissions of a byte *)

(** The byte lies in a VMA with these permissions. *)
Definition perm_at (l : list vma) (x p : Z) : Prop :=
  exists v, In v l /\ covers_byte v x /\ _perm v = p.

(** The second registry maps the bytes the first one maps, and outside the
    range with the same permissions. *)
Definition same_outside (start end_ : Z) (l l' : list vma) : Prop :=
  (forall x, mapped_byte l' x <-> mapped_byte l x) /\
  (forall x p, ~ start <= x < end_ -> (perm_at l' x p <-> perm_at l x p)).

(** ** Notions for owner lists *)

(** The tuples of an owner list lie one behind the other from [a] to [b],
    and none is empty. *)
Fixpoint tiles (res : list (Z * Z * Z)) (a b : Z) : Prop :=
  match res with
  | [] => a = b
  | (s0, l0, _) :: r => s0 = a /\ 0 < l0 /\ tiles r (a + l0) b
  end.

(** Every address of every tuple has the owner the tuple names. *)
Definition owners_right (L : layout) (sb : list Z) (res : list (Z * Z * Z)) : Prop :=
  forall s0 l0 o x, In (s0, l0, o) res -> s0 <= x < s0 + l0 -> owner L sb x = Some o.

(** * Theorems *)

(** ** Machine words *)

Lemma u64_small x : 0 <= x < 2 ^ 64 -> u64 x = x.
Proof. intros H. unfold u64. apply Z.mod_small. exact H. Qed.

Lemma u64_wrap x : 2 ^ 64 <= x < 2 * 2 ^ 64 -> u64 x = x - 2 ^ 64.
Proof.
  intros H. unfold u64. symmetry. apply (Z.mod_unique x (2 ^ 64) 1); lia.
Qed.

Lemma u64_range x : 0 <= u64 x < 2 ^ 64.
Proof. unfold u64. apply Z.mod_pos_bound. reflexivity. Qed.

(** ** Superblocks *)

(** On an array that is free throughout, the scan stops at slot [n - 1]. *)
Lemma scan_free_all_free sb n :
  Forall (fun v => v = FREE) sb -> n < 2 ^ 32 ->
  forall todo i k,
    0 <= k < n -> 0 <= i -> i + (n - k) <= Z.of_nat (length sb) ->
    n - k <= Z.of_nat todo ->
    scan_free sb n todo i k = Some (i + n - k - 1).
Proof.
  intros Hfree Hn. induction todo as [|todo IH]; intros i k Hk Hi Hlen Htodo; [lia|].
  cbn [scan_free].
  destruct (lookup_lt_is_Some_2 sb (Z.to_nat i)) as (v & Hv); [lia|].
  rewrite Hv.
  assert (v = FREE) as ->.
  { rewrite Forall_forall in Hfree. apply Hfree. eapply list_elem_of_lookup_2, Hv. }
  replace (negb (FREE =? FREE)) with false by reflexivity.
  assert (Hu : u32 (k + 1) = k + 1) by (unfold u32; apply Z.mod_small; lia).
  rewrite Hu. destruct (k + 1 =? n) eqn:E.
  - apply Z.eqb_eq in E. f_equal. lia.
  - apply Z.eqb_neq in E. rewrite IH by lia. f_equal. lia.
Qed.

(** Left alone with a free array, [allocate_superblocks(n)] claims slot 0 and
    nothing else, whatever [n] is. *)
Lemma allocate_superblocks_all_free fuel cpu_id n sb :
  Forall (fun v => v = FREE) sb ->
  1 <= n <= Z.of_nat (length sb) -> n < 2 ^ 32 ->
  allocate_superblocks (S fuel) cpu_id n [] sb = Ret 0 (<[O := cpu_id]> sb).
Proof.
  intros Hfree Hn H32. cbn [allocate_superblocks].
  rewrite (scan_free_all_free sb n Hfree H32) by lia.
  replace (0 + n - 0 - 1 - n + 1) with 0 by lia.
  replace (u32 0) with 0 by reflexivity.
  replace (0 <=? 0 + n - 0 - 1) with true by (symmetry; apply Z.leb_le; lia).
  cbn [hd apply_stores fold_left Z.to_nat].
  destruct sb as [|v sb]; [cbn in Hn; lia|].
  apply Forall_cons in Hfree as [-> _]. reflexivity.
Qed.


(** C1 (the code departs from it): with four free superblocks and nobody
    else running, [allocate_superblocks(2)] on CPU 0 claims slot 0 only and
    returns 0, leaving slot 1 free; and when CPU 0 owns slot 0 and loses the
    exchange for slot 1 to CPU 3, [release_superblocks] gives up slot 0, which
    was not claimed in this attempt, and runs past the end of the array. *)
Theorem allocate_superblocks_claims_one_slot :
  allocate_superblocks 1 0 2 [] [FREE; FREE; FREE; FREE] = Ret 0 [0; FREE; FREE; FREE] /\
  allocate_superblocks 2 0 1 [[(1%nat, 3)]] [0; FREE; FREE] = OutOfBounds [FREE; 3; FREE].
Proof. split; vm_compute; reflexivity. Qed.

(** ** The free-range map *)

(** From the beginning of the interval: what is left is the rest of it. *)
Lemma allocate_range_head b l size :
  0 <= b -> 0 < size <= l -> b + l < 2 ^ 64 ->
  allocate_range b size [(b, l)] = Some (if l >? size then [(b + size, l - size)] else []).
Proof.
  intros Hb Hs Hl. unfold allocate_range, prev_range. cbn [upper_bound].
  rewrite Z.ltb_irrefl. cbn [lookup list_lookup].
  replace (l <? size) with false by (symmetry; apply Z.ltb_ge; lia).
  rewrite Z.eqb_refl. cbn [map_erase delete list_delete]. f_equal.
  destruct (l >? size) eqn:E; [|reflexivity].
  cbn [map_insert]. rewrite !u64_small by lia. reflexivity.
Qed.

(** From strictly inside the interval: the head is kept and the tail is put
    [addr - b] too high, so the byte right behind the range taken is no
    longer free. *)
Lemma allocate_range_inside b l addr size :
  0 <= b < addr -> 0 < size -> addr + size < b + l -> b + l + (addr - b) < 2 ^ 64 ->
  allocate_range addr size [(b, l)]
    = Some [(b, addr - b); (addr + (addr - b) + size, b + l - addr - size)] /\
  ~ covers [(b, addr - b); (addr + (addr - b) + size, b + l - addr - size)] (addr + size).
Proof.
  intros Hb Hs Hin Hl. split.
  - unfold allocate_range, prev_range. cbn [upper_bound].
    replace (addr <? b) with false by (symmetry; apply Z.ltb_ge; lia).
    cbn [lookup list_lookup].
    replace (l <? size) with false by (symmetry; apply Z.ltb_ge; lia).
    replace (b =? addr) with false by (symmetry; apply Z.eqb_neq; lia).
    cbv zeta. rewrite (u64_small (addr - b)) by lia.
    rewrite (u64_small (l - (addr - b))) by lia.
    replace (l - (addr - b) >? size) with true by (symmetry; apply Z.gtb_lt; lia).
    cbn [map_assign]. rewrite Z.ltb_irrefl, Z.eqb_refl.
    rewrite (u64_small (addr + (addr - b) + size)) by lia.
    rewrite (u64_small (l - (addr - b) - size)) by lia. cbn [map_insert].
    replace (addr + (addr - b) + size <? b) with false by (symmetry; apply Z.ltb_ge; lia).
    replace (addr + (addr - b) + size =? b) with false by (symmetry; apply Z.eqb_neq; lia).
    replace (l - (addr - b) - size) with (b + l - addr - size) by lia. reflexivity.
  - intros (k & len & [[= <- <-]|[[= <- <-]|[]]] & Hc); lia.
Qed.

(** C3 (the code departs from it): taking [0x3000, 0x5000) out of the middle
    of the free interval [0x1000, 0x11000) leaves [0x1000, 0x3000) and
    [0x7000, 0x13000): the free bytes from 0x5000 to 0x7000 are lost and the
    bytes from 0x11000 to 0x13000 become free. *)
Theorem allocate_range_middle_misplaces_tail :
  allocate_range 0x3000 0x2000 [(0x1000, 0x10000)]
    = Some [(0x1000, 0x2000); (0x7000, 0xC000)] /\
  coversb [(0x1000, 0x2000); (0x7000, 0xC000)] 0x5000 = false /\
  coversb [(0x1000, 0x2000); (0x7000, 0xC000)] 0x11000 = true.
Proof. repeat split; vm_compute; reflexivity. Qed.

(** ** Owner lists *)

(** C5 (the code departs from it): a range of one superblock that starts in
    the middle of CPU 0's superblock and ends in the middle of CPU 1's comes
    back as a tuple of a whole superblock for CPU 0 followed by half a
    superblock for CPU 1: the lengths add up to one and a half superblocks,
    and the first tuple runs over addresses CPU 1 owns.  A range that starts
    in a free superblock updates the last element of an empty vector. *)
Theorem generate_owner_list_unaligned_start :
  generate_owner_list sample_layout sample_superblocks 0x200020000000 0x40000000
    = Some [(0x200020000000, 0x40000000, 0); (0x200040000000, 0x20000000, 1)] /\
  owner sample_layout sample_superblocks 0x200040000000 = Some 1 /\
  generate_owner_list sample_layout sample_superblocks 0x200080000000 0x1000 = None.
Proof. repeat split; vm_compute; reflexivity. Qed.

(** ** Faults in file mappings *)

Lemma has_bits_lor_r (flags flag : Z) : flag <> 0 -> has_bits (Z.lor flags flag) flag = true.
Proof.
  intros Hne. unfold has_bits.
  rewrite Z.land_lor_distr_l, Z.land_diag.
  apply negb_true_iff, Z.eqb_neq. intros H0.
  apply Z.lor_eq_0_iff in H0. tauto.
Qed.

Lemma file_vma_flags rstart rend perm flags f offset page_ops v :
  file_vma rstart rend perm flags f offset page_ops = Done v ->
  _flags v = Z.lor flags mmap_small /\ variant v = file_variant f offset (st_ino f) (st_dev f) /\
  _perm v = perm /\ _page_ops v = page_ops /\
  v_start v = align_down rstart page_size /\ v_end v = align_up rend page_size.
Proof.
  unfold file_vma.
  destruct (file_validate_perm _ f perm); try discriminate.
  destruct (stat_error f); try discriminate.
  intros [= <-]. cbn. auto 6.
Qed.

(** C4 (as the claim states it, refuted): a file VMA made with no flag at
    all, over the huge-page aligned range [0x200000, 0x800000) of a 16 MiB
    file, takes a fault at 0x400000, inside its interior and with the file
    reaching past the last huge page; the handler populates 4K, not a huge
    page. *)
Lemma file_fault_populates_4k_not_huge :
  file_vma 0x200000 0x800000 perm_read 0 sample_file 0 (map_file_page_read sample_file 0)
    = Done sample_file_vma /\
  has_bits 0 mmap_small = false /\
  align_up (v_start sample_file_vma) huge_page_size <= 0x400000
    < align_down (v_end sample_file_vma) huge_page_size /\
  file_offset sample_file_vma 0 (align_down (v_end sample_file_vma) huge_page_size)
    < st_size sample_file /\
  fault sample_file_vma 0x400000 access_read = populate_vma true 0x400000 page_size false /\
  ~ populates (fault sample_file_vma 0x400000 access_read) huge_page_size.
Proof.
  repeat split; try (vm_compute; reflexivity); try (vm_compute; congruence).
Qed.

(** C4 (amended): every file VMA carries the small flag, because the
    constructor adds it to the flags it is given; so a fault at an address
    whose file offset lies below the file size populates one 4K page with
    [populate_small], never a huge page, and a fault at or beyond the file
    size raises SIGBUS and populates nothing. *)
Theorem file_fault_always_small rstart rend perm flags f offset page_ops v addr ec :
  file_vma rstart rend perm flags f offset page_ops = Done v ->
  has_flags v mmap_small = true /\
  fault v addr ec =
    if file_offset v offset addr >=? st_size f then deliver_sigbus addr
    else populate_vma true addr page_size (is_page_fault_write ec).
Proof.
  intros Hv. apply file_vma_flags in Hv as (Hfl & Hvar & _).
  assert (Hs : has_flags v mmap_small = true).
  { unfold has_flags. rewrite Hfl. apply has_bits_lor_r. discriminate. }
  split; [exact Hs|].
  unfold fault. rewrite Hvar. unfold file_vma_fault. rewrite Hs. cbn [negb andb].
  reflexivity.
Qed.

Lemma file_fault_always_small_witness :
  has_flags sample_file_vma mmap_small = true /\
  fault sample_file_vma 0x400000 access_write =
    if file_offset sample_file_vma 0 0x400000 >=? st_size sample_file
    then deliver_sigbus 0x400000
    else populate_vma true 0x400000 page_size (is_page_fault_write access_write).
Proof.
  apply (file_fault_always_small 0x200000 0x800000 perm_read 0 sample_file 0
           (map_file_page_read sample_file 0)).
  vm_compute. reflexivity.
Defined.

(** ** Anonymous memory reads as zero *)

Lemma memset_inside m addr c size a :
  addr <= a < addr + size -> memset m addr c size a = c.
Proof.
  intros [Hlo Hhi]. unfold memset.
  apply Z.leb_le in Hlo. apply Z.ltb_lt in Hhi. rewrite Hlo, Hhi. reflexivity.
Qed.

(** C7: an anonymous VMA made without [mmap_uninitialized], as [map_anon]
    makes it, carries the initialized provider; and whenever that provider's
    [map] installs an entry, at the 4K or the huge-page level, the entry
    points at the new page, every byte of the page reads as zero, and the
    [memset] came before the entry was installed. *)
Theorem map_anon_pages_are_zeroed :
  (forall addr size flags perm,
     has_bits flags mmap_uninitialized = false ->
     _page_ops (map_anon_vma addr size flags perm)
       = anonymous_pages initialized_anonymous_page_provider) /\
  (forall N page offset slot pte write m slot' m' log,
     provider_map initialized_anonymous_page_provider N page offset slot pte write m
       = map_returns true slot' m' log ->
     pte_addr slot' = page /\
     (forall a, page <= a < page + level_size N -> m' a = 0) /\
     log = [ev_memset page (level_size N); ev_pte_installed page]).
Proof.
  split.
  - intros addr size flags perm Hf. unfold map_anon_vma, anon_vma. cbn. rewrite Hf. reflexivity.
  - intros N page offset slot pte write m slot' m' log.
    unfold provider_map, fill, set_pte, write_pte.
    destruct (page =? 0) eqn:Hp; [discriminate|].
    destruct (pte_eqb slot make_empty_pte) eqn:He.
    + intros [= <- <- <-]. repeat split.
      intros a Ha. apply memset_inside. exact Ha.
    + intros [=].
Qed.

Lemma map_anon_pages_are_zeroed_witness :
  _page_ops (map_anon_vma 0 0x2000 mmap_populate (Z.lor perm_read perm_write))
    = anonymous_pages initialized_anonymous_page_provider /\
  memset (fun _ => 0xAB) 0x7000 0 page_size 0x7123 = 0.
Proof.
  destruct map_anon_pages_are_zeroed as [Hops Hmap]. split.
  - apply Hops. reflexivity.
  - pose (m := fun _ : Z => 0xAB).
    destruct (Hmap O 0x7000 0 make_empty_pte sample_pte true m
                (set_addr 0x7000 sample_pte) (memset m 0x7000 0 page_size)
                [ev_memset 0x7000 page_size; ev_pte_installed 0x7000] eq_refl)
      as (_ & Hz & _).
    apply (Hz 0x7123). unfold level_size, page_size. lia.
Defined.

(** ** Unmapped pages are freed after the flush *)

Section Gather.

Implicit Types (tr : list tlb_event) (g : tlb_gather) (u : unpopulate).

Lemma freed_page_free_event p : freed_page (free_event p) = Some p.
Proof.
  destruct p as [a s]. unfold free_event. cbn.
  destruct (s =? page_size) eqn:E; cbn; [|reflexivity].
  apply Z.eqb_eq in E. subst. reflexivity.
Qed.

Lemma freed_pages_free_events ps : freed_pages (map free_event ps) = ps.
Proof.
  induction ps as [|p ps IH]; [reflexivity|].
  unfold freed_pages in *. cbn. rewrite freed_page_free_event. cbn. now rewrite IH.
Qed.

Lemma batched_pages_free_events ps : batched_pages (map free_event ps) = [].
Proof.
  induction ps as [|[a s] ps IH]; [reflexivity|].
  unfold batched_pages in *. cbn. unfold free_event at 1. cbn.
  destruct (s =? page_size); cbn; exact IH.
Qed.

(** Events that free nothing can be appended. *)
Lemma flush_precedes_free_app tr ext :
  flush_precedes_free tr ->
  (forall e, In e ext -> freed_page e = None) ->
  flush_precedes_free (tr ++ ext).
Proof.
  intros Htr Hext i e p Hi Hp.
  apply lookup_app_Some in Hi as [Hi | [_ Hi]].
  - destruct (Htr i e p Hi Hp) as (j & k & Hlt & Hj & Hk).
    exists j, k. repeat split; try lia; now apply lookup_app_l_Some.
  - apply list_elem_of_lookup_2, list_elem_of_In, Hext in Hi. congruence.
Qed.

(** A flush followed by the freeing of pages that were all unmapped before. *)
Lemma flush_precedes_free_flush tr ps :
  flush_precedes_free tr ->
  (forall p, In p ps -> exists k, tr !! k = Some (ev_unmap (fst p) (snd p) true)) ->
  flush_precedes_free (tr ++ ev_flush_tlb_all :: map free_event ps).
Proof.
  intros Htr Hps i e p Hi Hp.
  apply lookup_app_Some in Hi as [Hi | [Hle Hi]].
  - destruct (Htr i e p Hi Hp) as (j & k & Hlt & Hj & Hk).
    exists j, k. repeat split; try lia; now apply lookup_app_l_Some.
  - destruct (i - length tr)%nat as [|n] eqn:En; cbn in Hi.
    + injection Hi as <-. discriminate.
    + change (map free_event ps) with (free_event <$> ps) in Hi.
      apply list_lookup_fmap_Some in Hi as (q & -> & Hq).
      rewrite freed_page_free_event in Hp. injection Hp as ->.
      apply list_elem_of_lookup_2, list_elem_of_In, Hps in Hq as (k & Hk).
      exists (length tr), k. repeat split.
      * apply lookup_lt_Some in Hk. lia.
      * lia.
      * rewrite lookup_app_r by lia. now rewrite Nat.sub_diag.
      * now apply lookup_app_l_Some.
Qed.

Lemma freed_pages_app tr1 tr2 : freed_pages (tr1 ++ tr2) = freed_pages tr1 ++ freed_pages tr2.
Proof. apply omap_app. Qed.

Lemma batched_pages_app tr1 tr2 :
  batched_pages (tr1 ++ tr2) = batched_pages tr1 ++ batched_pages tr2.
Proof. apply omap_app. Qed.

(** The invariant survives events that neither free nor batch a page. *)
Lemma gather_inv_app g tr ext :
  gather_inv g tr ->
  (forall e, In e ext -> freed_page e = None) ->
  batched_pages ext = [] ->
  gather_inv g (tr ++ ext).
Proof.
  intros (Hord & Hpend & Hall) Hfree Hbatch. repeat split.
  - now apply flush_precedes_free_app.
  - intros p Hp. destruct (Hpend p Hp) as (k & Hk). exists k. now apply lookup_app_l_Some.
  - rewrite freed_pages_app, batched_pages_app, Hbatch, app_nil_r, <- Hall.
    assert (Hnil : freed_pages ext = []).
    { clear -Hfree. induction ext as [|e ext IH]; [reflexivity|].
      unfold freed_pages in *. cbn. rewrite (Hfree e) by now left.
      apply IH. intros e' He'. apply Hfree. now right. }
    now rewrite Hnil, app_nil_r.
Qed.

Lemma gather_flush_inv g tr :
  gather_inv g tr ->
  gather_inv (snd (fst (gather_flush g tr))) (snd (gather_flush g tr)) /\
  pages (snd (fst (gather_flush g tr))) = [].
Proof.
  intros Hinv. unfold gather_flush, nr_pages.
  destruct (pages g) as [|p ps] eqn:Hg; cbn [length fst snd pages].
  - split; [exact Hinv | exact Hg].
  - split; [|reflexivity]. destruct Hinv as (Hord & Hpend & Hall). rewrite Hg in *.
    repeat split.
    + now apply flush_precedes_free_flush.
    + intros q [].
    + cbn [pages]. rewrite freed_pages_app, batched_pages_app, app_nil_r.
      change (ev_flush_tlb_all :: map free_event (p :: ps))
        with ([ev_flush_tlb_all] ++ map free_event (p :: ps)).
      rewrite freed_pages_app, batched_pages_app.
      rewrite freed_pages_free_events, batched_pages_free_events.
      cbn. rewrite app_nil_r. exact Hall.
Qed.

(** Handing one more unmapped page to the batch. *)
Lemma gather_push_inv g tr addr size :
  gather_inv g tr ->
  gather_inv (snd (fst (gather_push g addr size (tr ++ [ev_unmap addr size true]))))
             (snd (gather_push g addr size (tr ++ [ev_unmap addr size true]))).
Proof.
  intros Hinv. unfold gather_push.
  set (tr1 := tr ++ [ev_unmap addr size true]).
  assert (Hlast : tr1 !! length tr = Some (ev_unmap addr size true)).
  { unfold tr1. rewrite lookup_app_r by lia. now rewrite Nat.sub_diag. }
  assert (H1 : flush_precedes_free tr1 /\
               (forall p, In p (pages g) ->
                  exists k, tr1 !! k = Some (ev_unmap (fst p) (snd p) true)) /\
               freed_pages tr1 ++ pages g ++ [(addr, size)] = batched_pages tr1).
  { destruct Hinv as (Hord & Hpend & Hall). repeat split.
    - apply flush_precedes_free_app; [assumption|]. intros e [<-|[]]. reflexivity.
    - intros p Hp. destruct (Hpend p Hp) as (k & Hk). exists k. now apply lookup_app_l_Some.
    - unfold tr1. rewrite freed_pages_app, batched_pages_app, <- Hall. cbn.
      now rewrite app_nil_r, app_assoc. }
  destruct H1 as (Hord1 & Hpend1 & Hall1).
  destruct (Nat.eqb (nr_pages g) max_pages).
  - unfold gather_flush, nr_pages.
    destruct (pages g) as [|p ps] eqn:Hg; cbn [length fst snd]; unfold gather_inv; cbn [pages].
    + rewrite Hg. repeat split; [assumption| |exact Hall1].
      intros q [<-|[]]. now exists (length tr).
    + repeat split.
      * now apply flush_precedes_free_flush.
      * intros q [<-|[]]. exists (length tr).
        apply lookup_app_l_Some. exact Hlast.
      * rewrite freed_pages_app, batched_pages_app.
        change (ev_flush_tlb_all :: map free_event (p :: ps))
          with ([ev_flush_tlb_all] ++ map free_event (p :: ps)).
        rewrite freed_pages_app, batched_pages_app.
        rewrite freed_pages_free_events, batched_pages_free_events.
        cbn [freed_pages batched_pages omap freed_page batched_page app].
        rewrite app_nil_r, <- Hall1. now rewrite <- app_assoc.
  - cbn [fst snd]. unfold gather_inv. cbn [pages].
    repeat split; [assumption| |now rewrite Hall1].
    intros q Hq. apply in_app_or in Hq as [Hq|[<-|[]]]; [now apply Hpend1|].
    now exists (length tr).
Qed.

Lemma unpopulate_step_inv account st w :
  gather_inv (_tlb_gather (fst st)) (snd st) ->
  gather_inv (_tlb_gather (fst (unpopulate_step account st w)))
             (snd (unpopulate_step account st w)).
Proof.
  destruct st as [u tr]. cbn [fst snd]. intros Hinv.
  destruct w as [N addr unmapped | pt]; cbn [unpopulate_step fst snd].
  - unfold unpopulate_page. destruct unmapped.
    + pose proof (gather_push_inv _ _ addr (level_size N) Hinv) as Hpush.
      destruct (gather_push (_tlb_gather u) addr (level_size N)
                  (tr ++ [ev_unmap addr (level_size N) true])) as [[flushed g'] tr'].
      exact Hpush.
    + cbn [fst snd _tlb_gather]. apply gather_inv_app; [assumption| |reflexivity].
      intros e [<-|[]]. reflexivity.
  - unfold unpopulate_intermediate_page_post. cbn [fst snd].
    apply gather_inv_app; [assumption| |reflexivity].
    intros e [<-|[]]. reflexivity.
Qed.

Lemma unpopulate_walk_inv account walk st :
  gather_inv (_tlb_gather (fst st)) (snd st) ->
  gather_inv (_tlb_gather (fst (fold_left (unpopulate_step account) walk st)))
             (snd (fold_left (unpopulate_step account) walk st)).
Proof.
  revert st. induction walk as [|w walk IH]; intros st Hinv; [exact Hinv|].
  cbn [fold_left]. apply IH. now apply unpopulate_step_inv.
Qed.

End Gather.

(** C9: whatever the walker visits, in the trace of
    [operate_range(unpopulate)] every freed page was unmapped earlier with a
    [flush_tlb_all] in between, the pages freed are exactly the pages the
    provider handed over for freeing, in the same order, and no page is left
    in the batch when the call returns. *)
Theorem unpopulate_frees_after_flush (account : bool) (walk : list walk_step) :
  let '(_, u, tr) := operate_range_unpopulate account walk in
  flush_precedes_free tr /\
  freed_pages tr = batched_pages tr /\
  pages (_tlb_gather u) = [].
Proof.
  unfold operate_range_unpopulate.
  pose proof (unpopulate_walk_inv account walk (unpopulate_new, [])) as Hwalk.
  destruct (fold_left (unpopulate_step account) walk (unpopulate_new, [])) as [u tr].
  cbn [fst snd] in Hwalk.
  assert (Hinit : gather_inv (_tlb_gather unpopulate_new) []).
  { repeat split.
    - intros i e p Hi. rewrite lookup_nil in Hi. discriminate.
    - intros p []. }
  specialize (Hwalk Hinit).
  unfold unpopulate_tlb_flush_needed.
  pose proof (gather_flush_inv _ _ Hwalk) as [Hfl Hempty].
  destruct (gather_flush (_tlb_gather u) tr) as [[flushed g] tr1].
  cbn [fst snd] in *.
  destruct (negb flushed && do_flush u).
  - cbn [_tlb_gather]. split; [|split; [|exact Hempty]].
    + apply flush_precedes_free_app; [apply Hfl|]. intros e [<-|[]]. reflexivity.
    + destruct Hfl as (_ & _ & Hall). rewrite Hempty, app_nil_r in Hall.
      rewrite freed_pages_app, batched_pages_app. cbn. now rewrite !app_nil_r.
  - cbn [_tlb_gather]. split; [apply Hfl|split; [|exact Hempty]].
    destruct Hfl as (_ & _ & Hall). now rewrite Hempty, app_nil_r in Hall.
Qed.

(** ** The mapped-range check *)

Lemma ismapped_loop_sound vs start end_ x :
  ismapped_loop vs start end_ = true -> start <= x < end_ ->
  exists v, In v vs /\ v_start v <= x < v_end v.
Proof.
  revert start. induction vs as [|p r IH]; intros start Hl Hx; [discriminate|].
  cbn in Hl.
  destruct (v_start p >? start) eqn:Hs; [discriminate|].
  destruct (v_end p >=? end_) eqn:He.
  - exists p. split; [now left|]. lia.
  - destruct (Z_lt_le_dec x (v_end p)).
    + exists p. split; [now left|]. lia.
    + destruct (IH (v_end p) Hl) as (v & Hv & Hc); [lia|].
      exists v. split; [now right|exact Hc].
Qed.

Lemma In_take {A} n (l : list A) v : In v (take n l) -> In v l.
Proof.
  revert l. induction n as [|n IH]; intros [|a l]; cbn; try tauto.
  intros [->|H]; [now left|right; now apply IH].
Qed.

Lemma In_drop {A} n (l : list A) v : In v (drop n l) -> In v l.
Proof.
  revert l. induction n as [|n IH]; intros [|a l]; cbn; try tauto.
  intros H. right. now apply IH.
Qed.

Lemma In_slice l first second v : In v (slice l first second) -> In v l.
Proof. unfold slice. intros H. eapply In_drop, In_take, H. Qed.

(** The position [lower_bound] returns holds a VMA as soon as some VMA
    starts at or after the address. *)
Lemma lower_bound_lookup addr l :
  (exists v, In v l /\ addr <= v_start v) ->
  exists w, l !! lower_bound addr l = Some w /\ addr <= v_start w.
Proof.
  induction l as [|a l IH]; intros (v & Hv & Hge); [destruct Hv|].
  cbn. destruct (v_start a <? addr) eqn:Ha.
  - cbn. apply IH. destruct Hv as [<-|Hv]; [lia|]. now exists v.
  - exists a. split; [reflexivity|lia].
Qed.

Lemma lower_bound_head addr v0 r :
  v_start v0 < addr -> exists n, lower_bound addr (v0 :: r) = S n.
Proof. intros H. cbn. apply Z.ltb_lt in H. rewrite H. eauto. Qed.

Lemma lower_bound_length addr l : (lower_bound addr l <= length l)%nat.
Proof. induction l as [|a l IH]; cbn; [lia|]. destruct (v_start a <? addr); cbn; lia. Qed.

(** With the two markers in place the search for the intersecting VMAs is
    defined for every range that starts inside the window. *)
Lemma find_intersecting_vmas_defined l rstart rend :
  has_markers l -> 0 <= rstart <= upper_vma_limit ->
  exists first second, find_intersecting_vmas l rstart rend = Done (first, second).
Proof.
  intros [(v0 & r & -> & H0) (vn & Hn & Hu)] Hr.
  unfold find_intersecting_vmas.
  destruct (rend <=? rstart); [eauto|].
  destruct (lower_bound_lookup rstart (v0 :: r)) as (w & Hw & Hge).
  { exists vn. split; [assumption|lia]. }
  cbv zeta. rewrite Hw.
  assert (Hsome : forall s, (s <= lower_bound rstart (v0 :: r))%nat ->
                   exists sv, (v0 :: r) !! s = Some sv).
  { intros s Hle. apply lookup_lt_is_Some_2. apply lookup_lt_Some in Hw. lia. }
  assert (Hfin : forall s, (s <= lower_bound rstart (v0 :: r))%nat ->
            exists first second,
              match (v0 :: r) !! s with
              | Some sv =>
                  if v_start sv >=? rend then Done (length (v0 :: r), length (v0 :: r))
                  else Done (s, lower_bound rend (v0 :: r))
              | None => Undefined
              end = Done (first, second)).
  { intros s Hle. destruct (Hsome s Hle) as (sv & ->).
    destruct (v_start sv >=? rend); eauto. }
  destruct (v_start w >? rstart) eqn:Hgt.
  - destruct (lower_bound rstart (v0 :: r)) as [|prev] eqn:Hlb.
    + cbn in Hw. injection Hw as <-. unfold lower_vma_limit in H0. lia.
    + destruct (Hsome prev) as (pv & Hpv); [lia|]. rewrite Hpv.
      destruct (v_end pv >? rstart); cbn [mbind outcome_bind]; apply Hfin; lia.
  - cbn [mbind outcome_bind]. apply Hfin. lia.
Qed.

Lemma ismapped_defined l addr size :
  has_markers l -> 0 <= addr <= upper_vma_limit ->
  exists b, ismapped l addr size = Done b.
Proof.
  intros Hm Ha. unfold ismapped.
  destruct (find_intersecting_vmas_defined l addr (u64 (addr + size)) Hm Ha)
    as (first & second & ->).
  cbn. eauto.
Qed.

(** A range the check accepts has every byte inside a VMA. *)
Lemma ismapped_sound l addr size x :
  0 <= addr < 2 ^ 64 -> 0 <= size < 2 ^ 64 ->
  ismapped l addr size = Done true -> addr <= x < addr + size -> mapped_byte l x.
Proof.
  intros Ha Hs. unfold ismapped.
  destruct (find_intersecting_vmas l addr (u64 (addr + size))) as [[first second]| | | |] eqn:Hf;
    cbn; try discriminate.
  intros [= Hloop] Hx.
  assert (Hend : addr < u64 (addr + size) -> u64 (addr + size) = addr + size).
  { intros Hlt. destruct (Z_lt_le_dec (addr + size) (2 ^ 64)).
    - apply u64_small. lia.
    - rewrite u64_wrap in Hlt by lia. lia. }
  destruct (Z_lt_le_dec addr (u64 (addr + size))) as [Hlt|Hle].
  - destruct (ismapped_loop_sound _ _ _ x Hloop) as (v & Hv & Hc).
    { rewrite Hend by assumption. exact Hx. }
    exists v. split; [eapply In_slice, Hv|exact Hc].
  - exfalso. unfold find_intersecting_vmas in Hf.
    apply Z.leb_le in Hle. rewrite Hle in Hf. injection Hf as <- <-.
    unfold slice in Hloop. rewrite Nat.sub_diag in Hloop. discriminate.
Qed.

(** A range with a byte outside every VMA is not mapped. *)
Lemma gap_is_not_mapped l addr size x :
  has_markers l -> 0 <= addr <= upper_vma_limit -> 0 <= size < 2 ^ 64 ->
  addr <= x < addr + size -> ~ mapped_byte l x ->
  ismapped l addr size = Done false.
Proof.
  intros Hm Ha Hs Hx Hgap.
  destruct (ismapped_defined l addr size Hm Ha) as ([|] & Hb); [|exact Hb].
  exfalso. apply Hgap. apply (ismapped_sound l addr size x); try assumption.
  unfold upper_vma_limit in Ha. lia.
Qed.

Lemma align_up_page_range len : 0 <= align_up len page_size < 2 ^ 64.
Proof.
  unfold align_up, align_down, page_size.
  pose proof (u64_range (len + 4096 - 1)) as Hu.
  Z.to_euclidean_division_equations. lia.
Qed.

Lemma align_up_page_le len : 0 <= len -> align_up len page_size <= len + 4095.
Proof.
  intros Hlen. unfold align_up, align_down, page_size.
  assert (Hu : u64 (len + 4096 - 1) <= len + 4095).
  { unfold u64. pose proof (Z.mod_le (len + 4096 - 1) (2 ^ 64)). lia. }
  pose proof (u64_range (len + 4096 - 1)) as Hr.
  Z.to_euclidean_division_equations. lia.
Qed.

Lemma align_up_page_aligned len : page_aligned (align_up len page_size).
Proof. unfold page_aligned, align_up, align_down. apply Z.mod_mul. discriminate. Qed.

(** With every VMA made of whole pages, a gap in the range whose length was
    rounded up to pages shows already in the range as given, when the range
    starts on a page. *)
Lemma gap_in_aligned_range l addr len x :
  (forall v, In v l -> page_aligned (v_start v) /\ page_aligned (v_end v)) ->
  page_aligned addr -> 0 <= len ->
  addr <= x < addr + align_up len page_size -> ~ mapped_byte l x ->
  exists y, addr <= y < addr + len /\ ~ mapped_byte l y.
Proof.
  intros Hal Haddr Hlen Hx Hgap.
  exists (align_down x page_size). split.
  - pose proof (align_up_page_le len Hlen) as Hle.
    pose proof (align_up_page_aligned len) as Hup.
    unfold page_aligned, align_down, page_size in *.
    Z.to_euclidean_division_equations. lia.
  - intros (v & Hv & Hc). apply Hgap. exists v. split; [exact Hv|].
    destruct (Hal v Hv) as [Hs He].
    unfold page_aligned, align_down, page_size in *.
    Z.to_euclidean_division_equations. lia.
Qed.

(** ** The calls under their lock *)

Lemma vma_lock_owner L sb addr o :
  superblock_manager.vma_lock L sb addr = Done o ->
  owner L sb addr = Some o /\ (o <? workers_size) = true.
Proof.
  unfold superblock_manager.vma_lock.
  destruct (owner L sb addr) as [o'|]; [|discriminate].
  destruct (o' <? workers_size) eqn:E; [|discriminate].
  intros [= <-]. auto.
Qed.

Lemma vma_lock_worker L sb addr o :
  superblock_manager.vma_lock L sb addr = Done o ->
  superblock_manager.worker L sb addr = Done o.
Proof.
  intros H. apply vma_lock_owner in H as [Ho Hlt].
  unfold superblock_manager.worker. now rewrite Ho, Hlt.
Qed.

(** With the lock of the owner taken, the searches of the superblock manager
    are the searches in the owner's registry. *)
Lemma locked_find_intersecting_vma L sb l addr o :
  superblock_manager.vma_lock L sb addr = Done o ->
  superblock_manager.find_intersecting_vma L sb l addr = find_intersecting_vma l addr.
Proof.
  intros H. unfold superblock_manager.find_intersecting_vma.
  now rewrite (vma_lock_worker L sb addr o H).
Qed.

Lemma locked_find_intersecting_vmas L sb l rstart rend o :
  superblock_manager.vma_lock L sb rstart = Done o ->
  owner L sb (u64 (rend - 1)) = Some o ->
  superblock_manager.find_intersecting_vmas L sb l rstart rend
    = find_intersecting_vmas l rstart rend.
Proof.
  intros H Hend. unfold superblock_manager.find_intersecting_vmas.
  rewrite (vma_lock_worker L sb rstart o H).
  apply vma_lock_owner in H as [Ho _]. now rewrite Ho, Hend, Z.eqb_refl.
Qed.

(** A search that returns has found what the search in the registry
    finds. *)
Lemma find_intersecting_vmas_passed L sb l rstart rend r :
  superblock_manager.find_intersecting_vmas L sb l rstart rend = Done r ->
  find_intersecting_vmas l rstart rend = Done r.
Proof.
  unfold superblock_manager.find_intersecting_vmas.
  destruct (owner L sb rstart) as [o|]; [|discriminate].
  destruct (owner L sb (u64 (rend - 1))) as [o'|]; [|discriminate].
  destruct (o =? o'); [|discriminate].
  destruct (superblock_manager.worker L sb rstart); try discriminate.
  intros H. exact H.
Qed.

Lemma locked_ismapped L sb l addr size o :
  superblock_manager.vma_lock L sb addr = Done o ->
  owner L sb (u64 (u64 (addr + size) - 1)) = Some o ->
  mmu.ismapped L sb l addr size = ismapped l addr size.
Proof.
  intros H Hend. unfold mmu.ismapped, ismapped. cbv zeta.
  now rewrite (locked_find_intersecting_vmas L sb l addr _ o H Hend).
Qed.

Lemma ismapped_passed L sb l addr size b :
  mmu.ismapped L sb l addr size = Done b -> ismapped l addr size = Done b.
Proof.
  unfold mmu.ismapped, ismapped. cbv zeta.
  destruct (superblock_manager.find_intersecting_vmas L sb l addr (u64 (addr + size)))
    as [r| | | |] eqn:Hf; try discriminate.
  now rewrite (find_intersecting_vmas_passed _ _ _ _ _ _ Hf).
Qed.

(** C6: when a byte of the requested range lies in no VMA, the range
    starting inside the window of the registry, at an address whose owner is
    one of the workers, and the last byte of the range a call checks having
    the same owner: [munmap] (which checks the range with its length rounded
    up to pages) returns EINVAL, and [msync] and [madvise] (which check the
    range as given) return ENOMEM, each of them leaving the registry, the free
    ranges and the page tables as they were; for a range that starts on a
    page boundary, over VMAs made of whole pages, a gap in the rounded-up
    range is refused by [msync] and [madvise] just the same. *)
Theorem gap_is_refused_under_lock L sb this st addr length x o :
  has_markers (vma_list st) ->
  0 <= addr <= upper_vma_limit -> 0 <= length < 2 ^ 64 ->
  ~ mapped_byte (vma_list st) x ->
  superblock_manager.vma_lock L sb addr = Done o ->
  (addr <= x < addr + align_up length page_size ->
   owner L sb (u64 (u64 (addr + align_up length page_size) - 1)) = Some o ->
   mmu.munmap L sb st addr length = Done (EINVAL, st)) /\
  (addr <= x < addr + length ->
   owner L sb (u64 (u64 (addr + length) - 1)) = Some o ->
   mmu.msync L sb st addr length = Done (ENOMEM, st) /\
   forall adv, mmu.advise L sb this st addr length adv = Done (ENOMEM, st)) /\
  (addr <= x < addr + align_up length page_size ->
   page_aligned addr ->
   (forall v, In v (vma_list st) -> page_aligned (v_start v) /\ page_aligned (v_end v)) ->
   owner L sb (u64 (u64 (addr + length) - 1)) = Some o ->
   mmu.msync L sb st addr length = Done (ENOMEM, st) /\
   forall adv, mmu.advise L sb this st addr length adv = Done (ENOMEM, st)).
Proof.
  intros Hm Ha Hlen Hgap Hlock.
  assert (Hraw : forall y, addr <= y < addr + length -> ~ mapped_byte (vma_list st) y ->
            owner L sb (u64 (u64 (addr + length) - 1)) = Some o ->
            mmu.msync L sb st addr length = Done (ENOMEM, st) /\
            forall adv, mmu.advise L sb this st addr length adv = Done (ENOMEM, st)).
  { intros y Hy Hgy Hend.
    pose proof (gap_is_not_mapped _ _ _ _ Hm Ha Hlen Hy Hgy) as Hno.
    unfold mmu.msync, mmu.advise. rewrite Hlock. cbn [mbind outcome_bind].
    rewrite (locked_ismapped L sb _ addr length o Hlock Hend), Hno.
    split; [reflexivity|]. intros adv. reflexivity. }
  split; [|split].
  - intros Hx Hend. unfold mmu.munmap. rewrite Hlock. cbn [mbind outcome_bind]. cbv zeta.
    rewrite (locked_ismapped L sb _ addr _ o Hlock Hend).
    rewrite (gap_is_not_mapped _ _ _ x Hm Ha (align_up_page_range length) Hx Hgap).
    reflexivity.
  - intros Hx Hend. now apply (Hraw x).
  - intros Hx Haddr Hal Hend.
    destruct (gap_in_aligned_range _ _ _ _ Hal Haddr (proj1 Hlen) Hx Hgap) as (y & Hy & Hgy).
    now apply (Hraw y).
Qed.

Lemma sample_gap : ~ mapped_byte (vma_list sample_mm) 0x4000.
Proof.
  intros (v & Hv & Hc). cbn in Hv.
  destruct Hv as [<-|[<-|[<-|[]]]]; vm_compute in Hc; destruct Hc as [H1 H2];
    try (apply H1; reflexivity); discriminate.
Qed.

Lemma gap_is_refused_under_lock_witness :
  mmu.munmap sample_layout sample_superblocks sample_mm 0x3000 0x1001
    = Done (EINVAL, sample_mm) /\
  mmu.msync sample_layout sample_superblocks sample_mm 0x3000 0x1001
    = Done (ENOMEM, sample_mm) /\
  mmu.advise sample_layout sample_superblocks (fun _ => 0x400000100000) sample_mm
    0x3000 0x1001 advise_dontneed = Done (ENOMEM, sample_mm).
Proof.
  assert (Hm : has_markers (vma_list sample_mm)).
  { split.
    - eexists _, _. split; reflexivity.
    - eexists. split; [right; right; left; reflexivity|reflexivity]. }
  destruct (gap_is_refused_under_lock sample_layout sample_superblocks
              (fun _ => 0x400000100000) sample_mm 0x3000 0x1001 0x4000 64 Hm)
    as (Hmun & Hraw & _).
  - vm_compute. split; discriminate.
  - vm_compute. split; [discriminate|reflexivity].
  - exact sample_gap.
  - reflexivity.
  - split; [apply Hmun; [vm_compute; split; [discriminate|reflexivity]|reflexivity]|].
    destruct Hraw as [Hms Had];
      [vm_compute; split; [discriminate|reflexivity]|reflexivity|].
    split; [exact Hms|apply Had].
Defined.

(** C6 (as the claim states it, refuted): the claim fails where the code
    rounds only after its check, where an assertion stops the call, and
    where the search leaves the registry.  [msync(0x3fff, 1)] over a VMA [0x1000, 0x4000):
    the range with its length rounded up to a page holds the unmapped byte
    0x4000, yet [msync] checks [0x3fff, 0x4000) and returns success.
    [munmap] at an unmapped address of a superblock that has no owner is
    stopped by the assertion of [vma_lock], over an unmapped range that ends
    in the superblock of another owner by the assertion of
    [find_intersecting_vmas], and at an unmapped address above
    [upper_vma_limit] the search dereferences [end()]. *)
Lemma gap_after_rounding_is_accepted :
  (~ mapped_byte (vma_list sample_mm) 0x4000 /\
   0x3fff <= 0x4000 < 0x3fff + align_up 1 page_size /\
   mmu.msync sample_layout sample_superblocks sample_mm 0x3fff 1
     = Done (no_error, sample_mm)) /\
  (~ mapped_byte (vma_list sample_mm) 0x200080000000 /\
   mmu.munmap sample_layout sample_superblocks sample_mm 0x200080000000 0x1000 = Aborted /\
   mmu.msync sample_layout sample_superblocks sample_mm 0x200080000000 0x1000 = Aborted) /\
  (~ mapped_byte (vma_list sample_mm) 0x1ffffffff000 /\
   mmu.munmap sample_layout sample_superblocks sample_mm 0x1ffffffff000 0x2000 = Aborted) /\
  (~ mapped_byte (vma_list sample_mm) 0x400000001000 /\
   mmu.munmap sample_layout sample_superblocks sample_mm 0x400000001000 0x1000 = Undefined).
Proof.
  assert (Hno : forall x, 0x4000 <= x -> ~ mapped_byte (vma_list sample_mm) x).
  { intros x Hx (v & Hv & Hc).
    assert (Hend : v_end v <= 0x4000 \/ v_start v = v_end v).
    { destruct Hv as [<-|[<-|[<-|[]]]];
        first [right; reflexivity|left; vm_compute; discriminate]. }
    lia. }
  split; [|split; [|split]].
  - split; [exact sample_gap|]. split; [vm_compute; split; [discriminate|reflexivity]|].
    vm_compute. reflexivity.
  - split; [apply Hno; lia|]. split; vm_compute; reflexivity.
  - split; [apply Hno; lia|]. vm_compute. reflexivity.
  - split; [apply Hno; lia|]. vm_compute. reflexivity.
Qed.


(** ** mincore *)

Lemma pages_between_done p end_ : end_ <= p -> pages_between p end_ = O.
Proof.
  intros H. unfold pages_between, page_size.
  assert ((end_ - p + 4096 - 1) / 4096 <= 0).
  { Z.to_euclidean_division_equations. lia. }
  lia.
Qed.

Lemma pages_between_step p end_ :
  p < end_ -> pages_between p end_ = S (pages_between (p + page_size) end_).
Proof.
  intros H. unfold pages_between, page_size.
  rewrite <- Z2Nat.inj_succ.
  - f_equal. Z.to_euclidean_division_equations. lia.
  - Z.to_euclidean_division_equations. lia.
Qed.

Lemma mincore_loop_page_bytes K fuel p end_ :
  (pages_between p end_ <= fuel)%nat ->
  mincore_loop K fuel p end_ = page_bytes K (pages_between p end_) p.
Proof.
  revert p. induction fuel as [|f IH]; intros p Hfuel.
  - replace (pages_between p end_) with O by lia. reflexivity.
  - cbn [mincore_loop]. destruct (p <? end_) eqn:Hp.
    + apply Z.ltb_lt in Hp. rewrite (pages_between_step _ _ Hp) in *.
      cbn [page_bytes]. f_equal. apply IH. lia.
    + apply Z.ltb_ge in Hp. now rewrite pages_between_done.
Qed.

(** C10: [mincore] at an address whose owner is one of the workers, the
    last byte of the range having the same owner, returns ENOMEM and writes
    nothing when the range is not linear-mapped and has a byte outside every
    VMA; and whatever it returns, it writes only after finding the range
    linear-mapped or covered by VMAs throughout, and then one byte for each
    4K page: 1 where [safe_load] succeeds, 0 where it fails. *)
Theorem mincore_under_lock K L sb l addr length :
  0 <= addr < 2 ^ 64 -> 0 <= length < 2 ^ 64 ->
  (forall o, is_linear_mapped K addr length = false ->
   has_markers l -> addr <= upper_vma_limit ->
   superblock_manager.vma_lock L sb addr = Done o ->
   owner L sb (u64 (u64 (addr + length) - 1)) = Some o ->
   (exists x, addr <= x < addr + length /\ ~ mapped_byte l x) ->
   mmu.mincore K L sb l addr length = Done (ENOMEM, [])) /\
  (forall e vec, mmu.mincore K L sb l addr length = Done (e, vec) ->
     (e = ENOMEM /\ vec = [] /\ is_linear_mapped K addr length = false) \/
     (e = no_error /\
      (is_linear_mapped K addr length = true \/
       forall x, addr <= x < addr + length -> mapped_byte l x) /\
      vec = page_bytes K (pages_between addr (align_up (u64 (addr + length)) page_size)) addr)).
Proof.
  intros Ha Hlen. split.
  - intros o Hlin Hm Hup Hlock Hend (x & Hx & Hgap). unfold mmu.mincore. cbv zeta.
    rewrite Hlock, Hlin. cbn [mbind outcome_bind].
    rewrite (locked_ismapped L sb l addr length o Hlock Hend).
    rewrite (gap_is_not_mapped l addr length x); try assumption; [reflexivity|lia].
  - intros e vec. unfold mmu.mincore. cbv zeta.
    set (end_ := align_up (u64 (addr + length)) page_size).
    assert (Hloop : mincore_loop K (Z.to_nat ((end_ - addr) / page_size + 1)) addr end_
                    = page_bytes K (pages_between addr end_) addr).
    { apply mincore_loop_page_bytes. unfold pages_between, page_size.
      assert ((end_ - addr + 4096 - 1) / 4096 <= (end_ - addr) / 4096 + 1).
      { Z.to_euclidean_division_equations. lia. }
      lia. }
    destruct (superblock_manager.vma_lock L sb addr); cbn [mbind outcome_bind];
      try discriminate.
    destruct (is_linear_mapped K addr length) eqn:Hlin.
    + cbn. intros [= <- <-]. right. rewrite Hloop. auto.
    + destruct (mmu.ismapped L sb l addr length) as [[|]| | | |] eqn:Hmap; cbn;
        try discriminate.
      * intros [= <- <-]. right. rewrite Hloop. repeat split. right.
        intros x Hx. apply ismapped_passed in Hmap.
        now apply (ismapped_sound l addr length x).
      * intros [= <- <-]. left. auto.
Qed.

Lemma mincore_under_lock_witness :
  mmu.mincore sample_kernel sample_layout sample_superblocks (vma_list sample_mm)
    0x3000 0x2000 = Done (ENOMEM, []) /\
  mmu.mincore sample_kernel sample_layout sample_superblocks (vma_list sample_mm)
    0x1000 0x3000 = Done (no_error, [1; 1; 0]) /\
  [1; 1; 0] = page_bytes sample_kernel
                (pages_between 0x1000 (align_up (u64 (0x1000 + 0x3000)) page_size)) 0x1000.
Proof.
  assert (Hm : has_markers (vma_list sample_mm)).
  { split.
    - eexists _, _. split; reflexivity.
    - eexists. split; [right; right; left; reflexivity|reflexivity]. }
  assert (Hrun : mmu.mincore sample_kernel sample_layout sample_superblocks
                   (vma_list sample_mm) 0x1000 0x3000
                 = Done (no_error, [1; 1; 0])) by (vm_compute; reflexivity).
  split; [|split; [exact Hrun|]].
  - destruct (mincore_under_lock sample_kernel sample_layout sample_superblocks
                (vma_list sample_mm) 0x3000 0x2000) as [Hgap _].
    + vm_compute. split; [discriminate|reflexivity].
    + vm_compute. split; [discriminate|reflexivity].
    + apply (Hgap 64); [reflexivity|exact Hm|vm_compute; discriminate|reflexivity|reflexivity|].
      exists 0x4000. split; [vm_compute; split; [discriminate|reflexivity]|exact sample_gap].
  - destruct (mincore_under_lock sample_kernel sample_layout sample_superblocks
                (vma_list sample_mm) 0x1000 0x3000) as [_ Hres].
    + vm_compute. split; [discriminate|reflexivity].
    + vm_compute. split; [discriminate|reflexivity].
    + destruct (Hres _ _ Hrun) as [(He & _)|(_ & _ & Hvec)]; [discriminate He|].
      exact Hvec.
Defined.

(** C10 (as the claim states it, refuted): the claim fails at an address
    of a superblock that has no owner: the range is neither linear-mapped nor mapped, and
    the assertion of [vma_lock] stops [mincore] before it returns ENOMEM.
    Over a range that ends in the superblock of another owner the assertion
    of [find_intersecting_vmas] stops it, and above [upper_vma_limit] the
    search dereferences [end()]. *)
Lemma mincore_stops_in_a_free_superblock :
  (is_linear_mapped sample_kernel 0x200080000000 0x1000 = false /\
   ~ mapped_byte (vma_list sample_mm) 0x200080000000 /\
   mmu.mincore sample_kernel sample_layout sample_superblocks (vma_list sample_mm)
     0x200080000000 0x1000 = Aborted) /\
  (is_linear_mapped sample_kernel 0x1ffffffff000 0x2000 = false /\
   ~ mapped_byte (vma_list sample_mm) 0x1ffffffff000 /\
   mmu.mincore sample_kernel sample_layout sample_superblocks (vma_list sample_mm)
     0x1ffffffff000 0x2000 = Aborted) /\
  (is_linear_mapped sample_kernel 0x400000001000 0x1000 = false /\
   ~ mapped_byte (vma_list sample_mm) 0x400000001000 /\
   mmu.mincore sample_kernel sample_layout sample_superblocks (vma_list sample_mm)
     0x400000001000 0x1000 = Undefined).
Proof.
  assert (Hno : forall x, 0x4000 <= x -> ~ mapped_byte (vma_list sample_mm) x).
  { intros x Hx (v & Hv & Hc).
    assert (Hend : v_end v <= 0x4000 \/ v_start v = v_end v).
    { destruct Hv as [<-|[<-|[<-|[]]]];
        first [right; reflexivity|left; vm_compute; discriminate]. }
    lia. }
  split; [|split]; (split; [vm_compute; reflexivity|]); (split; [apply Hno; lia|]);
    vm_compute; reflexivity.
Qed.


(** ** Splitting a VMA *)

Lemma align_down_aligned x : page_aligned x -> align_down x page_size = x.
Proof.
  unfold page_aligned, align_down, page_size. intros H.
  Z.to_euclidean_division_equations. lia.
Qed.

Lemma align_up_aligned x :
  page_aligned x -> 0 <= x <= upper_vma_limit -> align_up x page_size = x.
Proof.
  unfold page_aligned, align_up, align_down, page_size, upper_vma_limit. intros H Hx.
  rewrite u64_small by lia.
  Z.to_euclidean_division_equations. lia.
Qed.

Lemma vma_insert_app n a b :
  (forall x, In x a -> v_start x < v_start n) ->
  vma_insert n (a ++ b) = a ++ vma_insert n b.
Proof.
  induction a as [|x a IH]; intros Ha; [reflexivity|].
  cbn. pose proof (Ha x (or_introl eq_refl)) as Hx.
  destruct (v_start n <? v_start x) eqn:E1; [lia|].
  destruct (v_start n =? v_start x) eqn:E2; [lia|].
  f_equal. apply IH. intros y Hy. apply Ha. now right.
Qed.

Lemma vma_insert_front n b :
  (forall y, In y b -> v_start n < v_start y) -> vma_insert n b = n :: b.
Proof.
  destruct b as [|y b]; intros Hb; [reflexivity|].
  cbn. pose proof (Hb y (or_introl eq_refl)) as Hy.
  apply Z.ltb_lt in Hy. now rewrite Hy.
Qed.

Lemma lower_bound_app addr a b :
  (forall x, In x a -> v_start x < addr) ->
  lower_bound addr (a ++ b) = (length a + lower_bound addr b)%nat.
Proof.
  induction a as [|x a IH]; intros Ha; [reflexivity|].
  cbn. pose proof (Ha x (or_introl eq_refl)) as Hx.
  apply Z.ltb_lt in Hx. rewrite Hx. f_equal. apply IH. intros y Hy. apply Ha. now right.
Qed.

Lemma lower_bound_front addr b :
  (forall y, In y b -> addr <= v_start y) -> lower_bound addr b = O.
Proof.
  destruct b as [|y b]; intros Hb; [reflexivity|].
  cbn. pose proof (Hb y (or_introl eq_refl)) as Hy.
  destruct (v_start y <? addr) eqn:E; [lia|reflexivity].
Qed.

Lemma ordered_before l i v x :
  ordered_disjoint l -> l !! i = Some v -> In x (take i l) -> vma_before x v.
Proof.
  intros Hord Hv Hx. unfold ordered_disjoint in Hord.
  rewrite <- (take_drop_middle l i v Hv) in Hord.
  apply (StronglySorted_app_1_elem_of _ _ _ x v Hord).
  - now apply list_elem_of_In.
  - left.
Qed.

Lemma ordered_after l i v y :
  ordered_disjoint l -> l !! i = Some v -> In y (drop (S i) l) -> vma_before v y.
Proof.
  intros Hord Hv Hy. unfold ordered_disjoint in Hord.
  rewrite <- (take_drop_middle l i v Hv) in Hord.
  apply StronglySorted_app_1_r, StronglySorted_cons in Hord as [Hall _].
  rewrite Forall_forall in Hall. apply Hall. now apply list_elem_of_In.
Qed.

(** Where the new VMA of a split goes in an ordered registry: right behind
    the VMA that was cut. *)
Lemma insert_behind l i v n edge :
  ordered_disjoint l -> l !! i = Some v ->
  v_start v < edge < v_end v -> v_start n = edge ->
  let l1 := <[i := truncated v edge]> l in
  vma_insert n l1 = take i l ++ truncated v edge :: n :: drop (S i) l /\
  inserted_at n l1 = Some (S i).
Proof.
  intros Hord Hv Hedge Hn l1. subst l1.
  assert (Hi : (i < length l)%nat) by (eapply lookup_lt_Some; eauto).
  rewrite insert_take_drop by assumption.
  assert (Hbefore : forall x, In x (take i l ++ [truncated v edge]) -> v_start x < edge).
  { intros x Hx. apply in_app_or in Hx as [Hx|[<-|[]]].
    - destruct (ordered_before l i v x Hord Hv Hx). lia.
    - cbn. lia. }
  assert (Hafter : forall y, In y (drop (S i) l) -> edge < v_start y).
  { intros y Hy. destruct (ordered_after l i v y Hord Hv Hy). lia. }
  change (take i l ++ truncated v edge :: drop (S i) l)
    with (take i l ++ [truncated v edge] ++ drop (S i) l).
  rewrite app_assoc. split.
  - rewrite vma_insert_app by (rewrite Hn; exact Hbefore).
    rewrite vma_insert_front by (rewrite Hn; exact Hafter).
    now rewrite <- app_assoc.
  - unfold inserted_at. rewrite Hn.
    rewrite lower_bound_app by exact Hbefore.
    rewrite lower_bound_front by (intros y Hy; apply Hafter in Hy; lia).
    rewrite length_app, length_take. cbn [length].
    replace (i `min` length l + 1 + 0)%nat with (S i) by lia.
    rewrite lookup_app_r; rewrite length_app, length_take; cbn [length]; [|lia].
    replace (S i - (i `min` length l + 1))%nat with O by lia.
    destruct (drop (S i) l) as [|y r] eqn:Hd; [reflexivity|].
    cbn. pose proof (Hafter y (or_introl eq_refl)).
    destruct (v_start y =? edge) eqn:E; [lia|reflexivity].
Qed.

(** What [file->mmap] returns is a file VMA over the pages of the range, or
    an error. *)
Lemma file_mmap_fields f rstart rend flags perm offset n :
  file_mmap f rstart rend flags perm offset = Done n ->
  _flags n = Z.lor flags mmap_small /\
  variant n = file_variant f offset (st_ino f) (st_dev f) /\ _perm n = perm /\
  v_start n = align_down rstart page_size /\ v_end n = align_up rend page_size.
Proof.
  unfold file_mmap, default_file_mmap, map_file_mmap. intros Hmap.
  destruct (f_mmap f); apply file_vma_flags in Hmap; tauto.
Qed.

Lemma file_mmap_returns f rstart rend flags perm offset :
  (exists n, file_mmap f rstart rend flags perm offset = Done n) \/
  (exists e, file_mmap f rstart rend flags perm offset = Thrown e).
Proof.
  unfold file_mmap, default_file_mmap, map_file_mmap, file_vma.
  destruct (f_mmap f); destruct (file_validate_perm _ f perm); eauto;
    destruct (stat_error f); eauto.
Qed.

(** In an ordered registry of page-aligned VMAs, a split at a page boundary
    inside the VMA leaves the truncated VMA in its place and the new VMA
    right behind it. *)
Lemma split_insert_behind l i v edge n :
  ordered_disjoint l -> l !! i = Some v ->
  page_aligned (v_start v) -> page_aligned edge -> 0 <= v_start v ->
  v_end v <= upper_vma_limit -> v_start v < edge < v_end v -> v_start n = edge ->
  split_insert l i v edge n
    = (take i l ++ truncated v edge :: n :: drop (S i) l, Some (S i)).
Proof.
  intros Hord Hv Hs He H0 Hup Hin Hn. unfold split_insert.
  assert (Hcut : vma_set v (v_start v) edge = truncated v edge).
  { unfold vma_set, truncated.
    rewrite (align_down_aligned _ Hs), (align_up_aligned _ He) by lia. reflexivity. }
  cbv zeta. rewrite Hcut.
  destruct (insert_behind l i v n edge Hord Hv Hin Hn) as [-> ->]. reflexivity.
Qed.

Lemma inside_edge v edge :
  v_start v < edge < v_end v -> (edge <=? v_start v) || (edge >=? v_end v) = false.
Proof.
  intros H. apply orb_false_iff. split; [apply Z.leb_gt; lia|].
  rewrite Z.geb_leb. apply Z.leb_gt. lia.
Qed.

Lemma outside_edge v edge :
  edge <= v_start v \/ v_end v <= edge -> (edge <=? v_start v) || (edge >=? v_end v) = true.
Proof.
  intros H. apply orb_true_iff.
  destruct H; [left; apply Z.leb_le|right; apply Z.geb_le]; lia.
Qed.


Lemma sample_ordered : ordered_disjoint (vma_list sample_mm).
Proof.
  repeat constructor; vm_compute; congruence.
Qed.



(** ** mprotect and access faults *)


(** What the fault path finds for a VMA that [protect] has set to [perm] and a
    populated leaf entry that [protection::page] has rewritten. *)
Lemma access_fault_of_protected v perm pte k :
  0 <= perm < 8 ->
  let v' := vma_protect v perm in
  let pte' := fst (protection_page perm false pte) in
  (access_fault (_perm v') k = true <-> has_bits perm (access_bit k) = false) /\
  (reported_access_fault (_perm v') None k = true <-> has_bits perm (access_bit k) = false) /\
  (reported_access_fault (_perm v') (Some pte') k = true <->
     has_bits perm (access_bit k) = false /\
     (k = access_read -> effective_perm pte perm = 0)) /\
  (effective_perm pte perm <> 0 -> has_bits (pte_perm pte') perm_read = true).
Proof.
  intros Hperm.
  assert (Hcases : perm = 0 \/ perm = 1 \/ perm = 2 \/ perm = 3 \/
                   perm = 4 \/ perm = 5 \/ perm = 6 \/ perm = 7) by lia.
  destruct pte as [va wr ex lg di rs cow pa].
  unfold protection_page, change_perm, effective_perm, reported_access_fault,
    page_fault_raised, access_fault, vma_protect, pte_is_cow.
  cbn [fst _perm pte_cow set_valid set_writable set_executable set_rsvd_bit
       pte_valid pte_writable pte_executable pte_rsvd pte_large pte_dirty pte_addr].
  destruct Hcases as [->|[->|[->|[->|[->|[->|[->| ->]]]]]]];
    destruct cow, k; vm_compute; intuition congruence.
Qed.



(** ** What [protect] does to the registry *)

Section Protect.

Variables (start end_ perm : Z).
Hypothesis start_aligned : page_aligned start.
Hypothesis end_aligned : page_aligned end_.

Lemma truncated_ok v edge :
  vma_ok v -> page_aligned edge -> v_start v < edge < v_end v -> vma_ok (truncated v edge).
Proof. unfold vma_ok. cbn. intuition lia. Qed.

(** A registry stays well formed when one VMA is replaced by VMAs that
    partition its range. *)
Lemma well_formed_cut A v R v1 n :
  well_formed (A ++ v :: R) ->
  v_start v1 = v_start v -> v_end v1 = v_start n -> v_end n = v_end v ->
  v_start v < v_start n < v_end v -> page_aligned (v_start n) ->
  well_formed (A ++ v1 :: n :: R).
Proof.
  intros [Hord Hok] H1s H1e Hne Hin Hal.
  assert (Hv : vma_ok v) by (apply Hok, in_elt).
  unfold ordered_disjoint in *.
  apply StronglySorted_app in Hord as (Hcross & HA & HvR).
  apply StronglySorted_cons in HvR as [HvR HR].
  rewrite Forall_forall in HvR. split.
  - apply StronglySorted_app. split; [|split; [exact HA|]].
    + intros x1 x2 Hx1 Hx2.
      assert (Hxv : vma_before x1 v) by (apply Hcross; [exact Hx1|left]).
      destruct Hxv as [Hxs Hxe].
      apply elem_of_cons in Hx2 as [->|Hx2]; [split; lia|].
      apply elem_of_cons in Hx2 as [->|Hx2]; [split; lia|].
      apply Hcross; [exact Hx1|now right].
    + apply StronglySorted_cons. split.
      * apply Forall_cons. split; [split; lia|].
        apply Forall_forall. intros y Hy. destruct (HvR y Hy). split; lia.
      * apply StronglySorted_cons. split; [|exact HR].
        apply Forall_forall. intros y Hy. destruct (HvR y Hy). split; lia.
  - intros w Hw. apply in_app_or in Hw as [Hw|[<-|[<-|Hw]]].
    + apply Hok, in_or_app. now left.
    + destruct Hv as (? & ? & ? & ? & ?). unfold vma_ok. rewrite H1s, H1e. intuition lia.
    + destruct Hv as (? & ? & ? & ? & ?). unfold vma_ok. rewrite Hne. intuition lia.
    + apply Hok, in_or_app. right. now right.
Qed.

(** The same when a VMA is replaced by one over the same range. *)
Lemma well_formed_same_range A v R v' :
  well_formed (A ++ v :: R) ->
  v_start v' = v_start v -> v_end v' = v_end v ->
  well_formed (A ++ v' :: R).
Proof.
  intros [Hord Hok] Hs He.
  assert (Hv : vma_ok v) by (apply Hok, in_elt).
  unfold ordered_disjoint in *.
  apply StronglySorted_app in Hord as (Hcross & HA & HvR).
  apply StronglySorted_cons in HvR as [HvR HR].
  rewrite Forall_forall in HvR. split.
  - apply StronglySorted_app. split; [|split; [exact HA|]].
    + intros x1 x2 Hx1 Hx2.
      apply elem_of_cons in Hx2 as [->|Hx2].
      * destruct (Hcross x1 v Hx1) as [? ?]; [left|]. split; lia.
      * apply Hcross; [exact Hx1|now right].
    + apply StronglySorted_cons. split; [|exact HR].
      apply Forall_forall. intros y Hy. destruct (HvR y Hy). split; lia.
  - intros w Hw. apply in_app_or in Hw as [Hw|[<-|Hw]].
    + apply Hok, in_or_app. now left.
    + unfold vma_ok in *. rewrite Hs, He. exact Hv.
    + apply Hok, in_or_app. right. now right.
Qed.

(** One call of [split] in the loop, on the VMA at the position where the
    registry is cut into the part behind and the part ahead. *)
Lemma split_in_place A v R edge l1 p1 :
  well_formed (A ++ v :: R) -> page_aligned edge ->
  split (A ++ v :: R) (length A) edge = Done (l1, p1) ->
  exists v1 N,
    l1 = A ++ v1 :: N ++ R /\ well_formed l1 /\
    (forall s, (length A < s)%nat -> after_insert p1 s = (s + length N)%nat) /\
    ((~ v_start v < edge < v_end v /\ v1 = v /\ N = []) \/
     (v_start v < edge < v_end v /\ v1 = truncated v edge /\
      exists n, N = [n] /\ v_start n = edge /\ v_end n = v_end v)).
Proof.
  intros Hwf Hedge Hsplit.
  assert (Hv : (A ++ v :: R) !! length A = Some v) by apply list_lookup_middle, eq_refl.
  assert (Hok : vma_ok v) by (apply Hwf, in_elt).
  assert (Htake : take (length A) (A ++ v :: R) = A) by apply take_app_length.
  assert (Hdrop : drop (S (length A)) (A ++ v :: R) = R).
  { rewrite (cons_middle v A R), app_assoc. apply drop_app_length'.
    rewrite length_app. cbn. lia. }
  assert (Hshift : forall s, (length A < s)%nat ->
            after_insert (Some (S (length A))) s = (s + 1)%nat).
  { intros s Hs'. unfold after_insert.
    destruct (S (length A) <=? s)%nat eqn:E; [lia|]. apply Nat.leb_gt in E. lia. }
  assert (Hkeep : ~ v_start v < edge < v_end v -> (l1, p1) = (A ++ v :: R, None) ->
            exists v1 N,
              l1 = A ++ v1 :: N ++ R /\ well_formed l1 /\
              (forall s, (length A < s)%nat -> after_insert p1 s = (s + length N)%nat) /\
              ((~ v_start v < edge < v_end v /\ v1 = v /\ N = []) \/
               (v_start v < edge < v_end v /\ v1 = truncated v edge /\
                exists n, N = [n] /\ v_start n = edge /\ v_end n = v_end v))).
  { intros Hno [= -> ->]. exists v, []. split; [reflexivity|]. split; [exact Hwf|]. split.
    - intros s _. cbn. lia.
    - left. auto. }
  assert (Hcut : forall n, v_start v < edge < v_end v ->
            v_start n = edge -> v_end n = v_end v ->
            (l1, p1) = split_insert (A ++ v :: R) (length A) v edge n ->
            exists v1 N,
              l1 = A ++ v1 :: N ++ R /\ well_formed l1 /\
              (forall s, (length A < s)%nat -> after_insert p1 s = (s + length N)%nat) /\
              ((~ v_start v < edge < v_end v /\ v1 = v /\ N = []) \/
               (v_start v < edge < v_end v /\ v1 = truncated v edge /\
                exists n, N = [n] /\ v_start n = edge /\ v_end n = v_end v))).
  { intros n Hyes Hns Hne Heq. destruct Hok as (Hs & He & H0 & Hle & Hup).
    rewrite (split_insert_behind _ _ _ _ n (proj1 Hwf) Hv) in Heq by assumption.
    rewrite Htake, Hdrop in Heq. injection Heq as -> ->.
    exists (truncated v edge), [n]. split; [reflexivity|]. split; [|split; [exact Hshift|]].
    - apply (well_formed_cut A v R); cbn; auto; try lia. now rewrite Hns.
    - right. split; [exact Hyes|]. split; [reflexivity|]. exists n. auto. }
  assert (Hcases : ~ v_start v < edge < v_end v \/ v_start v < edge < v_end v) by lia.
  unfold split in Hsplit. rewrite Hv in Hsplit.
  destruct (variant v) as [|f offset ino dev];
    unfold anon_vma_split, file_vma_split in Hsplit;
    (destruct Hcases as [Hno|Hyes];
     [rewrite outside_edge in Hsplit by lia; cbv iota in Hsplit;
      injection Hsplit as <- <-; now apply Hkeep
     |rewrite (inside_edge v edge Hyes) in Hsplit; cbv iota in Hsplit]).
  - apply (Hcut (anon_vma edge (v_end v) (_perm v) (_flags v))); try assumption.
    + cbn. apply align_down_aligned, Hedge.
    + cbn. apply align_up_aligned; [apply Hok|]. unfold vma_ok in Hok. lia.
    + congruence.
  - cbv zeta in Hsplit.
    destruct (file_mmap f edge (v_end v) (_flags v) (_perm v) (file_offset v offset edge))
      as [n|e| | |] eqn:Hmap; cbn [mbind outcome_bind] in Hsplit; try discriminate.
    apply file_mmap_fields in Hmap as (_ & _ & _ & Hst & Hen).
    rewrite (align_down_aligned _ Hedge) in Hst.
    rewrite align_up_aligned in Hen; [|apply Hok|unfold vma_ok in Hok; lia].
    apply (Hcut n); try assumption. congruence.
Qed.

(** The loop of [protect], seen from a byte [x] of the range: with the
    registry cut into the VMAs behind the iterator, the VMAs up to [second]
    and the rest, if [x] lies in a VMA behind that already has the new
    permissions, or in a VMA still ahead, then after the loop it lies in a
    VMA with the new permissions. *)
Lemma protect_loop_covers x :
  start <= x < end_ ->
  forall fuel A B C st st',
    vma_list st = A ++ B ++ C -> well_formed (A ++ B ++ C) ->
    protect_loop fuel start end_ perm (length A) (length A + length B) st
      = Done (no_error, st') ->
    (exists w, In w A /\ covers_byte w x /\ _perm w = perm) \/
    (exists w, In w B /\ covers_byte w x) ->
    exists w, In w (vma_list st') /\ covers_byte w x /\ _perm w = perm.
Proof.
  intros Hx. induction fuel as [|fuel IH]; intros A B C st st' Hl Hwf Hrun Hcov;
    [discriminate|].
  cbn [protect_loop] in Hrun. destruct B as [|v B].
  - rewrite Nat.add_0_r, Nat.eqb_refl in Hrun. injection Hrun as <-.
    destruct Hcov as [(w & Hw & Hc & Hp)|(w & [] & _)].
    exists w. rewrite Hl. split; [apply in_or_app; now left|auto].
  - destruct (length A =? length A + length (v :: B))%nat eqn:E.
    { apply Nat.eqb_eq in E. cbn in E. lia. }
    clear E. cbn [app] in Hl, Hwf.
    assert (Hv : vma_list st !! length A = Some v).
    { rewrite Hl. now apply list_lookup_middle. }
    rewrite Hv in Hrun.
    destruct (_perm v =? perm) eqn:Hperm.
    + apply Z.eqb_eq in Hperm.
      apply (IH (A ++ [v]) B C st st').
      * now rewrite <- app_assoc.
      * now rewrite <- app_assoc.
      * rewrite length_app. cbn [length].
        replace (length A + 1)%nat with (S (length A)) by lia.
        replace (S (length A) + length B)%nat with (length A + length (v :: B))%nat
          by (cbn; lia).
        exact Hrun.
      * destruct Hcov as [(w & Hw & Hc & Hp)|(w & [<-|Hw] & Hc)].
        -- left. exists w. split; [apply in_or_app; now left|auto].
        -- left. exists v. split; [apply in_or_app; right; now left|auto].
        -- right. eauto.
    + destruct (validate_perm v perm); try discriminate.
      rewrite Hl in Hrun.
      destruct (split (A ++ v :: B ++ C) (length A) end_) as [[l1 p1]| | | |] eqn:Hs1;
        cbn [mbind outcome_bind] in Hrun; try discriminate.
      destruct (split_in_place A v (B ++ C) end_ l1 p1 Hwf end_aligned Hs1)
        as (v1 & N1 & -> & Hwf1 & Hsh1 & Hcase1).
      destruct (split (A ++ v1 :: N1 ++ B ++ C) (length A) start) as [[l2 p2]| | | |] eqn:Hs2;
        cbn [mbind outcome_bind] in Hrun; try discriminate.
      destruct (split_in_place A v1 (N1 ++ B ++ C) start l2 p2 Hwf1 start_aligned Hs2)
        as (v2 & N2 & -> & Hwf2 & Hsh2 & Hcase2).
      assert (Hv2 : (A ++ v2 :: N2 ++ N1 ++ B ++ C) !! length A = Some v2)
        by now apply list_lookup_middle.
      rewrite Hv2 in Hrun.
      rewrite Hsh1, Hsh2 in Hrun by (cbn [length]; lia).
      (* where the byte is, if it was in the VMA just handled *)
      assert (Hpieces : covers_byte v x ->
                (exists n, In n N2 /\ covers_byte n x) \/
                (covers_byte v2 x /\ contains start end_ v2 = true)).
      { unfold covers_byte. intros Hc.
        assert (Hv1 : v_start v1 = v_start v /\ v_start v1 <= x < v_end v1 /\ v_end v1 <= end_).
        { destruct Hcase1 as [(Hno & -> & _)|(Hyes & -> & _)]; cbn; lia. }
        destruct Hcase2 as [(Hno & -> & _)|(Hyes & -> & n & -> & Hns & Hne)].
        - right. split; [lia|]. unfold contains.
          apply andb_true_iff. split; [apply Z.geb_le|apply Z.leb_le]; lia.
        - left. exists n. split; [now left|]. lia. }
      set (B' := N2 ++ N1 ++ B) in *.
      assert (Hlen : (length A + length (v :: B) + length N1 + length N2
                      = length (A ++ [v2]) + length B')%nat).
      { unfold B'. rewrite !length_app. cbn [length]. lia. }
      assert (HSA : S (length A) = length (A ++ [v2])).
      { rewrite length_app. cbn. lia. }
      rewrite Hlen in Hrun.
      destruct (contains start end_ v2) eqn:Hcont.
      * set (v3 := vma_protect v2 perm) in *.
        replace (length (A ++ [v2])) with (length (A ++ [v3])) in Hrun
          by (rewrite !length_app; reflexivity).
        replace (S (length A)) with (length (A ++ [v3])) in Hrun
          by (rewrite length_app; cbn; lia).
        apply (IH (A ++ [v3]) B' C _ st') in Hrun; [exact Hrun| | |].
        -- cbn [vma_list add_effect set_vma_list].
           rewrite <- app_assoc. cbn [app]. unfold B'. rewrite <- !app_assoc.
           rewrite insert_app_r_alt, Nat.sub_diag by lia. reflexivity.
        -- rewrite <- app_assoc. cbn [app].
           apply (well_formed_same_range A v2); [|reflexivity|reflexivity].
           unfold B'. now rewrite <- !app_assoc.
        -- destruct Hcov as [(w & Hw & Hc & Hp)|(w & [<-|Hw] & Hc)].
           ++ left. exists w. split; [apply in_or_app; now left|auto].
           ++ destruct (Hpieces Hc) as [(n & Hn & Hcn)|[Hc2 _]].
              ** right. exists n. split; [|exact Hcn]. unfold B'. apply in_or_app. now left.
              ** left. exists v3. split; [apply in_or_app; right; now left|].
                 split; [exact Hc2|reflexivity].
           ++ right. exists w. split; [|exact Hc]. unfold B'.
              apply in_or_app. right. apply in_or_app. now right.
      * rewrite HSA in Hrun.
        apply (IH (A ++ [v2]) B' C _ st') in Hrun; [exact Hrun| | |].
        -- cbn [vma_list set_vma_list]. rewrite <- app_assoc. cbn [app]. unfold B'.
           now rewrite <- !app_assoc.
        -- rewrite <- app_assoc. cbn [app]. unfold B'. now rewrite <- !app_assoc.
        -- destruct Hcov as [(w & Hw & Hc & Hp)|(w & [<-|Hw] & Hc)].
           ++ left. exists w. split; [apply in_or_app; now left|auto].
           ++ destruct (Hpieces Hc) as [(n & Hn & Hcn)|[_ Hfalse]]; [|discriminate].
              right. exists n. split; [|exact Hcn]. unfold B'. apply in_or_app. now left.
           ++ right. exists w. split; [|exact Hc]. unfold B'.
              apply in_or_app. right. apply in_or_app. now right.
Qed.

End Protect.

Lemma find_second_le l rs re first second :
  find_intersecting_vmas l rs re = Done (first, second) -> (second <= length l)%nat.
Proof.
  unfold find_intersecting_vmas.
  destruct (re <=? rs); [intros [= <- <-]; lia|]. cbv zeta.
  destruct (l !! lower_bound rs l) as [v|]; [|discriminate].
  assert (Hfin : forall s,
            match l !! s with
            | Some sv =>
                if v_start sv >=? re then Done (length l, length l)
                else Done (s, lower_bound re l)
            | None => Undefined
            end = Done (first, second) -> (second <= length l)%nat).
  { intros s. destruct (l !! s) as [sv|]; [|discriminate].
    destruct (v_start sv >=? re); intros [= <- <-]; [lia|apply lower_bound_length]. }
  destruct (v_start v >? rs).
  - destruct (lower_bound rs l) as [|prev]; [discriminate|].
    destruct (l !! prev) as [pv|]; [|discriminate].
    cbn [mbind outcome_bind]. apply Hfin.
  - cbn [mbind outcome_bind]. apply Hfin.
Qed.

Lemma slice_cut l first second :
  (first < second <= length l)%nat ->
  l = take first l ++ slice l first second ++ drop second l /\
  length (take first l) = first /\ length (slice l first second) = (second - first)%nat.
Proof.
  intros H. unfold slice. split; [|split].
  - rewrite <- (take_drop first l) at 1. f_equal.
    rewrite <- (take_drop (second - first) (drop first l)) at 1. f_equal.
    rewrite drop_drop. f_equal. lia.
  - rewrite length_take. lia.
  - rewrite length_take, length_drop. lia.
Qed.

(** After a successful [mprotect(addr, len, perm)] on page boundaries, every
    byte of the range lies in a VMA whose permissions are [perm]. *)
Lemma mprotect_sets_permissions st addr len perm st' x :
  well_formed (vma_list st) ->
  page_aligned addr -> page_aligned len ->
  0 <= addr -> 0 <= len -> addr + len <= upper_vma_limit ->
  mprotect st addr len perm = Done (no_error, st') ->
  addr <= x < addr + len ->
  exists v, In v (vma_list st') /\ covers_byte v x /\ _perm v = perm.
Proof.
  intros Hwf Haddr Hlen H0 Hl0 Hup Hrun Hx.
  assert (Hend : u64 (addr + len) = addr + len).
  { apply u64_small. unfold upper_vma_limit in Hup. lia. }
  assert (Hendal : page_aligned (addr + len)).
  { unfold page_aligned, page_size in *. Z.to_euclidean_division_equations. lia. }
  unfold mprotect, ismapped in Hrun. rewrite Hend in Hrun.
  destruct (find_intersecting_vmas (vma_list st) addr (addr + len))
    as [[first second]| | | |] eqn:Hfind; cbn [mbind outcome_bind] in Hrun; try discriminate.
  destruct (ismapped_loop (slice (vma_list st) first second) addr (addr + len)) eqn:Hloop;
    cbn [negb] in Hrun; [|discriminate].
  unfold protect in Hrun. rewrite Hend, Hfind in Hrun. cbn [mbind outcome_bind] in Hrun.
  destruct (ismapped_loop_sound _ _ _ x Hloop Hx) as (w & Hw & Hc).
  assert (Hlt : (first < second <= length (vma_list st))%nat).
  { split; [|eapply find_second_le; eauto].
    destruct (Nat.lt_ge_cases first second) as [?|Hge]; [assumption|].
    unfold slice in Hw. replace (second - first)%nat with O in Hw by lia. destruct Hw. }
  destruct (slice_cut _ _ _ Hlt) as (Hcut & HlA & HlB).
  assert (Hrun' : protect_loop (3 * length (vma_list st) + 1) addr (addr + len) perm
                    (length (take first (vma_list st)))
                    (length (take first (vma_list st))
                     + length (slice (vma_list st) first second)) st
                  = Done (no_error, st')).
  { rewrite HlA, HlB. replace (first + (second - first))%nat with second by lia. exact Hrun. }
  eapply (protect_loop_covers addr (addr + len) perm Haddr Hendal x Hx); eauto.
  now rewrite <- Hcut.
Qed.

Lemma sample_well_formed : well_formed (vma_list sample_mm).
Proof.
  split; [exact sample_ordered|].
  intros v [<-|[<-|[<-|[]]]]; vm_compute; intuition congruence.
Qed.



(** ** Superblocks and their addresses *)

Lemma superblock_ptr_small L s :
  layout_ok L -> 0 <= s < superblock_len L ->
  superblock_ptr L s = s * superblock_size L + superblock_area_base L /\
  superblock_ptr L s + superblock_size L <= main_mem_area_base L.
Proof.
  intros (Hs & Hb & Hm) Hlt. unfold superblock_ptr, superblock_len in *.
  assert (Hdiv : (s + 1) * superblock_size L <= main_mem_area_base L - superblock_area_base L).
  { transitivity ((main_mem_area_base L - superblock_area_base L) / superblock_size L
                  * superblock_size L).
    - apply Z.mul_le_mono_nonneg_r; lia.
    - rewrite Z.mul_comm. apply Z.mul_div_le. lia. }
  rewrite u64_small by nia. split; [reflexivity|nia].
Qed.

Lemma superblock_index_ptr L s off :
  layout_ok L -> 0 <= s < superblock_len L -> 0 <= off < superblock_size L ->
  superblock_index L (superblock_ptr L s + off) = s.
Proof.
  intros HL Hs Hoff. destruct (superblock_ptr_small L s HL Hs) as [Hp Hend].
  destruct HL as (Hsz & Hb & Hm).
  unfold superblock_index. rewrite Hp.
  replace (s * superblock_size L + superblock_area_base L + off - superblock_area_base L)
    with (off + s * superblock_size L) by lia.
  rewrite u64_small by nia.
  rewrite Z.div_add by lia. rewrite Z.div_small by lia. lia.
Qed.

(** X1: [superblock_ptr] and [superblock_index] are inverse to each other on
    the superblock area: every address of superblock [s] has index [s], and
    its owner is what slot [s] of the array holds. *)
Theorem superblock_of_its_addresses L sb s off :
  layout_ok L -> 0 <= s < superblock_len L -> 0 <= off < superblock_size L ->
  superblock_index L (superblock_ptr L s + off) = s /\
  owner L sb (superblock_ptr L s + off) = sb !! Z.to_nat s.
Proof.
  intros HL Hs Hoff. pose proof (superblock_index_ptr L s off HL Hs Hoff) as Hidx.
  destruct (superblock_ptr_small L s HL Hs) as [Hp Hend].
  destruct HL as (Hsz & Hb & Hm).
  split; [exact Hidx|].
  unfold owner. rewrite Hidx.
  replace (superblock_ptr L s + off <? superblock_area_base L) with false
    by (symmetry; apply Z.ltb_ge; nia).
  replace (superblock_ptr L s + off >=? main_mem_area_base L) with false
    by (symmetry; rewrite Z.geb_leb; apply Z.leb_gt; lia).
  reflexivity.
Qed.

Lemma superblock_of_its_addresses_witness :
  superblock_index sample_layout (superblock_ptr sample_layout 1 + 0x1000) = 1 /\
  owner sample_layout sample_superblocks (superblock_ptr sample_layout 1 + 0x1000)
    = sample_superblocks !! Z.to_nat 1.
Proof.
  apply (superblock_of_its_addresses sample_layout sample_superblocks 1 0x1000).
  - unfold layout_ok. cbn. lia.
  - vm_compute. split; [discriminate|reflexivity].
  - cbn. lia.
Defined.

(** The scan for one free superblock stops at the first free slot. *)
Lemma scan_free_first sb (i : nat) :
  sb !! i = Some FREE ->
  (forall j v, (j < i)%nat -> sb !! j = Some v -> v <> FREE) ->
  forall todo (idx : nat),
    (idx <= i)%nat -> (i - idx < todo)%nat ->
    scan_free sb 1 todo (Z.of_nat idx) 0 = Some (Z.of_nat i).
Proof.
  intros Hi Hbefore. induction todo as [|todo IH]; intros idx Hle Htodo; [lia|].
  cbn [scan_free]. rewrite Nat2Z.id.
  destruct (decide (idx = i)) as [->|Hne].
  - rewrite Hi. reflexivity.
  - destruct (lookup_lt_is_Some_2 sb idx) as (v & Hv).
    { apply lookup_lt_Some in Hi. lia. }
    rewrite Hv. assert (Hv' : v <> FREE) by (apply (Hbefore idx); [lia|exact Hv]).
    apply Z.eqb_neq in Hv'. rewrite Hv'. cbn [negb].
    replace (Z.of_nat idx + 1) with (Z.of_nat (S idx)) by lia.
    apply IH; lia.
Qed.

Lemma scan_free_none sb n :
  Forall (fun v => v <> FREE) sb ->
  forall todo i, 0 <= i -> scan_free sb n todo i 0 = None.
Proof.
  intros Hall. induction todo as [|todo IH]; intros i Hi; [reflexivity|].
  cbn [scan_free]. destruct (sb !! Z.to_nat i) as [v|] eqn:Hv; [|reflexivity].
  assert (Hv' : v <> FREE).
  { rewrite Forall_forall in Hall. apply Hall. eapply list_elem_of_lookup_2, Hv. }
  apply Z.eqb_neq in Hv'. rewrite Hv'. cbn [negb]. apply IH. lia.
Qed.

(** X2: left alone, [allocate_superblocks(1)] claims the lowest free
    superblock for the CPU and touches no other slot. *)
Theorem allocate_one_superblock_first_fit fuel cpu_id sb (i : nat) :
  Z.of_nat (length sb) < 2 ^ 32 ->
  sb !! i = Some FREE ->
  (forall j v, (j < i)%nat -> sb !! j = Some v -> v <> FREE) ->
  allocate_superblocks (S fuel) cpu_id 1 [] sb = Ret (Z.of_nat i) (<[i := cpu_id]> sb).
Proof.
  intros Hlen Hi Hbefore. cbn [allocate_superblocks].
  pose proof (lookup_lt_Some _ _ _ Hi) as Hlt.
  change 0 with (Z.of_nat 0) at 1.
  rewrite (scan_free_first sb i Hi Hbefore (length sb) O) by lia.
  replace (Z.of_nat i - 1 + 1) with (Z.of_nat i) by lia.
  assert (Hu : u32 (Z.of_nat i) = Z.of_nat i) by (unfold u32; apply Z.mod_small; lia).
  rewrite Hu, Z.leb_refl. cbn [hd apply_stores fold_left]. rewrite Nat2Z.id, Hi.
  reflexivity.
Qed.

Lemma allocate_one_superblock_first_fit_witness :
  allocate_superblocks 1 7 1 [] [0; 1; FREE; 3; FREE] = Ret 2 [0; 1; 7; 3; FREE].
Proof.
  apply (allocate_one_superblock_first_fit 0 7 [0; 1; FREE; 3; FREE] 2).
  - cbn. lia.
  - reflexivity.
  - intros [|[|j]] v Hj Hv; [| |lia]; cbn in Hv; injection Hv as <-; discriminate.
Defined.

(** X3: when no superblock is free and no other CPU stores into the array
    during the call, [allocate_superblocks] throws ENOMEM and leaves the
    array as it was. *)
Theorem allocate_superblocks_exhausted fuel cpu_id n sb :
  Forall (fun v => v <> FREE) sb ->
  allocate_superblocks (S fuel) cpu_id n [] sb = Throw ENOMEM sb.
Proof.
  intros Hall. cbn [allocate_superblocks].
  now rewrite (scan_free_none sb n Hall (length sb) 0).
Qed.

Lemma allocate_superblocks_exhausted_witness :
  allocate_superblocks 1 0 1 [] [3; 4] = Throw ENOMEM [3; 4].
Proof.
  apply (allocate_superblocks_exhausted 0 0 1 [3; 4]).
  repeat constructor; discriminate.
Defined.

(** The release loop over a run of slots this CPU owns. *)
Lemma release_loop_owned cpu_id :
  forall (k : nat) fuel (i : nat) sb,
    (k < fuel)%nat ->
    (forall j, (i <= j < i + k)%nat -> sb !! j = Some cpu_id) ->
    release_loop fuel (Z.of_nat i) (Z.of_nat (i + k)) cpu_id sb
      = Ret tt (list_inserts i (replicate k FREE) sb).
Proof.
  induction k as [|k IH]; intros fuel i sb Hfuel Hown.
  - destruct fuel as [|fuel]; [lia|]. cbn [release_loop].
    replace (Z.of_nat i <? Z.of_nat (i + 0)) with false by (symmetry; apply Z.ltb_ge; lia).
    reflexivity.
  - destruct fuel as [|fuel]; [lia|]. cbn [release_loop].
    replace (Z.of_nat i <? Z.of_nat (i + S k)) with true by (symmetry; apply Z.ltb_lt; lia).
    rewrite Nat2Z.id, (Hown i) by lia.
    unfold compare_exchange. rewrite Z.eqb_refl.
    replace (Z.of_nat i + 1) with (Z.of_nat (S i)) by lia.
    replace (i + S k)%nat with (S i + k)%nat by lia.
    rewrite IH.
    + cbn [replicate list_inserts]. f_equal.
      symmetry. apply list_insert_inserts_lt. lia.
    + lia.
    + intros j Hj. rewrite list_lookup_insert_ne by lia. apply Hown. lia.
Qed.

(** X4: on a run of superblocks the CPU owns, [release_superblocks] marks
    each of them free and leaves every other slot as it was. *)
Theorem release_superblocks_frees_owned_run cpu_id (start n : nat) sb :
  (start + n <= length sb)%nat -> Z.of_nat (length sb) < 2 ^ 64 ->
  (forall j, (start <= j < start + n)%nat -> sb !! j = Some cpu_id) ->
  release_superblocks cpu_id (Z.of_nat start) (Z.of_nat n) sb
    = Ret tt (list_inserts start (replicate n FREE) sb).
Proof.
  intros Hlen H64 Hown. unfold release_superblocks.
  rewrite u64_small by lia.
  replace (Z.of_nat start + Z.of_nat n) with (Z.of_nat (start + n)) by lia.
  apply release_loop_owned; [lia|exact Hown].
Qed.

Lemma release_superblocks_frees_owned_run_witness :
  release_superblocks 2 1 2 [0; 2; 2; 5] = Ret tt [0; FREE; FREE; 5].
Proof.
  apply (release_superblocks_frees_owned_run 2 1 2 [0; 2; 2; 5]).
  - cbn. lia.
  - cbn. lia.
  - intros [|[|[|j]]] Hj; try lia; reflexivity.
Defined.

(** X5: the failed exchange stores the slot's owner into the local [cpuid],
    which the next exchange then expects: after a slot of another CPU, the
    following slot is released when that same CPU owns it. *)
Theorem release_superblocks_takes_over_expected cpu_id o (start : nat) sb :
  o <> cpu_id -> Z.of_nat (length sb) < 2 ^ 64 ->
  sb !! start = Some o -> sb !! S start = Some o ->
  release_superblocks cpu_id (Z.of_nat start) 2 sb = Ret tt (<[S start := FREE]> sb).
Proof.
  intros Hne H64 H0 H1. unfold release_superblocks.
  pose proof (lookup_lt_Some _ _ _ H1) as Hlt.
  rewrite u64_small by lia.
  destruct (length sb) as [|[|len]] eqn:Hlen; [lia|lia|].
  cbn [release_loop].
  replace (Z.of_nat start <? Z.of_nat start + 2) with true by (symmetry; apply Z.ltb_lt; lia).
  rewrite Nat2Z.id, H0. unfold compare_exchange at 1.
  replace (o =? cpu_id) with false by (symmetry; apply Z.eqb_neq; exact Hne).
  rewrite list_insert_id by exact H0.
  replace (Z.of_nat start + 1 <? Z.of_nat start + 2) with true
    by (symmetry; apply Z.ltb_lt; lia).
  replace (Z.to_nat (Z.of_nat start + 1)) with (S start) by lia.
  rewrite H1. unfold compare_exchange. rewrite Z.eqb_refl.
  replace (Z.of_nat start + 1 + 1 <? Z.of_nat start + 2) with false
    by (symmetry; apply Z.ltb_ge; lia).
  reflexivity.
Qed.

Lemma release_superblocks_takes_over_expected_witness :
  release_superblocks 0 0 2 [5; 5; 0] = Ret tt [5; FREE; 0].
Proof.
  apply (release_superblocks_takes_over_expected 0 5 0 [5; 5; 0]).
  - discriminate.
  - cbn. lia.
  - reflexivity.
  - reflexivity.
Defined.

(** ** Giving ranges back and taking them *)

Section FreeRanges.

Implicit Types (fr A B : list (Z * Z)) (e : Z * Z).

Lemma covers_nil x : ~ covers [] x.
Proof. intros (b & l & [] & _). Qed.

Lemma covers_cons b l fr x : covers ((b, l) :: fr) x <-> b <= x < b + l \/ covers fr x.
Proof.
  split.
  - intros (b' & l' & [[= <- <-]|Hin] & Hx); [now left|]. right. now exists b', l'.
  - intros [Hx|(b' & l' & Hin & Hx)]; [exists b, l|exists b', l']; split; auto; now (left + right).
Qed.

Lemma covers_app A B x : covers (A ++ B) x <-> covers A x \/ covers B x.
Proof.
  split.
  - intros (b & l & Hin & Hx). apply in_app_or in Hin as [Hin|Hin]; [left|right]; now exists b, l.
  - intros [(b & l & Hin & Hx)|(b & l & Hin & Hx)]; exists b, l; split; auto;
      apply in_or_app; [now left|now right].
Qed.

Lemma ranges_ok_cons e fr :
  ranges_ok (e :: fr) <-> range_ok e /\ Forall (range_before e) fr /\ ranges_ok fr.
Proof.
  unfold ranges_ok. rewrite StronglySorted_cons, Forall_cons. tauto.
Qed.

Lemma ranges_ok_app A B :
  ranges_ok (A ++ B) <->
  ranges_ok A /\ ranges_ok B /\ (forall a b, In a A -> In b B -> range_before a b).
Proof.
  unfold ranges_ok. rewrite StronglySorted_app, Forall_app.
  split.
  - intros ((Hc & HA & HB) & FA & FB). repeat split; auto.
    intros a b Ha Hb. apply Hc; now apply list_elem_of_In.
  - intros ((HA & FA) & (HB & FB) & Hc). repeat split; auto.
    intros a b Ha Hb. apply Hc; now apply list_elem_of_In.
Qed.

(** [upper_bound] cuts the map into the keys up to [addr] and the keys
    above. *)
Lemma upper_bound_decompose fr addr :
  ranges_ok fr ->
  exists A B, fr = A ++ B /\ upper_bound addr fr = length A /\
    (forall e, In e A -> fst e <= addr) /\ (forall e, In e B -> addr < fst e).
Proof.
  induction fr as [|[k v] fr IH]; intros Hok.
  - exists [], []. repeat split; intros e [].
  - apply ranges_ok_cons in Hok as (Hk & Hall & Hok). cbn [upper_bound].
    destruct (addr <? k) eqn:E.
    + apply Z.ltb_lt in E. exists [], ((k, v) :: fr). repeat split; [intros e []|].
      intros e [<-|He]; [exact E|]. rewrite Forall_forall in Hall.
      apply list_elem_of_In, Hall in He. unfold range_before, range_ok in *. cbn in *. lia.
    + apply Z.ltb_ge in E. destruct (IH Hok) as (A & B & -> & Hub & HA & HB).
      exists ((k, v) :: A), B. repeat split; [cbn; now rewrite Hub| |exact HB].
      intros e [<-|He]; [exact E|now apply HA].
Qed.

Lemma upper_bound_mid A B k :
  (forall e, In e A -> fst e <= k) -> (forall e, In e B -> k < fst e) ->
  upper_bound k (A ++ B) = length A.
Proof.
  intros HA HB. induction A as [|[k' v'] A IH]; cbn [app upper_bound length].
  - destruct B as [|[k' v'] B]; [reflexivity|]. cbn [upper_bound].
    replace (k <? k') with true; [reflexivity|].
    symmetry. apply Z.ltb_lt. apply (HB (k', v')). now left.
  - replace (k <? k') with false.
    + f_equal. apply IH. intros e He. apply HA. now right.
    + symmetry. apply Z.ltb_ge. apply (HA (k', v')). now left.
Qed.

Lemma map_insert_mid A B k v :
  (forall e, In e A -> fst e < k) -> (forall e, In e B -> k < fst e) ->
  map_insert k v (A ++ B) = A ++ (k, v) :: B.
Proof.
  intros HA HB. induction A as [|[k' v'] A IH]; cbn [app map_insert].
  - destruct B as [|[k' v'] B]; [reflexivity|]. cbn [map_insert].
    replace (k <? k') with true; [reflexivity|].
    symmetry. apply Z.ltb_lt. apply (HB (k', v')). now left.
  - assert (k' < k) by (apply (HA (k', v')); now left).
    replace (k <? k') with false by (symmetry; apply Z.ltb_ge; lia).
    replace (k =? k') with false by (symmetry; apply Z.eqb_neq; lia).
    f_equal. apply IH. intros e He. apply HA. now right.
Qed.

(** The second half of [free_range]: the merge with the following
    interval. *)
Lemma merge_next_shape P lo len B addr size :
  match (P ++ (lo, len) :: B) !! length P, (P ++ (lo, len) :: B) !! S (length P) with
  | Some (first, second), Some (nfirst, nsecond) =>
      if nfirst =? u64 (addr + size)
      then map_erase (S (length P))
             (<[length P := (first, u64 (second + nsecond))]> (P ++ (lo, len) :: B))
      else P ++ (lo, len) :: B
  | _, _ => P ++ (lo, len) :: B
  end =
  match B with
  | (nf, ns) :: B' =>
      if nf =? u64 (addr + size) then P ++ (lo, u64 (len + ns)) :: B' else P ++ (lo, len) :: B
  | [] => P ++ (lo, len) :: B
  end.
Proof.
  rewrite list_lookup_middle by reflexivity.
  rewrite lookup_app_r by lia.
  replace (S (length P) - length P)%nat with 1%nat by lia. cbn [lookup list_lookup].
  destruct B as [|[nf ns] B']; [reflexivity|]. cbn [list_lookup lookup].
  destruct (nf =? u64 (addr + size)); [|reflexivity].
  unfold map_erase. rewrite insert_app_r_alt by lia. rewrite Nat.sub_diag. cbn [insert list_insert].
  change (P ++ (lo, u64 (len + ns)) :: (nf, ns) :: B')
    with (P ++ [(lo, u64 (len + ns))] ++ (nf, ns) :: B').
  rewrite app_assoc.
  replace (S (length P)) with (length (P ++ [(lo, u64 (len + ns))]))
    by (rewrite length_app; cbn; lia).
  rewrite delete_middle. now rewrite <- app_assoc.
Qed.

(** What [free_range] makes of a map cut at [addr], when the range given
    back lies between the two halves. *)
Lemma free_range_shape A B addr size :
  ranges_ok (A ++ B) -> 0 <= addr -> 0 < size -> addr + size < 2 ^ 64 ->
  (forall e, In e A -> fst e + snd e <= addr) ->
  (forall e, In e B -> addr + size <= fst e) ->
  exists P lo len R,
    free_range addr size (A ++ B) = P ++ (lo, len) :: R /\
    (P = A /\ lo = addr /\ (forall e, In e A -> fst e + snd e < addr) \/
     exists s, A = P ++ [(lo, s)] /\ lo + s = addr) /\
    (R = B /\ lo + len = addr + size /\ (forall e, In e B -> addr + size < fst e) \/
     exists ns, B = (addr + size, ns) :: R /\ lo + len = addr + size + ns).
Proof.
  intros Hok Haddr Hsize H64 HA HB.
  apply ranges_ok_app in Hok as (HokA & HokB & Hcross).
  assert (HAk : forall e, In e A -> fst e <= addr).
  { intros e He. specialize (HA e He). destruct HokA as [_ FA].
    rewrite Forall_forall in FA. apply list_elem_of_In, FA in He. unfold range_ok in He. lia. }
  assert (HBk : forall e, In e B -> addr < fst e).
  { intros e He. specialize (HB e He). lia. }
  (* the first half: the interval the range goes into, and where it is *)
  assert (Hfirst : exists P lo len,
    (match
       match prev_range addr (A ++ B) with
       | Some it =>
           match (A ++ B) !! it with
           | Some (first, second) =>
               if u64 (first + second) =? addr
               then Some (it, <[it := (first, u64 (second + size))]> (A ++ B))
               else None
           | None => None
           end
       | None => None
       end
     with
     | Some r => r
     | None => (upper_bound addr (map_insert addr size (A ++ B)) - 1,
                map_insert addr size (A ++ B))%nat
     end) = (length P, P ++ (lo, len) :: B) /\
    lo + len = addr + size /\
    (P = A /\ lo = addr /\ (forall e, In e A -> fst e + snd e < addr) \/
     exists s, A = P ++ [(lo, s)] /\ lo + s = addr)).
  { unfold prev_range. rewrite (upper_bound_mid A B addr HAk HBk).
    destruct (decide (A = [])) as [->|Hne].
    - cbn [length app]. exists [], addr, size.
      rewrite (map_insert_mid [] B) by (try intros e []; exact HBk).
      cbn [app]. change ((addr, size) :: B) with ([(addr, size)] ++ B).
      rewrite (upper_bound_mid [(addr, size)] B addr).
      + cbn. repeat split. left. repeat split. intros e [].
      + intros e [<-|[]]. cbn. lia.
      + exact HBk.
    - destruct (exists_last Hne) as (A' & [f s] & ->).
      rewrite length_app. cbn [length]. replace (length A' + 1)%nat with (S (length A')) by lia.
      rewrite <- app_assoc. cbn [app].
      rewrite list_lookup_middle by reflexivity.
      apply ranges_ok_app in HokA as (HokA' & Hfs & HcrossA).
      apply ranges_ok_cons in Hfs as ((Hf0 & Hs0 & Hfs64) & _ & _). cbn [fst snd] in *.
      assert (Hend : f + s <= addr) by (apply (HA (f, s)); apply in_or_app; right; now left).
      rewrite (u64_small (f + s)) by lia.
      destruct (f + s =? addr) eqn:E.
      + apply Z.eqb_eq in E. exists A', f, (s + size).
        rewrite insert_app_r_alt by lia. rewrite Nat.sub_diag. cbn [insert list_insert].
        rewrite (u64_small (s + size)) by lia.
        repeat split; [lia|]. right. exists s. split; [reflexivity|exact E].
      + apply Z.eqb_neq in E. exists (A' ++ [(f, s)]), addr, size.
        change (A' ++ (f, s) :: B) with (A' ++ [(f, s)] ++ B). rewrite app_assoc.
        assert (HAlt : forall e, In e (A' ++ [(f, s)]) -> fst e + snd e < addr).
        { intros e He. apply in_app_or in He as [He|[<-|[]]]; [|cbn; lia].
          specialize (HcrossA e (f, s) He (or_introl eq_refl)).
          unfold range_before in HcrossA. cbn in HcrossA. lia. }
        assert (HAlt' : forall e, In e (A' ++ [(f, s)]) -> fst e < addr).
        { intros e He. specialize (HAlt e He). destruct HokA' as [_ FA'].
          apply in_app_or in He as [He|[<-|[]]]; [|cbn in *; lia].
          rewrite Forall_forall in FA'. apply list_elem_of_In, FA' in He.
          unfold range_ok in He. lia. }
        rewrite (map_insert_mid _ B addr size HAlt' HBk).
        change ((A' ++ [(f, s)]) ++ (addr, size) :: B)
          with ((A' ++ [(f, s)]) ++ [(addr, size)] ++ B).
        rewrite app_assoc.
        rewrite (upper_bound_mid _ B addr).
        * rewrite !length_app. cbn [length].
          replace (length A' + 1 + 1 - 1)%nat with (length A' + 1)%nat by lia.
          rewrite <- app_assoc. repeat split. left. repeat split. exact HAlt.
        * intros e He. apply in_app_or in He as [He|[<-|[]]]; [|cbn; lia].
          specialize (HAlt' e He). lia.
        * exact HBk. }
  destruct Hfirst as (P & lo & len & Hfirst & Hlen & HP).
  unfold free_range. rewrite Hfirst. rewrite merge_next_shape.
  destruct B as [|[nf ns] B'].
  - exists P, lo, len, []. repeat split; [exact HP|]. left. repeat split; [exact Hlen|].
    intros e [].
  - rewrite (u64_small (addr + size)) by lia.
    destruct (nf =? addr + size) eqn:E.
    + apply Z.eqb_eq in E. subst nf.
      apply ranges_ok_cons in HokB as ((_ & Hns & Hns64) & _ & _). cbn [fst snd] in *.
      exists P, lo, (len + ns), B'. rewrite (u64_small (len + ns)).
      * repeat split; [exact HP|]. right. exists ns. split; [reflexivity|lia].
      * destruct HP as [(-> & -> & _)|(s & -> & Hs)]; [lia|].
        apply ranges_ok_app in HokA as (_ & Hfs & _).
        apply ranges_ok_cons in Hfs as ((Hf0 & Hs0 & Hfs64) & _ & _). cbn [fst snd] in *. lia.
    + apply Z.eqb_neq in E.
      exists P, lo, len, ((nf, ns) :: B'). repeat split; [exact HP|].
      left. repeat split; [exact Hlen|].
      intros e [<-|He]; [cbn; specialize (HB (nf, ns) (or_introl eq_refl)); cbn in HB; lia|].
      apply ranges_ok_cons in HokB as (Hnf & Hall & _).
      rewrite Forall_forall in Hall. apply list_elem_of_In, Hall in He.
      specialize (HB (nf, ns) (or_introl eq_refl)).
      unfold range_before, range_ok in *. cbn in *. lia.
Qed.

(** A range that the map does not cover lies between the keys up to [addr]
    and the keys above. *)
Lemma free_range_cut fr addr size :
  ranges_ok fr -> 0 < size ->
  (forall x, addr <= x < addr + size -> ~ covers fr x) ->
  exists A B, fr = A ++ B /\
    (forall e, In e A -> fst e + snd e <= addr) /\
    (forall e, In e B -> addr + size <= fst e).
Proof.
  intros Hok Hsize Hfree.
  destruct (upper_bound_decompose fr addr Hok) as (A & B & -> & _ & HA & HB).
  exists A, B. split; [reflexivity|].
  destruct Hok as [_ Hall]. rewrite Forall_forall in Hall.
  split; intros [b l] He; cbn [fst snd].
  - specialize (HA _ He). cbn in HA.
    destruct (Z_le_gt_dec (b + l) addr) as [|Hgt]; [assumption|].
    exfalso. apply (Hfree addr); [lia|]. exists b, l. split; [|lia].
    apply in_or_app. now left.
  - specialize (HB _ He). cbn in HB.
    destruct (Z_le_gt_dec (addr + size) b) as [|Hgt]; [assumption|].
    exfalso. apply (Hfree b); [lia|]. exists b, l. split; [apply in_or_app; now right|].
    assert (Hin : (b, l) ∈ A ++ B) by (apply list_elem_of_In, in_or_app; now right).
    apply Hall in Hin. unfold range_ok in Hin. cbn in Hin. lia.
Qed.

End FreeRanges.

(** X6: [free_range] adds the range to the map and nothing else: the map
    keeps its order, and it covers what it covered before and the range
    given back. *)
Theorem free_range_gives_back fr addr size :
  ranges_ok fr -> 0 <= addr -> 0 < size -> addr + size < 2 ^ 64 ->
  (forall x, addr <= x < addr + size -> ~ covers fr x) ->
  ranges_ok (free_range addr size fr) /\
  forall x, covers (free_range addr size fr) x <-> covers fr x \/ addr <= x < addr + size.
Proof.
  intros Hok Haddr Hsize H64 Hfree.
  destruct (free_range_cut fr addr size Hok Hsize Hfree) as (A & B & -> & HA & HB).
  destruct (free_range_shape A B addr size Hok Haddr Hsize H64 HA HB)
    as (P & lo & len & R & -> & HP & HR).
  apply ranges_ok_app in Hok as (HokA & HokB & Hcross).
  assert (HPok : ranges_ok P /\ (forall a, In a P -> fst a + snd a <= lo) /\
                 0 <= lo <= addr).
  { destruct HP as [(-> & -> & _)|(s & -> & Hs)].
    - repeat split; [apply HokA|apply HokA|exact HA|lia|lia].
    - apply ranges_ok_app in HokA as (HokP & Hlo & HcrossP).
      apply ranges_ok_cons in Hlo as ((Hlo0 & Hs0 & _) & _ & _). cbn [fst snd] in *.
      repeat split; [apply HokP|apply HokP| |lia|lia].
      intros a Ha. apply (HcrossP a (lo, s) Ha). now left. }
  destruct HPok as (HokP & HPlo & Hlo).
  assert (HRok : ranges_ok R /\ (forall b, In b R -> lo + len <= fst b) /\
                 addr + size <= lo + len < 2 ^ 64).
  { destruct HR as [(-> & Hlen & _)|(ns & -> & Hlen)].
    - repeat split; [apply HokB|apply HokB| |lia|lia].
      intros b Hb. specialize (HB b Hb). lia.
    - apply ranges_ok_cons in HokB as ((_ & Hns0 & Hns64) & Hall & HokR).
      cbn [fst snd] in *. repeat split; [apply HokR|apply HokR| |lia|lia].
      intros b Hb. rewrite Forall_forall in Hall. apply list_elem_of_In, Hall in Hb.
      unfold range_before in Hb. cbn in Hb. lia. }
  destruct HRok as (HokR & HRlo & Hhi).
  split.
  - apply ranges_ok_app. split; [exact HokP|]. split.
    + apply ranges_ok_cons. split; [unfold range_ok; cbn; lia|]. split; [|exact HokR].
      apply Forall_forall. intros b Hb. apply list_elem_of_In, HRlo in Hb.
      unfold range_before. cbn. lia.
    + intros a b Ha [<-|Hb]; unfold range_before; cbn [fst snd].
      * now apply HPlo.
      * specialize (HPlo a Ha). specialize (HRlo b Hb). lia.
  - intros x. pose proof (covers_nil x) as Hnil.
    destruct HP as [(-> & -> & _)|(s & -> & Hs)];
      destruct HR as [(-> & Hlen & _)|(ns & -> & Hlen)];
      rewrite ?covers_app, ?covers_cons; intuition lia.
Qed.

Lemma free_range_gives_back_witness :
  ranges_ok (free_range 0x3000 0x1000 [(0x1000, 0x2000); (0x4000, 0x1000)]) /\
  forall x, covers (free_range 0x3000 0x1000 [(0x1000, 0x2000); (0x4000, 0x1000)]) x <->
            covers [(0x1000, 0x2000); (0x4000, 0x1000)] x \/ 0x3000 <= x < 0x3000 + 0x1000.
Proof.
  apply (free_range_gives_back [(0x1000, 0x2000); (0x4000, 0x1000)] 0x3000 0x1000).
  - split; repeat constructor; unfold range_before; cbn; lia.
  - lia.
  - lia.
  - lia.
  - intros x Hx (b & l & [[= <- <-]|[[= <- <-]|[]]] & Hc); lia.
Defined.

(** X7: [free_range] merges the range with the intervals it touches: in a
    map where no interval ends where another begins, none does
    afterwards. *)
Theorem free_range_keeps_coalesced fr addr size :
  ranges_ok fr -> coalesced fr -> 0 <= addr -> 0 < size -> addr + size < 2 ^ 64 ->
  (forall x, addr <= x < addr + size -> ~ covers fr x) ->
  coalesced (free_range addr size fr).
Proof.
  intros Hok Hco Haddr Hsize H64 Hfree.
  destruct (free_range_cut fr addr size Hok Hsize Hfree) as (A & B & -> & HA & HB).
  destruct (free_range_shape A B addr size Hok Haddr Hsize H64 HA HB)
    as (P & lo & len & R & -> & HP & HR).
  assert (Hpos : forall e, In e (A ++ B) -> 0 < snd e).
  { intros e He. destruct Hok as [_ Hall]. rewrite Forall_forall in Hall.
    apply list_elem_of_In, Hall in He. unfold range_ok in He. lia. }
  assert (HPin : forall e, In e P -> In e (A ++ B) /\ fst e + snd e <= lo /\ fst e + snd e <> lo).
  { intros e He. destruct HP as [(-> & -> & Hlt)|(s & -> & Hs)].
    - split; [apply in_or_app; now left|]. specialize (Hlt e He). lia.
    - assert (Hin : In e ((P ++ [(lo, s)]) ++ B)).
      { apply in_or_app. left. apply in_or_app. now left. }
      split; [exact Hin|].
      assert (Hlo : In (lo, s) ((P ++ [(lo, s)]) ++ B)).
      { apply in_or_app. left. apply in_or_app. right. now left. }
      split; [|exact (Hco e (lo, s) Hin Hlo)].
      apply ranges_ok_app in Hok as (HokA & _ & _).
      apply ranges_ok_app in HokA as (_ & _ & Hc). apply (Hc e (lo, s) He). now left. }
  assert (HRin : forall e, In e R -> In e (A ++ B) /\ lo + len <= fst e /\ lo + len <> fst e).
  { intros e He. destruct HR as [(-> & Hlen & Hlt)|(ns & -> & Hlen)].
    - split; [apply in_or_app; now right|]. specialize (Hlt e He). lia.
    - assert (Hin : In e (A ++ (addr + size, ns) :: R)).
      { apply in_or_app. right. now right. }
      split; [exact Hin|].
      assert (Hn : In (addr + size, ns) (A ++ (addr + size, ns) :: R)).
      { apply in_or_app. right. now left. }
      split; [|rewrite Hlen; exact (Hco (addr + size, ns) e Hn Hin)].
      apply ranges_ok_app in Hok as (_ & HokB & _).
      apply ranges_ok_cons in HokB as (_ & Hall & _). rewrite Forall_forall in Hall.
      apply list_elem_of_In, Hall in He. unfold range_before in He. cbn in He. lia. }
  assert (Hlen : lo < lo + len).
  { destruct HP as [(_ & -> & _)|(s & -> & Hs)];
      destruct HR as [(_ & Hl & _)|(ns & -> & Hl)]; try lia.
    - assert (0 < ns) by (apply (Hpos (addr + size, ns)); apply in_or_app; right; now left). lia.
    - assert (0 < s).
      { apply (Hpos (lo, s)). apply in_or_app. left. apply in_or_app. right. now left. }
      lia.
    - assert (0 < s).
      { apply (Hpos (lo, s)). apply in_or_app. left. apply in_or_app. right. now left. }
      assert (0 < ns) by (apply (Hpos (addr + size, ns)); apply in_or_app; right; now left).
      lia. }
  intros a b Ha Hb.
  apply in_app_or in Ha as [Ha|[<-|Ha]]; apply in_app_or in Hb as [Hb|[<-|Hb]]; cbn [fst snd].
  - apply Hco; [apply (HPin a Ha)|apply (HPin b Hb)].
  - apply (HPin a Ha).
  - destruct (HPin a Ha) as (_ & Hle & _). destruct (HRin b Hb) as (_ & Hge & _). lia.
  - destruct (HPin b Hb) as (Hin & Hle & _). specialize (Hpos b Hin). lia.
  - lia.
  - apply (HRin b Hb).
  - destruct (HRin a Ha) as (Hin & Hge & _). destruct (HPin b Hb) as (Hinb & Hle & _).
    pose proof (Hpos a Hin). pose proof (Hpos b Hinb). lia.
  - destruct (HRin a Ha) as (Hin & Hge & _). specialize (Hpos a Hin). lia.
  - apply Hco; [apply (HRin a Ha)|apply (HRin b Hb)].
Qed.

Lemma free_range_keeps_coalesced_witness :
  coalesced (free_range 0x3000 0x1000 [(0x1000, 0x2000); (0x4000, 0x1000)]).
Proof.
  apply (free_range_keeps_coalesced [(0x1000, 0x2000); (0x4000, 0x1000)] 0x3000 0x1000).
  - split; repeat constructor; unfold range_before; cbn; lia.
  - intros a b [<-|[<-|[]]] [<-|[<-|[]]]; cbn; lia.
  - lia.
  - lia.
  - lia.
  - intros x Hx (b & l & [[= <- <-]|[[= <- <-]|[]]] & Hc); lia.
Defined.

Section AllocateRange.

Implicit Types (fr A B : list (Z * Z)) (e : Z * Z).

Lemma map_assign_mid A B k v v' :
  (forall e, In e A -> fst e < k) ->
  map_assign k v' (A ++ (k, v) :: B) = A ++ (k, v') :: B.
Proof.
  intros HA. induction A as [|[k0 v0] A IH]; cbn [app map_assign].
  - now rewrite Z.ltb_irrefl, Z.eqb_refl.
  - assert (k0 < k) by (apply (HA (k0, v0)); now left).
    replace (k <? k0) with false by (symmetry; apply Z.ltb_ge; lia).
    replace (k =? k0) with false by (symmetry; apply Z.eqb_neq; lia).
    f_equal. apply IH. intros e He. apply HA. now right.
Qed.

(** The intervals around one interval of the map. *)
Lemma ranges_ok_around A f s B :
  ranges_ok (A ++ (f, s) :: B) ->
  ranges_ok A /\ ranges_ok B /\ 0 <= f /\ 0 < s /\ f + s < 2 ^ 64 /\
  (forall e, In e A -> 0 <= fst e /\ fst e < fst e + snd e <= f) /\
  (forall e, In e B -> f + s <= fst e /\ fst e < fst e + snd e < 2 ^ 64).
Proof.
  intros Hok. apply ranges_ok_app in Hok as (HokA & HfB & Hc).
  apply ranges_ok_cons in HfB as ((Hf & Hs & H64) & Hall & HokB). cbn [fst snd] in *.
  split; [exact HokA|]. split; [exact HokB|]. do 3 (split; [assumption|]). split.
  - intros e He. pose proof (Hc e (f, s) He (or_introl eq_refl)) as Hb.
    destruct HokA as [_ FA]. rewrite Forall_forall in FA.
    apply list_elem_of_In, FA in He. unfold range_ok, range_before in *. cbn in Hb. lia.
  - intros e He. destruct HokB as [_ FB]. rewrite Forall_forall in FB, Hall.
    apply list_elem_of_In in He. pose proof (Hall e He) as Hb. apply FB in He.
    unfold range_ok, range_before in *. cbn in Hb. lia.
Qed.

(** [allocate_range] at the beginning or at the end of an interval. *)
Lemma allocate_range_at A f s B addr size :
  ranges_ok (A ++ (f, s) :: B) -> f <= addr -> 0 < size -> addr + size <= f + s ->
  addr = f \/ addr + size = f + s ->
  allocate_range addr size (A ++ (f, s) :: B) =
    Some (A ++ (if f <? addr then [(f, addr - f)] else []) ++
               (if addr + size <? f + s then [(addr + size, f + s - (addr + size))] else []) ++ B).
Proof.
  intros Hok Hf Hsize Hend Hat.
  destruct (ranges_ok_around A f s B Hok) as (HokA & HokB & Hf0 & Hs0 & H64 & HA & HB).
  unfold allocate_range, prev_range.
  change (A ++ (f, s) :: B) with (A ++ [(f, s)] ++ B). rewrite app_assoc.
  rewrite (upper_bound_mid (A ++ [(f, s)]) B addr).
  2:{ intros e He. apply in_app_or in He as [He|[<-|[]]]; [|exact Hf].
      specialize (HA e He). lia. }
  2:{ intros e He. specialize (HB e He). lia. }
  rewrite length_app. cbn [length]. replace (length A + 1)%nat with (S (length A)) by lia.
  rewrite <- app_assoc. cbn [app].
  rewrite list_lookup_middle by reflexivity.
  replace (s <? size) with false by (symmetry; apply Z.ltb_ge; lia).
  destruct (f =? addr) eqn:E.
  - apply Z.eqb_eq in E. subst addr. rewrite Z.ltb_irrefl. cbn [app].
    unfold map_erase. rewrite delete_middle. f_equal.
    destruct (s >? size) eqn:Es.
    + apply Z.gtb_lt in Es.
      replace (f + size <? f + s) with true by (symmetry; apply Z.ltb_lt; lia).
      rewrite !u64_small by lia. cbn [app].
      replace (f + s - (f + size)) with (s - size) by lia.
      apply map_insert_mid.
      * intros e He. specialize (HA e He). lia.
      * intros e He. specialize (HB e He). lia.
    + assert (s = size) by (rewrite Z.gtb_ltb in Es; apply Z.ltb_ge in Es; lia). subst s.
      now rewrite Z.ltb_irrefl.
  - apply Z.eqb_neq in E. destruct Hat as [->|Hat]; [lia|].
    replace (f <? addr) with true by (symmetry; apply Z.ltb_lt; lia).
    rewrite Hat, Z.ltb_irrefl. cbn [app].
    cbv zeta. rewrite (u64_small (addr - f)) by lia.
    rewrite (u64_small (s - (addr - f))) by lia.
    replace (s - (addr - f) >? size) with false
      by (symmetry; rewrite Z.gtb_ltb; apply Z.ltb_ge; lia).
    f_equal. apply map_assign_mid. intros e He. specialize (HA e He). lia.
Qed.

End AllocateRange.

(** X8: [allocate_range] at the beginning or at the end of a free
    interval takes exactly the range out of the map: the map keeps its
    order and covers what it covered before except the range. *)
Theorem allocate_range_at_an_end fr f s addr size :
  ranges_ok fr -> In (f, s) fr ->
  f <= addr -> 0 < size -> addr + size <= f + s ->
  addr = f \/ addr + size = f + s ->
  exists fr', allocate_range addr size fr = Some fr' /\ ranges_ok fr' /\
    forall x, covers fr' x <-> covers fr x /\ ~ addr <= x < addr + size.
Proof.
  intros Hok Hin Hf Hsize Hend Hat.
  apply in_split in Hin as (A & B & ->).
  rewrite (allocate_range_at A f s B addr size Hok Hf Hsize Hend Hat).
  eexists. split; [reflexivity|].
  destruct (ranges_ok_around A f s B Hok) as (HokA & HokB & Hf0 & Hs0 & H64 & HA & HB).
  assert (HcA : forall x, covers A x -> x < f).
  { intros x (b & l & Hbl & Hx). specialize (HA _ Hbl). cbn in HA. lia. }
  assert (HcB : forall x, covers B x -> f + s <= x).
  { intros x (b & l & Hbl & Hx). specialize (HB _ Hbl). cbn in HB. lia. }
  split.
  - apply ranges_ok_app. split; [exact HokA|]. split.
    + destruct (f <? addr) eqn:E1; destruct (addr + size <? f + s) eqn:E2; cbn [app];
        try apply Z.ltb_lt in E1; try apply Z.ltb_lt in E2;
        rewrite ?ranges_ok_cons; repeat split;
        try (unfold range_ok; cbn; lia); try apply HokB; try apply Forall_nil;
        try apply Forall_cons; try split; try apply Forall_forall;
        try (intros e He; apply list_elem_of_In, HB in He);
        unfold range_before; cbn; try lia.
    + intros a b Ha Hb. specialize (HA a Ha). unfold range_before.
      destruct (f <? addr) eqn:E1; destruct (addr + size <? f + s) eqn:E2; cbn [app] in Hb;
        try apply Z.ltb_lt in E1; try apply Z.ltb_lt in E2;
        repeat (destruct Hb as [<-|Hb]; [cbn; lia|]);
        specialize (HB b Hb); lia.
  - intros x. pose proof (covers_nil x) as Hnil. specialize (HcA x). specialize (HcB x).
    destruct (f <? addr) eqn:E1; destruct (addr + size <? f + s) eqn:E2;
      try apply Z.ltb_lt in E1; try apply Z.ltb_lt in E2;
      try apply Z.ltb_ge in E1; try apply Z.ltb_ge in E2;
      cbn [app]; rewrite ?covers_app, ?covers_cons; intuition lia.
Qed.

Lemma allocate_range_at_an_end_witness :
  exists fr', allocate_range 0x1000 0x1000 [(0x1000, 0x3000)] = Some fr' /\ ranges_ok fr' /\
    forall x, covers fr' x <-> covers [(0x1000, 0x3000)] x /\ ~ 0x1000 <= x < 0x1000 + 0x1000.
Proof.
  apply (allocate_range_at_an_end [(0x1000, 0x3000)] 0x1000 0x3000 0x1000 0x1000).
  - split; repeat constructor; unfold range_before; cbn; lia.
  - now left.
  - lia.
  - lia.
  - lia.
  - now left.
Defined.

Lemma ranges_ok_replace A f s B f' s' :
  ranges_ok (A ++ (f, s) :: B) -> f <= f' -> 0 < s' -> f' + s' <= f + s ->
  ranges_ok (A ++ (f', s') :: B).
Proof.
  intros Hok Hf Hs Hend.
  destruct (ranges_ok_around A f s B Hok) as (HokA & HokB & Hf0 & Hs0 & H64 & HA & HB).
  apply ranges_ok_app. split; [exact HokA|]. split.
  - apply ranges_ok_cons. split; [unfold range_ok; cbn; lia|]. split; [|exact HokB].
    apply Forall_forall. intros e He. apply list_elem_of_In, HB in He.
    unfold range_before. cbn. lia.
  - intros a b Ha [<-|Hb]; specialize (HA a Ha); unfold range_before; cbn; [lia|].
    specialize (HB b Hb). lia.
Qed.

Lemma ranges_ok_remove A f s B : ranges_ok (A ++ (f, s) :: B) -> ranges_ok (A ++ B).
Proof.
  intros Hok.
  destruct (ranges_ok_around A f s B Hok) as (HokA & HokB & Hf0 & Hs0 & H64 & HA & HB).
  apply ranges_ok_app. split; [exact HokA|]. split; [exact HokB|].
  intros a b Ha Hb. specialize (HA a Ha). specialize (HB b Hb). unfold range_before. lia.
Qed.

(** X9: giving a range back undoes taking it: when no interval of the
    map ends where another begins, [free_range] after [allocate_range] at the
    beginning or at the end of a free interval restores the map. *)
Theorem free_range_undoes_allocate_range fr f s addr size :
  ranges_ok fr -> coalesced fr -> In (f, s) fr ->
  f <= addr -> 0 < size -> addr + size <= f + s ->
  addr = f \/ addr + size = f + s ->
  exists fr', allocate_range addr size fr = Some fr' /\ free_range addr size fr' = fr.
Proof.
  intros Hok Hco Hin Hf Hsize Hend Hat.
  apply in_split in Hin as (A & B & ->).
  rewrite (allocate_range_at A f s B addr size Hok Hf Hsize Hend Hat).
  eexists. split; [reflexivity|].
  destruct (ranges_ok_around A f s B Hok) as (HokA & HokB & Hf0 & Hs0 & H64 & HA & HB).
  assert (Hfs : In (f, s) (A ++ (f, s) :: B)) by (apply in_or_app; right; now left).
  assert (HnoA : forall P lo s', A = P ++ [(lo, s')] -> lo + s' <> f).
  { intros P lo s' ->. apply (Hco (lo, s') (f, s)); [|exact Hfs].
    apply in_or_app. left. apply in_or_app. right. now left. }
  assert (HnoB : forall ns R, B = (f + s, ns) :: R -> False).
  { intros ns R ->. apply (Hco (f, s) (f + s, ns)); [exact Hfs| |reflexivity].
    apply in_or_app. right. right. now left. }
  destruct (f <? addr) eqn:E1.
  - (* the end of the interval *)
    apply Z.ltb_lt in E1. destruct Hat as [->|Hat]; [lia|].
    rewrite Hat, Z.ltb_irrefl. cbn [app].
    change (A ++ (f, addr - f) :: B) with (A ++ [(f, addr - f)] ++ B). rewrite app_assoc.
    destruct (free_range_shape (A ++ [(f, addr - f)]) B addr size)
      as (P & lo & len & R & -> & HP & HR); try lia.
    + rewrite <- app_assoc. apply (ranges_ok_replace A f s B); [exact Hok|lia..].
    + intros e He. apply in_app_or in He as [He|[<-|[]]]; [|cbn; lia].
      specialize (HA e He). lia.
    + intros e He. specialize (HB e He). lia.
    + destruct HP as [(_ & _ & Hlt)|(s' & HP & Hs')].
      { specialize (Hlt (f, addr - f)). cbn in Hlt.
        assert (f + (addr - f) < addr); [|lia].
        apply Hlt. apply in_or_app. right. now left. }
      apply app_inj_tail in HP as [<- [= <- <-]].
      destruct HR as [(-> & Hlen & _)|(ns & -> & _)].
      * replace len with s by lia. reflexivity.
      * exfalso. apply (HnoB ns R). now rewrite Hat.
  - (* the beginning of the interval *)
    apply Z.ltb_ge in E1. assert (addr = f) as -> by lia. cbn [app].
    destruct (f + size <? f + s) eqn:E2; cbn [app].
    + apply Z.ltb_lt in E2.
      destruct (free_range_shape A ((f + size, f + s - (f + size)) :: B) f size)
        as (P & lo & len & R & -> & HP & HR); try lia.
      * apply (ranges_ok_replace A f s B); [exact Hok|lia..].
      * intros e He. specialize (HA e He). lia.
      * intros e [<-|He]; [cbn; lia|]. specialize (HB e He). lia.
      * destruct HP as [(-> & -> & _)|(s' & -> & Hs')]; [|exfalso; exact (HnoA P lo s' eq_refl Hs')].
        destruct HR as [(_ & _ & Hlt)|(ns & [= <- ->] & Hlen)].
        { specialize (Hlt _ (or_introl eq_refl)). cbn in Hlt. lia. }
        replace len with s by lia. reflexivity.
    + apply Z.ltb_ge in E2. assert (s = size) as -> by lia.
      destruct (free_range_shape A B f size)
        as (P & lo & len & R & -> & HP & HR); try lia.
      * apply (ranges_ok_remove A f size B Hok).
      * intros e He. specialize (HA e He). lia.
      * intros e He. specialize (HB e He). lia.
      * destruct HP as [(-> & -> & _)|(s' & -> & Hs')]; [|exfalso; exact (HnoA P lo s' eq_refl Hs')].
        destruct HR as [(-> & Hlen & _)|(ns & -> & _)]; [|exfalso; now apply (HnoB ns R)].
        replace len with size by lia. reflexivity.
Qed.

Lemma free_range_undoes_allocate_range_witness :
  exists fr', allocate_range 0x3000 0x1000 [(0x1000, 0x3000); (0x8000, 0x1000)] = Some fr' /\
              free_range 0x3000 0x1000 fr' = [(0x1000, 0x3000); (0x8000, 0x1000)].
Proof.
  apply (free_range_undoes_allocate_range [(0x1000, 0x3000); (0x8000, 0x1000)]
           0x1000 0x3000 0x3000 0x1000).
  - split; repeat constructor; unfold range_before; cbn; lia.
  - intros a b [<-|[<-|[]]] [<-|[<-|[]]]; cbn; lia.
  - now left.
  - lia.
  - lia.
  - lia.
  - now right.
Defined.

(** ** Reserving a range *)

Section Reserve.

Implicit Types (fr A B P : list (Z * Z)) (e : Z * Z).

Lemma map_erase_key_mid A B k v :
  (forall e, In e A -> fst e <> k) ->
  map_erase_key k (A ++ (k, v) :: B) = A ++ B.
Proof.
  intros HA. induction A as [|[k0 v0] A IH]; cbn [app map_erase_key].
  - now rewrite Z.eqb_refl.
  - assert (k0 <> k) by (apply (HA (k0, v0)); now left).
    replace (k0 =? k) with false by (symmetry; apply Z.eqb_neq; lia).
    f_equal. apply IH. intros e He. apply HA. now right.
Qed.

(** The loop passes the intervals that are too short and stops at the first
    one that is not. *)
Lemma reserve_fit_shape size P A f s B :
  (forall e, In e A -> snd e < size) -> size <= s ->
  (forall e, In e (P ++ A) -> fst e <> f) ->
  reserve_fit size (length P) (A ++ (f, s) :: B) (P ++ A ++ (f, s) :: B) =
  Some (if s >? size then (u64 (f + u64 (s - size)), P ++ A ++ (f, u64 (s - size)) :: B)
        else (f, P ++ A ++ B)).
Proof.
  revert P. induction A as [|[k v] A IH]; intros P HA Hs Hk.
  - cbn [app reserve_fit]. destruct (s >? size) eqn:E.
    + cbv zeta. rewrite insert_app_r_alt by lia. rewrite Nat.sub_diag. reflexivity.
    + rewrite Z.gtb_ltb in E. apply Z.ltb_ge in E.
      replace (s =? size) with true by (symmetry; apply Z.eqb_eq; lia).
      rewrite app_nil_r in Hk. now rewrite map_erase_key_mid.
  - cbn [app reserve_fit].
    assert (v < size) by (apply (HA (k, v)); now left).
    replace (v >? size) with false by (symmetry; rewrite Z.gtb_ltb; apply Z.ltb_ge; lia).
    replace (v =? size) with false by (symmetry; apply Z.eqb_neq; lia).
    specialize (IH (P ++ [(k, v)])).
    rewrite length_app in IH. cbn [length] in IH.
    replace (length P + 1)%nat with (S (length P)) in IH by lia.
    rewrite <- !app_assoc in IH. cbn [app] in IH. apply IH.
    + intros e He. apply HA. now right.
    + exact Hs.
    + intros e He. apply Hk. exact He.
Qed.

Lemma reserve_fit_none size fr :
  (forall e, In e fr -> snd e < size) ->
  forall i fr0, reserve_fit size i fr fr0 = None.
Proof.
  induction fr as [|[k v] fr IH]; intros Hall i fr0; [reflexivity|].
  cbn [reserve_fit]. assert (v < size) by (apply (Hall (k, v)); now left).
  replace (v >? size) with false by (symmetry; rewrite Z.gtb_ltb; apply Z.ltb_ge; lia).
  replace (v =? size) with false by (symmetry; apply Z.eqb_neq; lia).
  apply IH. intros e He. apply Hall. now right.
Qed.

(** The intervals before the first one that is large enough. *)
Lemma first_fit_split size fr :
  (exists e, In e fr /\ size <= snd e) ->
  exists A f s B, fr = A ++ (f, s) :: B /\ (forall e, In e A -> snd e < size) /\ size <= s.
Proof.
  induction fr as [|[k v] fr IH]; intros (e & He & Hs); [destruct He|].
  destruct (Z_le_gt_dec size v) as [Hle|Hgt].
  - exists [], k, v, fr. repeat split; [intros e' []|exact Hle].
  - destruct IH as (A & f & s & B & -> & HA & Hfs).
    { destruct He as [<-|He]; [cbn in Hs; lia|]. now exists e. }
    exists ((k, v) :: A), f, s, B. repeat split; [|exact Hfs].
    intros e' [<-|He']; [cbn; lia|now apply HA].
Qed.

End Reserve.



(** X11: when every interval of the CPU's map is too short, [reserve_range]
    claims the lowest free superblock, returns its first address and hands
    the rest of the superblock to [free_range]; every address of the
    superblock then belongs to the CPU. *)
Theorem reserve_range_claims_superblock L cpu_id size sb fr (i : nat) :
  layout_ok L -> Z.of_nat (length sb) = superblock_len L -> superblock_len L < 2 ^ 32 ->
  (forall e, In e fr -> snd e < size) ->
  sb !! i = Some FREE ->
  (forall j v, (j < i)%nat -> sb !! j = Some v -> v <> FREE) ->
  0 < size <= superblock_size L ->
  let ret := Z.of_nat i * superblock_size L + superblock_area_base L in
  reserve_range L cpu_id size [] sb fr
    = Ret (ret, free_range (ret + size) (superblock_size L - size) fr) (<[i := cpu_id]> sb) /\
  forall off, 0 <= off < superblock_size L -> owner L (<[i := cpu_id]> sb) (ret + off) = Some cpu_id.
Proof.
  intros HL Hlen H32 Hshort Hi Hbefore Hsize ret.
  pose proof (lookup_lt_Some _ _ _ Hi) as Hlt.
  assert (Hs : 0 <= Z.of_nat i < superblock_len L) by lia.
  destruct (superblock_ptr_small L (Z.of_nat i) HL Hs) as [Hp Hend]. fold ret in Hp.
  split.
  - unfold reserve_range. rewrite (reserve_fit_none size fr Hshort).
    cbn [length allocate_superblocks].
    change 0 with (Z.of_nat 0) at 1.
    rewrite (scan_free_first sb i Hi Hbefore (length sb) O) by lia.
    replace (Z.of_nat i - 1 + 1) with (Z.of_nat i) by lia.
    assert (Hu : u32 (Z.of_nat i) = Z.of_nat i) by (unfold u32; apply Z.mod_small; lia).
    rewrite Hu, Z.leb_refl. cbn [hd apply_stores fold_left]. rewrite Nat2Z.id, Hi.
    unfold compare_exchange. rewrite Z.eqb_refl. rewrite Hp.
    destruct HL as (Hsz & Hb & Hm).
    rewrite (u64_small (ret + size)) by lia.
    rewrite (u64_small (superblock_size L - size)) by lia. reflexivity.
  - intros off Hoff. rewrite <- Hp. unfold owner.
    rewrite (superblock_index_ptr L (Z.of_nat i) off HL Hs Hoff).
    destruct HL as (Hsz & Hb & Hm).
    replace (superblock_ptr L (Z.of_nat i) + off <? superblock_area_base L) with false
      by (symmetry; apply Z.ltb_ge; nia).
    replace (superblock_ptr L (Z.of_nat i) + off >=? main_mem_area_base L) with false
      by (symmetry; rewrite Z.geb_leb; apply Z.leb_gt; lia).
    rewrite Nat2Z.id. apply list_lookup_insert_eq. exact Hlt.
Qed.

Lemma reserve_range_claims_superblock_witness :
  reserve_range sample_layout 5 0x3000 [] sample_superblocks [(0x1000, 0x1000)]
    = Ret (0x200080000000, free_range (0x200080000000 + 0x3000) (0x40000000 - 0x3000)
                             [(0x1000, 0x1000)])
          (<[2%nat := 5]> sample_superblocks) /\
  forall off, 0 <= off < 0x40000000 ->
    owner sample_layout (<[2%nat := 5]> sample_superblocks) (0x200080000000 + off) = Some 5.
Proof.
  apply (reserve_range_claims_superblock sample_layout 5 0x3000 sample_superblocks
           [(0x1000, 0x1000)] 2).
  - unfold layout_ok. cbn. lia.
  - vm_compute. reflexivity.
  - vm_compute. reflexivity.
  - intros e [<-|[]]. cbn. lia.
  - reflexivity.
  - intros [|[|j]] v Hj Hv; [| |lia]; cbn in Hv; injection Hv as <-; discriminate.
  - cbn. lia.
Defined.

(** ** Populating a page *)

(** X12: [populate] never replaces an entry that is there: on a slot that
    is not empty the slot and the accounted bytes stay as they are, whether
    the entry is skipped or the provider loses the exchange and frees the page
    it had allocated; only that page's memory can have changed. *)
Theorem populate_keeps_present_entry account p N write map_dirty leaf page offset slot m total :
  pte_empty slot = false ->
  let r := populate_page account p N write map_dirty leaf page offset slot m total in
  page_slot r = slot /\ page_total r = total /\
  Forall (fun e => forall a, e <> ev_pte_installed a) (page_log r) /\
  forall a, ~ page <= a < page + level_size N -> page_memory r a = m a.
Proof.
  intros Hne. unfold populate_page, populate_skip. rewrite Hne.
  assert (Hskip : forall total',
    (total' = total) ->
    slot = slot /\ total' = total /\
    Forall (fun e => forall a, e <> ev_pte_installed a) [] /\
    forall a, ~ page <= a < page + level_size N -> m a = m a).
  { intros total' ->. repeat split. constructor. }
  destruct (negb write || pte_writable slot); [now apply Hskip|].
  unfold provider_map, set_pte, write_pte, fill. unfold pte_empty in Hne.
  destruct p.
  - destruct (page =? 0); [now apply Hskip|]. rewrite Hne. cbn.
    split; [reflexivity|]. split; [reflexivity|]. split; [|reflexivity].
    repeat constructor. discriminate.
  - destruct (page =? 0) eqn:E; [now apply Hskip|]. rewrite Hne. cbn.
    split; [reflexivity|]. split; [reflexivity|]. split.
    + repeat constructor; discriminate.
    + intros a Ha. unfold memset.
      destruct ((page <=? a) && (a <? page + level_size N)) eqn:Ein; [|reflexivity].
      apply andb_true_iff in Ein as [H1 H2]. apply Z.leb_le in H1. apply Z.ltb_lt in H2. lia.
Qed.

Lemma populate_keeps_present_entry_witness :
  let r := populate_page true initialized_anonymous_page_provider 0 true true
             sample_pte 0x9000 0 (pte_mark_cow sample_pte true) (fun _ => 7) 0 in
  page_slot r = pte_mark_cow sample_pte true /\ page_total r = 0 /\
  Forall (fun e => forall a, e <> ev_pte_installed a) (page_log r) /\
  forall a, ~ 0x9000 <= a < 0x9000 + level_size 0 -> page_memory r a = 7.
Proof.
  apply (populate_keeps_present_entry true initialized_anonymous_page_provider 0 true true
           sample_pte 0x9000 0 (pte_mark_cow sample_pte true) (fun _ => 7) 0).
  reflexivity.
Defined.

(** X13: on an empty slot [populate] installs the proposed entry, pointed
    at the new page and marked dirty when the VMA maps dirty or the fault is a
    write, and accounts the size of the page; when the allocator has no page
    it reports failure and leaves everything as it was. *)
Theorem populate_fills_empty_slot account p N write map_dirty leaf page offset slot m total :
  pte_empty slot = true ->
  let r := populate_page account p N write map_dirty leaf page offset slot m total in
  (page <> 0 ->
   page_result r = true /\
   page_slot r = set_addr page (set_dirty (map_dirty || write) leaf) /\
   page_total r = (if account then u64 (total + level_size N) else total) /\
   In (ev_pte_installed page) (page_log r)) /\
  (page = 0 ->
   page_result r = false /\ page_slot r = slot /\ page_total r = total /\
   page_memory r = m /\ page_log r = []).
Proof.
  intros He. unfold populate_page, populate_skip. rewrite He.
  unfold provider_map, set_pte, write_pte, populate_dirty, pte_empty in *. split.
  - intros Hp. apply Z.eqb_neq in Hp. unfold fill.
    destruct p; rewrite ?Hp; cbn; rewrite ?Hp, He; cbn; repeat split; auto.
  - intros ->. unfold fill. destruct p; cbn; repeat split.
Qed.

Lemma populate_fills_empty_slot_witness :
  let r := populate_page true initialized_anonymous_page_provider 0 false true
             sample_pte 0x9000 0 make_empty_pte (fun _ => 7) 0 in
  (0x9000 <> 0 ->
   page_result r = true /\
   page_slot r = set_addr 0x9000 (set_dirty (true || false) sample_pte) /\
   page_total r = (if true then u64 (0 + level_size 0) else 0) /\
   In (ev_pte_installed 0x9000) (page_log r)) /\
  (0x9000 = 0 ->
   page_result r = false /\ page_slot r = make_empty_pte /\ page_total r = 0 /\
   page_memory r = (fun _ => 7) /\ page_log r = []).
Proof.
  apply (populate_fills_empty_slot true initialized_anonymous_page_provider 0 false true
           sample_pte 0x9000 0 make_empty_pte (fun _ => 7) 0).
  reflexivity.
Defined.

(** X14: [mprotect] never makes a copy-on-write entry writable: whatever
    permissions are asked for, [change_perm] on an entry that [pte_mark_cow]
    has marked leaves it read-only and marked. *)
Theorem cow_entry_stays_read_only pte perm :
  let pte' := fst (change_perm (pte_mark_cow pte true) perm) in
  pte_writable pte' = false /\ pte_is_cow pte' = true /\ pte_addr pte' = pte_addr pte.
Proof.
  unfold change_perm, pte_mark_cow, pte_is_cow. cbn.
  repeat split. unfold has_bits.
  rewrite <- Z.land_assoc.
  replace (Z.land (u32 (Z.lnot perm_write)) perm_write) with 0 by reflexivity.
  now rewrite Z.land_0_r.
Qed.

(** ** The batch of unmapped pages *)

Section Batch.

Implicit Types (tr : list tlb_event) (g : tlb_gather) (u : unpopulate).

Lemma gather_push_bound g addr size tr :
  (nr_pages g <= max_pages)%nat ->
  (nr_pages (snd (fst (gather_push g addr size tr))) <= max_pages)%nat.
Proof.
  intros Hle. unfold gather_push, gather_flush.
  destruct (Nat.eqb (nr_pages g) max_pages) eqn:E.
  - apply Nat.eqb_eq in E. rewrite E. cbn. unfold nr_pages, max_pages. cbn. lia.
  - apply Nat.eqb_neq in E. cbn. unfold nr_pages in *. cbn.
    rewrite length_app. cbn. lia.
Qed.

Lemma unpopulate_step_bound account st w :
  (nr_pages (_tlb_gather (fst st)) <= max_pages)%nat ->
  (nr_pages (_tlb_gather (fst (unpopulate_step account st w))) <= max_pages)%nat.
Proof.
  destruct st as [u tr]. cbn [fst snd]. intros Hle.
  destruct w as [N addr unmapped | pt]; cbn [unpopulate_step fst snd].
  - unfold unpopulate_page. destruct unmapped; [|exact Hle].
    pose proof (gather_push_bound (_tlb_gather u) addr (level_size N)
                  (tr ++ [ev_unmap addr (level_size N) true]) Hle) as Hpush.
    destruct (gather_push _ _ _ _) as [[flushed g'] tr']. exact Hpush.
  - exact Hle.
Qed.

End Batch.

(** X15: the batch of [tlb_gather] never holds more than [max_pages] pages,
    whatever the walker visits: [push] writes inside the array. *)
Theorem tlb_gather_never_overflows (account : bool) (walk : list walk_step) :
  (nr_pages (_tlb_gather (fst (fold_left (unpopulate_step account) walk (unpopulate_new, []))))
   <= max_pages)%nat.
Proof.
  assert (H : forall st,
    (nr_pages (_tlb_gather (fst st)) <= max_pages)%nat ->
    (nr_pages (_tlb_gather (fst (fold_left (unpopulate_step account) walk st))) <= max_pages)%nat).
  { induction walk as [|w walk IH]; intros st Hst; [exact Hst|].
    cbn [fold_left]. apply IH. now apply unpopulate_step_bound. }
  apply H. unfold unpopulate_new, nr_pages, max_pages. cbn. lia.
Qed.

Section Flushed.

Implicit Types (tr : list tlb_event) (g : tlb_gather) (u : unpopulate).

Lemma free_event_not_unmap p a s b : free_event p <> ev_unmap a s b.
Proof. unfold free_event. destruct (snd p =? page_size); discriminate. Qed.

(** After a flush that only frees pages, nothing is owed. *)
Lemma flushed_by_flush tr ps :
  unmap_is_flushed (tr ++ ev_flush_tlb_all :: map free_event ps).
Proof.
  intros i a s b Hi.
  apply lookup_app_Some in Hi as [Hi | [Hle Hi]].
  - exists (length tr). split; [now apply lookup_lt_Some in Hi|].
    rewrite lookup_app_r by lia. now rewrite Nat.sub_diag.
  - destruct (i - length tr)%nat as [|n]; cbn in Hi; [discriminate|].
    change (map free_event ps) with (free_event <$> ps) in Hi.
    apply list_lookup_fmap_Some in Hi as (q & Hq & _).
    symmetry in Hq. now apply free_event_not_unmap in Hq.
Qed.

Lemma unmap_is_flushed_owed u tr : unmap_is_flushed tr -> flush_owed u tr.
Proof. intros H i a s b Hi. left. exact (H i a s b Hi). Qed.

Lemma gather_push_nonempty g addr size tr :
  pages (snd (fst (gather_push g addr size tr))) <> [].
Proof.
  unfold gather_push.
  destruct (if Nat.eqb (nr_pages g) max_pages then gather_flush g tr else (false, g, tr))
    as [[flushed g1] tr1].
  cbn. destruct (pages g1); discriminate.
Qed.

Lemma unpopulate_step_owed account st w :
  flush_owed (fst st) (snd st) ->
  flush_owed (fst (unpopulate_step account st w)) (snd (unpopulate_step account st w)).
Proof.
  destruct st as [u tr]. cbn [fst snd]. intros Hinv.
  destruct w as [N addr unmapped | pt]; cbn [unpopulate_step fst snd].
  - unfold unpopulate_page. destruct unmapped.
    + pose proof (gather_push_nonempty (_tlb_gather u) addr (level_size N)
                    (tr ++ [ev_unmap addr (level_size N) true])) as Hne.
      destruct (gather_push _ _ _ _) as [[flushed g'] tr'].
      cbn [fst snd] in *. intros i a s b _. right. left. exact Hne.
    + cbn [fst snd]. intros i a s b _. right. right. reflexivity.
  - unfold unpopulate_intermediate_page_post. cbn [fst snd].
    intros i a s b Hi. apply lookup_app_Some in Hi as [Hi | [Hle Hi]].
    + destruct (Hinv i a s b Hi) as [(j & Hlt & Hj) | Hr]; [left|right; exact Hr].
      exists j. split; [exact Hlt|]. now apply lookup_app_l_Some.
    + destruct (i - length tr)%nat as [|n]; cbn in Hi; discriminate.
Qed.

Lemma unpopulate_walk_owed account walk st :
  flush_owed (fst st) (snd st) ->
  flush_owed (fst (fold_left (unpopulate_step account) walk st))
             (snd (fold_left (unpopulate_step account) walk st)).
Proof.
  revert st. induction walk as [|w walk IH]; intros st Hinv; [exact Hinv|].
  cbn [fold_left]. apply IH. now apply unpopulate_step_owed.
Qed.

End Flushed.

(** X16: when [operate_range(unpopulate)] returns, every call of a page
    provider's [unmap] has been followed by a [flush_tlb_all]: through the
    batch's flush when a page was handed over, through [tlb_flush_needed]
    when the provider kept the page. *)
Theorem unpopulate_flushes_every_unmap (account : bool) (walk : list walk_step) :
  unmap_is_flushed (snd (operate_range_unpopulate account walk)).
Proof.
  unfold operate_range_unpopulate.
  pose proof (unpopulate_walk_owed account walk (unpopulate_new, [])) as Hwalk.
  destruct (fold_left (unpopulate_step account) walk (unpopulate_new, [])) as [u tr].
  cbn [fst snd] in Hwalk.
  assert (Hinit : flush_owed unpopulate_new []).
  { intros i a s b Hi. now rewrite lookup_nil in Hi. }
  specialize (Hwalk Hinit).
  unfold unpopulate_tlb_flush_needed, gather_flush, nr_pages.
  destruct (pages (_tlb_gather u)) as [|p ps] eqn:Hg; cbn [length negb andb snd].
  - destruct (do_flush u) eqn:Hd; cbn [snd].
    + apply (flushed_by_flush tr []).
    + intros i a s b Hi.
      destruct (Hwalk i a s b Hi) as [Hl | [Hr | Hr]]; [exact Hl|congruence|congruence].
  - apply (flushed_by_flush tr (p :: ps)).
Qed.

Lemma unpopulate_step_total account st w :
  _total_operated (fst (unpopulate_step account st w)) =
  match w with
  | leaf_page N _ _ =>
      if account then u64 (_total_operated (fst st) + level_size N) else _total_operated (fst st)
  | intermediate_post _ => _total_operated (fst st)
  end.
Proof.
  destruct st as [u tr]. destruct w as [N addr unmapped | pt]; [|reflexivity].
  cbn [unpopulate_step fst snd]. unfold unpopulate_page.
  destruct unmapped; [|reflexivity].
  destruct (gather_push _ _ _ _) as [[flushed g'] tr']. reflexivity.
Qed.

Lemma unpopulate_walk_total account walk st :
  _total_operated (fst st) = u64 (_total_operated (fst st)) ->
  _total_operated (fst (fold_left (unpopulate_step account) walk st)) =
  if account then u64 (_total_operated (fst st) + leaf_bytes walk) else _total_operated (fst st).
Proof.
  revert st. induction walk as [|w walk IH]; intros st Hst.
  - cbn. rewrite Z.add_0_r. destruct account; [exact Hst|reflexivity].
  - cbn [fold_left]. rewrite IH; rewrite unpopulate_step_total.
    + destruct account; [|now destruct w].
      destruct w as [N addr unmapped | pt]; cbn [leaf_bytes fold_right]; [|reflexivity].
      unfold u64. rewrite Zplus_mod_idemp_l. f_equal. fold (leaf_bytes walk). lia.
    + destruct w as [N addr unmapped | pt]; [|exact Hst].
      destruct account; [|exact Hst]. unfold u64. now rewrite Zmod_mod.
Qed.

(** X17: the number [operate_range(unpopulate<account_opt::yes>)] returns is the
    size of all the leaf pages the walker visited, as a 64-bit word, whether
    the provider handed the page over or kept it; without accounting it
    is 0. *)
Theorem unpopulate_accounts_leaf_pages (walk : list walk_step) :
  fst (fst (operate_range_unpopulate true walk)) = u64 (leaf_bytes walk) /\
  fst (fst (operate_range_unpopulate false walk)) = 0.
Proof.
  unfold operate_range_unpopulate. split.
  - pose proof (unpopulate_walk_total true walk (unpopulate_new, []) eq_refl) as H.
    destruct (fold_left (unpopulate_step true) walk (unpopulate_new, [])) as [u tr].
    cbn [fst] in H. unfold unpopulate_tlb_flush_needed.
    destruct (gather_flush (_tlb_gather u) tr) as [[flushed g] tr1].
    destruct (negb flushed && do_flush u); cbn [fst _total_operated]; exact H.
  - pose proof (unpopulate_walk_total false walk (unpopulate_new, []) eq_refl) as H.
    destruct (fold_left (unpopulate_step false) walk (unpopulate_new, [])) as [u tr].
    cbn [fst] in H. unfold unpopulate_tlb_flush_needed.
    destruct (gather_flush (_tlb_gather u) tr) as [[flushed g] tr1].
    destruct (negb flushed && do_flush u); cbn [fst _total_operated]; exact H.
Qed.

(** ** Looking up an address *)

Section Registry.

Implicit Types (l : list vma) (v w : vma).

(** In an ordered registry the positions follow the start addresses. *)
Lemma ordered_lookup_lt l i j a b :
  ordered_disjoint l -> l !! i = Some a -> l !! j = Some b -> (i < j)%nat -> vma_before a b.
Proof.
  intros Hord Ha Hb Hlt. apply (ordered_after l i a b Hord Ha).
  apply list_elem_of_In. apply list_elem_of_lookup. exists (j - S i)%nat.
  rewrite lookup_drop. replace (S i + (j - S i))%nat with j by lia. exact Hb.
Qed.

Lemma ordered_lookup_inj l i j a b :
  ordered_disjoint l -> l !! i = Some a -> l !! j = Some b -> v_start a = v_start b -> i = j.
Proof.
  intros Hord Ha Hb Heq.
  destruct (Nat.lt_trichotomy i j) as [Hlt|[->|Hlt]]; [|reflexivity|].
  - destruct (ordered_lookup_lt l i j a b Hord Ha Hb Hlt). lia.
  - destruct (ordered_lookup_lt l j i b a Hord Hb Ha Hlt). lia.
Qed.

(** [lower_bound] is the number of VMAs that start below the address. *)
Lemma lower_bound_spec l addr i v :
  ordered_disjoint l -> l !! i = Some v ->
  ((i < lower_bound addr l)%nat <-> v_start v < addr).
Proof.
  intros Hord. revert i. induction l as [|a l IH]; intros i Hv; [discriminate|].
  apply StronglySorted_cons in Hord as [Hall Hord]. cbn [lower_bound].
  destruct (v_start a <? addr) eqn:E.
  - apply Z.ltb_lt in E. destruct i as [|i]; cbn in Hv.
    + injection Hv as <-. split; [intros _; exact E|lia].
    + rewrite <- (IH Hord i Hv). lia.
  - apply Z.ltb_ge in E. split; [lia|]. intros Hlt. exfalso.
    destruct i as [|i]; cbn in Hv.
    + injection Hv as <-. lia.
    + rewrite Forall_forall in Hall.
      apply list_elem_of_lookup_2, Hall in Hv. destruct Hv. lia.
Qed.

Lemma has_markers_upper l addr :
  has_markers l -> addr <= upper_vma_limit ->
  exists w, l !! lower_bound addr l = Some w /\ addr <= v_start w.
Proof.
  intros [_ (vn & Hn & Hu)] Ha. apply lower_bound_lookup. exists vn. split; [exact Hn|lia].
Qed.

(** Where a VMA that holds the address, or starts at it, stands relative to
    [lower_bound]. *)
Lemma lower_bound_at_start l addr i v :
  ordered_disjoint l -> l !! i = Some v -> v_start v = addr -> lower_bound addr l = i.
Proof.
  intros Hord Hv Hs.
  assert (Hge : ~ (i < lower_bound addr l)%nat).
  { rewrite (lower_bound_spec l addr i v Hord Hv). lia. }
  destruct (Nat.eq_dec (lower_bound addr l) i) as [|Hne]; [assumption|exfalso].
  assert (Hlt : (lower_bound addr l < i)%nat) by lia.
  destruct (lookup_lt_is_Some_2 l (lower_bound addr l)) as (w & Hw).
  { apply lookup_lt_Some in Hv. lia. }
  destruct (ordered_lookup_lt l _ i w v Hord Hw Hv Hlt) as [Hws _].
  pose proof (lower_bound_spec l addr _ w Hord Hw) as Hspec. lia.
Qed.

Lemma lower_bound_after_cover l addr i v :
  ordered_disjoint l -> l !! i = Some v -> v_start v < addr < v_end v ->
  lower_bound addr l = S i.
Proof.
  intros Hord Hv Hc.
  assert (Hlt : (i < lower_bound addr l)%nat).
  { rewrite (lower_bound_spec l addr i v Hord Hv). lia. }
  destruct (Nat.eq_dec (lower_bound addr l) (S i)) as [|Hne]; [assumption|exfalso].
  destruct (lookup_lt_is_Some_2 l (S i)) as (w & Hw).
  { pose proof (lower_bound_length addr l). lia. }
  destruct (ordered_lookup_lt l i (S i) v w Hord Hv Hw) as [_ Hend]; [lia|].
  pose proof (lower_bound_spec l addr (S i) w Hord Hw) as Hspec. lia.
Qed.

(** The search finds the VMA that holds the address or starts at it. *)
Lemma find_vma_holding l addr i v :
  ordered_disjoint l -> has_markers l -> addr <= upper_vma_limit ->
  l !! i = Some v -> v_start v <= addr -> addr < v_end v \/ v_start v = addr ->
  find_intersecting_vma l addr = Done i.
Proof.
  intros Hord Hm Ha Hv Hs Hc.
  destruct (has_markers_upper l addr Hm Ha) as (w & Hw & Hge).
  unfold find_intersecting_vma.
  destruct (Z.eq_dec (v_start v) addr) as [Heq|Hne].
  - rewrite (lower_bound_at_start l addr i v Hord Hv Heq), Hv.
    apply Z.eqb_eq in Heq. now rewrite Heq.
  - assert (Hin : v_start v < addr < v_end v) by lia.
    rewrite (lower_bound_after_cover l addr i v Hord Hv Hin) in *.
    rewrite Hw.
    destruct (ordered_lookup_lt l i (S i) v w Hord Hv Hw) as [_ Hend]; [lia|].
    replace (v_start w =? addr) with false by (symmetry; apply Z.eqb_neq; lia).
    rewrite Hv.
    replace (addr >=? v_start v) with true by (symmetry; apply Z.geb_le; lia).
    replace (addr <? v_end v) with true by (symmetry; apply Z.ltb_lt; lia).
    reflexivity.
Qed.

(** The search returns [end()] when no VMA holds the address or starts at
    it. *)
Lemma find_vma_none l addr :
  ordered_disjoint l -> has_markers l -> 0 <= addr <= upper_vma_limit ->
  (forall v, In v l -> v_start v <= addr -> ~ (addr < v_end v \/ v_start v = addr)) ->
  find_intersecting_vma l addr = Done (length l).
Proof.
  intros Hord Hm Ha Hnone.
  destruct (has_markers_upper l addr Hm (proj2 Ha)) as (w & Hw & Hge).
  unfold find_intersecting_vma. rewrite Hw.
  assert (Hwin : In w l) by (apply list_elem_of_In; eapply list_elem_of_lookup_2, Hw).
  replace (v_start w =? addr) with false.
  2:{ symmetry. apply Z.eqb_neq. intros Heq. apply (Hnone w Hwin); [lia|now right]. }
  destruct Hm as [(v0 & r & -> & H0) _].
  destruct (lower_bound addr (v0 :: r)) as [|it'] eqn:Hlb.
  - exfalso. cbn in Hw. injection Hw as <-. unfold lower_vma_limit in H0.
    apply (Hnone v0 Hwin); [lia|]. right. lia.
  - destruct (lookup_lt_is_Some_2 (v0 :: r) it') as (pv & Hpv).
    { apply lookup_lt_Some in Hw. lia. }
    rewrite Hpv.
    assert (Hps : v_start pv < addr).
    { apply (lower_bound_spec (v0 :: r) addr it' pv Hord Hpv). lia. }
    assert (Hpin : In pv (v0 :: r)).
    { apply list_elem_of_In. eapply list_elem_of_lookup_2, Hpv. }
    replace (addr >=? v_start pv) with true by (symmetry; apply Z.geb_le; lia).
    destruct (addr <? v_end pv) eqn:E; [|reflexivity].
    apply Z.ltb_lt in E. exfalso. apply (Hnone pv Hpin); [lia|now left].
Qed.

(** Rounding an address down to its page does not take it out of a VMA of
    whole pages, or into one. *)
Lemma covers_page v addr :
  page_aligned (v_start v) -> page_aligned (v_end v) ->
  (covers_byte v (align_down addr page_size) <-> covers_byte v addr).
Proof.
  unfold covers_byte, page_aligned, align_down, page_size. intros Hs He.
  Z.to_euclidean_division_equations. lia.
Qed.

(** Either some VMA starts at the address or none does. *)
Lemma classic_start l addr :
  (exists i v, l !! i = Some v /\ v_start v = addr) \/
  (forall v, In v l -> v_start v <> addr).
Proof.
  induction l as [|a l IH].
  - right. intros v [].
  - destruct (Z.eq_dec (v_start a) addr) as [Heq|Hne].
    + left. now exists O, a.
    + destruct IH as [(i & v & Hi & Hs)|Hnone].
      * left. now exists (S i), v.
      * right. intros v [<-|Hv]; [exact Hne|now apply Hnone].
Qed.

Lemma has_markers_sample : has_markers (vma_list sample_mm).
Proof.
  split.
  - eexists _, _. split; reflexivity.
  - eexists. split; [right; right; left; reflexivity|reflexivity].
Qed.

End Registry.

(** X18: [find_intersecting_vma] returns the VMA that holds the address,
    and also a VMA that only starts at it (an empty one, such as an edge
    marker); it returns [end()] when there is neither. *)
Theorem find_intersecting_vma_finds l addr :
  well_formed l -> has_markers l -> 0 <= addr <= upper_vma_limit ->
  (forall i v, l !! i = Some v -> v_start v <= addr ->
     addr < v_end v \/ v_start v = addr -> find_intersecting_vma l addr = Done i) /\
  ((forall v, In v l -> v_start v <= addr -> ~ (addr < v_end v \/ v_start v = addr)) ->
   find_intersecting_vma l addr = Done (length l)).
Proof.
  intros [Hord _] Hm Ha. split.
  - intros i v Hv Hs Hc. exact (find_vma_holding l addr i v Hord Hm (proj2 Ha) Hv Hs Hc).
  - intros Hnone. exact (find_vma_none l addr Hord Hm Ha Hnone).
Qed.

Lemma find_intersecting_vma_finds_witness :
  find_intersecting_vma (vma_list sample_mm) 0x2000 = Done 1%nat /\
  find_intersecting_vma (vma_list sample_mm) 0 = Done 0%nat /\
  find_intersecting_vma (vma_list sample_mm) 0x5000 = Done 3%nat.
Proof.
  destruct (find_intersecting_vma_finds (vma_list sample_mm) 0x2000 sample_well_formed
              has_markers_sample) as [H1 _]; [vm_compute; split; discriminate|].
  destruct (find_intersecting_vma_finds (vma_list sample_mm) 0 sample_well_formed
              has_markers_sample) as [H2 _]; [vm_compute; split; discriminate|].
  destruct (find_intersecting_vma_finds (vma_list sample_mm) 0x5000 sample_well_formed
              has_markers_sample) as [_ H3]; [vm_compute; split; discriminate|].
  split; [|split].
  - apply (H1 1%nat (anon_vma 0x1000 0x4000 (Z.lor perm_read perm_write) 0)).
    + reflexivity.
    + vm_compute. discriminate.
    + left. vm_compute. reflexivity.
  - apply (H2 0%nat (anon_vma lower_vma_limit lower_vma_limit 0 0)).
    + reflexivity.
    + vm_compute. discriminate.
    + right. reflexivity.
  - apply H3. intros v [<-|[<-|[<-|[]]]] Hs [Hc|Hc]; vm_compute in Hs, Hc;
      try discriminate; try (apply Hs; reflexivity).
Defined.

(** No access is allowed where there are no permissions. *)
Lemma access_fault_no_perm k : access_fault 0 k = true.
Proof. now destruct k. Qed.

(** X19: [vm_fault] at an address whose page has an owner among the
    workers, so that the assertion of [vma_lock] holds, hands a fault inside
    a VMA to that VMA's handler when the VMA's permissions allow the access,
    and delivers SIGSEGV when they do not, or when no VMA holds the address
    (empty VMAs having no permissions, as the edge markers).  Where the page
    has no such owner the assertion stops the program. *)
Theorem vm_fault_under_lock L sb l addr k :
  well_formed l -> has_markers l -> 0 <= addr < upper_vma_limit ->
  (forall v, In v l -> v_start v = v_end v -> _perm v = 0) ->
  (forall o, superblock_manager.vma_lock L sb (align_down addr page_size) = Done o ->
     (forall v, In v l -> covers_byte v addr ->
        mmu.vm_fault L sb l addr k =
          Done (if access_fault (_perm v) k then deliver_sigsegv (align_down addr page_size)
                else fault v (align_down addr page_size) k)) /\
     (~ mapped_byte l addr ->
      mmu.vm_fault L sb l addr k = Done (deliver_sigsegv (align_down addr page_size)))) /\
  (superblock_manager.vma_lock L sb (align_down addr page_size) = Aborted ->
   mmu.vm_fault L sb l addr k = Aborted).
Proof.
  intros [Hord Hok] Hm Ha Hempty.
  split; [|intros Hab; unfold mmu.vm_fault; cbv zeta; now rewrite Hab].
  intros o Hlock.
  assert (Hrun : mmu.vm_fault L sb l addr k =
                 (it ← find_intersecting_vma l (align_down addr page_size);
                  match l !! it with
                  | None => Done (deliver_sigsegv (align_down addr page_size))
                  | Some v =>
                      if access_fault (_perm v) k
                      then Done (deliver_sigsegv (align_down addr page_size))
                      else Done (fault v (align_down addr page_size) k)
                  end)).
  { unfold mmu.vm_fault. cbv zeta. rewrite Hlock. cbn [mbind outcome_bind].
    now rewrite (locked_find_intersecting_vma L sb l _ o Hlock). }
  rewrite Hrun. clear Hrun Hlock o.
  assert (Hpage : 0 <= align_down addr page_size <= upper_vma_limit).
  { unfold align_down, page_size, upper_vma_limit in *.
    Z.to_euclidean_division_equations. lia. }
  split.
  - intros v Hv Hc. destruct (Hok v Hv) as (Hs & He & _).
    apply (covers_page v addr Hs He) in Hc. destruct Hc as [Hc1 Hc2].
    apply list_elem_of_In, list_elem_of_lookup in Hv as (i & Hi).
    rewrite (find_vma_holding l _ i v Hord Hm (proj2 Hpage) Hi Hc1 (or_introl Hc2)).
    cbn [mbind outcome_bind]. rewrite Hi. now destruct (access_fault (_perm v) k).
  - intros Hgap.
    destruct (classic_start l (align_down addr page_size)) as [(i & v & Hi & Hs)|Hnone].
    + assert (Hv : In v l) by (apply list_elem_of_In; eapply list_elem_of_lookup_2, Hi).
      rewrite (find_vma_holding l _ i v Hord Hm (proj2 Hpage) Hi); [|lia|now right].
      cbn [mbind outcome_bind]. rewrite Hi.
      destruct (Z.eq_dec (v_start v) (v_end v)) as [Heq|Hne].
      * now rewrite (Hempty v Hv Heq), access_fault_no_perm.
      * exfalso. apply Hgap. exists v. split; [exact Hv|].
        destruct (Hok v Hv) as (Hps & Hpe & _ & Hle & _).
        apply (covers_page v addr Hps Hpe). unfold covers_byte. lia.
    + rewrite (find_vma_none l _ Hord Hm Hpage).
      * cbn [mbind outcome_bind]. now rewrite lookup_ge_None_2.
      * intros v Hv Hs [Hc|Hc]; [|now apply (Hnone v)].
        apply Hgap. exists v. split; [exact Hv|].
        destruct (Hok v Hv) as (Hps & Hpe & _).
        apply (covers_page v addr Hps Hpe). unfold covers_byte. lia.
Qed.

Lemma vm_fault_under_lock_witness :
  mmu.vm_fault sample_layout sample_superblocks (vma_list sample_mm) 0x2345 access_write
    = Done (populate_vma false 0x2000 page_size true) /\
  mmu.vm_fault sample_layout sample_superblocks (vma_list sample_mm) 0x5000 access_read
    = Done (deliver_sigsegv 0x5000) /\
  mmu.vm_fault sample_layout sample_superblocks (vma_list sample_mm) 0x200080000123
    access_read = Aborted.
Proof.
  assert (Hempty : forall v, In v (vma_list sample_mm) -> v_start v = v_end v -> _perm v = 0).
  { intros v [<-|[<-|[<-|[]]]] H; try reflexivity. vm_compute in H. discriminate. }
  split; [|split].
  - destruct (vm_fault_under_lock sample_layout sample_superblocks (vma_list sample_mm)
                0x2345 access_write sample_well_formed has_markers_sample) as [H _];
      [vm_compute; split; [discriminate|reflexivity]|exact Hempty|].
    destruct (H 64 eq_refl) as [H1 _].
    apply (H1 (anon_vma 0x1000 0x4000 (Z.lor perm_read perm_write) 0)).
    + right. now left.
    + vm_compute. split; [discriminate|reflexivity].
  - destruct (vm_fault_under_lock sample_layout sample_superblocks (vma_list sample_mm)
                0x5000 access_read sample_well_formed has_markers_sample) as [H _];
      [vm_compute; split; [discriminate|reflexivity]|exact Hempty|].
    destruct (H 64 eq_refl) as [_ H2].
    apply H2. intros (v & [<-|[<-|[<-|[]]]] & Hc); vm_compute in Hc; destruct Hc as [H1 H3];
      try (apply H1; reflexivity); discriminate.
  - destruct (vm_fault_under_lock sample_layout sample_superblocks (vma_list sample_mm)
                0x200080000123 access_read sample_well_formed has_markers_sample) as [_ H];
      [vm_compute; split; [discriminate|reflexivity]|exact Hempty|].
    apply H. reflexivity.
Defined.

(** What a fault handler populates: the faulting page or the huge page
    around it. *)
Lemma fault_block v addr huge :
  vma_ok v -> page_aligned addr -> covers_byte v addr ->
  huge = negb (has_flags v mmap_small) &&
         ((align_up (v_start v) huge_page_size <=? addr) &&
          (addr <? align_down (v_end v) huge_page_size)) ->
  let a := if huge then align_down addr huge_page_size else addr in
  let size := if huge then huge_page_size else page_size in
  v_start v <= a /\ a <= addr < a + size /\ a + size <= v_end v /\
  (huge = true -> has_flags v mmap_small = false /\ a mod huge_page_size = 0).
Proof.
  intros (Hs & He & H0 & Hle & Hup) Ha Hc ->.
  unfold covers_byte in Hc. cbv zeta.
  destruct (has_flags v mmap_small); cbn [negb andb].
  - unfold page_aligned, page_size in *. repeat split; try lia; try discriminate.
    Z.to_euclidean_division_equations. lia.
  - destruct (align_up (v_start v) huge_page_size <=? addr) eqn:E1; cbn [andb].
    + destruct (addr <? align_down (v_end v) huge_page_size) eqn:E2.
      * apply Z.leb_le in E1. apply Z.ltb_lt in E2.
        unfold align_up in E1. rewrite u64_small in E1
          by (unfold upper_vma_limit, huge_page_size in *; lia).
        unfold align_down, huge_page_size, page_aligned, page_size in *.
        repeat split; try reflexivity; Z.to_euclidean_division_equations; lia.
      * unfold page_aligned, page_size in *. repeat split; try lia; try discriminate.
        Z.to_euclidean_division_equations. lia.
    + unfold page_aligned, page_size in *. repeat split; try lia; try discriminate.
      Z.to_euclidean_division_equations. lia.
Qed.

(** X20: a fault handler populates inside its VMA: the block it hands to
    [populate_vma] holds the faulting page, is one 4K page or, for a VMA
    without the small flag, one aligned huge page, and lies within the VMA;
    the only other outcome is SIGBUS, for a file VMA at an offset at or
    beyond the size of the file. *)
Theorem fault_populates_inside_vma v addr k :
  vma_ok v -> page_aligned addr -> covers_byte v addr ->
  match fault v addr k with
  | populate_vma small a size w =>
      v_start v <= a /\ a <= addr < a + size /\ a + size <= v_end v /\
      small = has_flags v mmap_small /\ w = is_page_fault_write k /\
      (size = page_size \/ size = huge_page_size /\ small = false /\ a mod huge_page_size = 0)
  | deliver_sigbus a =>
      a = addr /\ exists f off ino dev,
        variant v = file_variant f off ino dev /\ st_size f <= file_offset v off addr
  | deliver_sigsegv _ => False
  end.
Proof.
  intros Hok Ha Hc. unfold fault.
  destruct (variant v) as [|f off ino dev] eqn:Hvar.
  - unfold vma_fault.
    pose proof (fault_block v addr _ Hok Ha Hc eq_refl) as Hb. cbv zeta in Hb.
    destruct (negb (has_flags v mmap_small) &&
              ((align_up (v_start v) huge_page_size <=? addr) &&
               (addr <? align_down (v_end v) huge_page_size))).
    + destruct Hb as (H1 & H2 & H3 & H4). destruct (H4 eq_refl) as [H5 H6].
      repeat split; try tauto; try (right; rewrite H5; tauto); try (now rewrite H5).
    + destruct Hb as (H1 & H2 & H3 & _). repeat split; try tauto; try (now left).
  - unfold file_vma_fault.
    destruct (file_offset v off addr >=? st_size f) eqn:Eo.
    + split; [reflexivity|]. exists f, off, ino, dev. split; [reflexivity|].
      apply Z.geb_le in Eo. exact Eo.
    + pose proof (fault_block v addr _ Hok Ha Hc eq_refl) as Hb. cbv zeta in Hb.
      destruct (negb (has_flags v mmap_small) &&
                ((align_up (v_start v) huge_page_size <=? addr) &&
                 (addr <? align_down (v_end v) huge_page_size))); cbn [andb].
      * destruct (file_offset v off (align_down (v_end v) huge_page_size) <? st_size f).
        -- destruct Hb as (H1 & H2 & H3 & H4). destruct (H4 eq_refl) as [H5 H6].
           repeat split; try tauto; try (right; rewrite H5; tauto); try (now rewrite H5).
        -- destruct Hb as (_ & _ & _ & H4). destruct (H4 eq_refl) as [H5 _].
           destruct Hok as (Hs & He & H0 & Hle & Hup). unfold covers_byte in Hc.
           unfold page_aligned, page_size in *.
           repeat split; try lia; try (now left); try (Z.to_euclidean_division_equations; lia).
      * destruct Hb as (H1 & H2 & H3 & _). repeat split; try tauto; try (now left).
Qed.

Lemma fault_populates_inside_vma_witness :
  match fault (anon_vma 0x200000 0x800000 perm_read 0) 0x412000 access_read with
  | populate_vma small a size w =>
      0x200000 <= a /\ a <= 0x412000 < a + size /\ a + size <= 0x800000 /\
      small = false /\ w = false /\
      (size = page_size \/ size = huge_page_size /\ small = false /\ a mod huge_page_size = 0)
  | deliver_sigbus a => False
  | deliver_sigsegv _ => False
  end.
Proof.
  pose proof (fault_populates_inside_vma (anon_vma 0x200000 0x800000 perm_read 0) 0x412000
                access_read) as H.
  vm_compute in H. vm_compute. apply H.
  - repeat split; discriminate.
  - reflexivity.
  - split; [discriminate|reflexivity].
Defined.

(** ** The mapped-range check is exact *)

Section Mapped.

Implicit Types (l vs : list vma) (v w : vma).

Lemma lookup_slice l first second j v :
  slice l first second !! j = Some v <-> (first + j < second)%nat /\ l !! (first + j)%nat = Some v.
Proof.
  unfold slice. rewrite lookup_take_Some, lookup_drop. split; intros [H1 H2]; split; auto; lia.
Qed.

Lemma In_slice_pos l first second v :
  In v (slice l first second) <->
  exists j, (first <= j < second)%nat /\ l !! j = Some v.
Proof.
  rewrite <- list_elem_of_In, list_elem_of_lookup. split.
  - intros (j & Hj). apply lookup_slice in Hj as [Hlt Hj]. exists (first + j)%nat.
    split; [lia|exact Hj].
  - intros (j & Hr & Hj). exists (j - first)%nat. apply lookup_slice.
    replace (first + (j - first))%nat with j by lia. split; [lia|exact Hj].
Qed.

Lemma ordered_slice l first second : ordered_disjoint l -> ordered_disjoint (slice l first second).
Proof.
  unfold ordered_disjoint, slice. intros Hord.
  rewrite <- (take_drop first l) in Hord. apply StronglySorted_app_1_r in Hord.
  rewrite <- (take_drop (second - first) (drop first l)) in Hord.
  now apply StronglySorted_app_1_l in Hord.
Qed.

(** The search for a range that begins inside a VMA starts at that VMA. *)
Lemma find_vmas_from_cover l rstart rend i v :
  ordered_disjoint l -> has_markers l -> rstart <= upper_vma_limit -> rstart < rend ->
  l !! i = Some v -> v_start v <= rstart < v_end v ->
  find_intersecting_vmas l rstart rend = Done (i, lower_bound rend l).
Proof.
  intros Hord Hm Hr Hlt Hv Hc. unfold find_intersecting_vmas.
  replace (rend <=? rstart) with false by (symmetry; apply Z.leb_gt; lia).
  cbv zeta.
  destruct (has_markers_upper l rstart Hm Hr) as (w & Hw & Hge).
  destruct (Z.eq_dec (v_start v) rstart) as [Heq|Hne].
  - rewrite (lower_bound_at_start l rstart i v Hord Hv Heq), Hv.
    replace (v_start v >? rstart) with false by (symmetry; rewrite Z.gtb_ltb; apply Z.ltb_ge; lia).
    cbn [mbind outcome_bind]. rewrite Hv.
    replace (v_start v >=? rend) with false by (symmetry; rewrite Z.geb_leb; apply Z.leb_gt; lia).
    reflexivity.
  - assert (Hin : v_start v < rstart < v_end v) by lia.
    rewrite (lower_bound_after_cover l rstart i v Hord Hv Hin) in *. rewrite Hw.
    destruct (ordered_lookup_lt l i (S i) v w Hord Hv Hw) as [_ Hend]; [lia|].
    replace (v_start w >? rstart) with true by (symmetry; apply Z.gtb_lt; lia).
    rewrite Hv.
    replace (v_end v >? rstart) with true by (symmetry; apply Z.gtb_lt; lia).
    cbn [mbind outcome_bind]. rewrite Hv.
    replace (v_start v >=? rend) with false by (symmetry; rewrite Z.geb_leb; apply Z.leb_gt; lia).
    reflexivity.
Qed.

(** The loop accepts a range whose bytes all lie in the VMAs it visits, when
    none of them ends below the start. *)
Lemma ismapped_loop_complete vs end_ :
  ordered_disjoint vs -> (forall v, In v vs -> v_start v <= v_end v) ->
  forall start, start < end_ ->
    (forall v, In v vs -> start <= v_end v) ->
    (forall x, start <= x < end_ -> exists v, In v vs /\ covers_byte v x) ->
    ismapped_loop vs start end_ = true.
Proof.
  intros Hord Hle. induction vs as [|p r IH]; intros start Hlt Hends Hcov.
  - destruct (Hcov start) as (v & [] & _). lia.
  - apply StronglySorted_cons in Hord as [Hall Hord]. rewrite Forall_forall in Hall.
    cbn [ismapped_loop].
    assert (Hp : v_start p <= start).
    { destruct (Hcov start) as (q & [<-|Hq] & Hc); [lia|apply Hc|].
      apply list_elem_of_In, Hall in Hq. destruct Hq. unfold covers_byte in Hc. lia. }
    replace (v_start p >? start) with false by (symmetry; rewrite Z.gtb_ltb; apply Z.ltb_ge; lia).
    destruct (v_end p >=? end_) eqn:E; [reflexivity|].
    rewrite Z.geb_leb in E. apply Z.leb_gt in E.
    apply IH.
    + exact Hord.
    + intros v Hv. apply Hle. now right.
    + exact E.
    + intros v Hv. pose proof (Hle v (or_intror Hv)).
      apply list_elem_of_In, Hall in Hv. destruct Hv. lia.
    + intros x Hx. pose proof (Hends p (or_introl eq_refl)) as Hpe.
      destruct (Hcov x) as (q & [<-|Hq] & Hc); [lia|unfold covers_byte in Hc; lia|].
      now exists q.
Qed.

(** A range whose bytes all lie in VMAs is accepted. *)
Lemma ismapped_complete l addr size :
  well_formed l -> has_markers l ->
  0 <= addr -> 0 < size -> addr + size <= upper_vma_limit ->
  (forall x, addr <= x < addr + size -> mapped_byte l x) ->
  ismapped l addr size = Done true.
Proof.
  intros [Hord Hok] Hm Ha Hs Hup Hall.
  destruct (Hall addr) as (v & Hv & Hc); [lia|].
  apply list_elem_of_In, list_elem_of_lookup in Hv as (i & Hi).
  unfold ismapped. cbv zeta.
  rewrite u64_small by (unfold upper_vma_limit in Hup; lia).
  rewrite (find_vmas_from_cover l addr (addr + size) i v Hord Hm); try lia; try assumption.
  cbn [mbind outcome_bind]. f_equal.
  apply ismapped_loop_complete.
  - now apply ordered_slice.
  - intros u Hu. apply In_slice in Hu. destruct (Hok u Hu) as (_ & _ & _ & Hle & _). exact Hle.
  - lia.
  - intros u Hu. apply In_slice_pos in Hu as (j & Hj & Hu).
    destruct (Nat.eq_dec j i) as [->|Hne].
    + rewrite Hi in Hu. injection Hu as <-. lia.
    + destruct (ordered_lookup_lt l i j v u Hord Hi Hu) as [_ Hend]; [lia|].
      assert (Hin : In u l) by (apply list_elem_of_In; eapply list_elem_of_lookup_2, Hu).
      destruct (Hok u Hin) as (_ & _ & _ & Hle & _). lia.
  - intros x Hx. destruct (Hall x Hx) as (u & Hu & Hcu). exists u. split; [|exact Hcu].
    apply list_elem_of_In, list_elem_of_lookup in Hu as (j & Hj).
    apply In_slice_pos. exists j. split; [|exact Hj]. split.
    + destruct (Nat.le_gt_cases i j) as [|Hlt]; [assumption|exfalso].
      destruct (ordered_lookup_lt l j i u v Hord Hj Hi Hlt) as [_ Hend]. lia.
    + apply (lower_bound_spec l (addr + size) j u Hord Hj). lia.
Qed.

End Mapped.

(** X21: [ismapped], called under the lock of the worker that owns the
    start of the range, is exact on a registry in order when the last byte
    of the range has the same owner: it accepts a range that is not empty
    exactly when every byte of it lies in a VMA, and an empty range it
    refuses.  When the byte before the end has another owner, the assertion
    of [find_intersecting_vmas] stops the program, for an empty range as
    well. *)
Theorem ismapped_under_owner L sb l addr size o :
  well_formed l -> has_markers l ->
  0 <= addr -> 0 <= size -> addr + size <= upper_vma_limit ->
  superblock_manager.vma_lock L sb addr = Done o ->
  (owner L sb (u64 (addr + size - 1)) = Some o ->
   (mmu.ismapped L sb l addr size = Done true <->
    0 < size /\ forall x, addr <= x < addr + size -> mapped_byte l x)) /\
  (forall o', owner L sb (u64 (addr + size - 1)) = Some o' -> o' <> o ->
   mmu.ismapped L sb l addr size = Aborted).
Proof.
  intros Hwf Hm Ha Hs Hup Hlock.
  assert (Hend : u64 (addr + size) = addr + size)
    by (apply u64_small; unfold upper_vma_limit in Hup; lia).
  split.
  - intros Hown.
    rewrite (locked_ismapped L sb l addr size o Hlock) by (now rewrite Hend).
    split.
    + intros Hmapped. split.
      * destruct (Z.eq_dec size 0) as [->|]; [exfalso|lia].
        unfold ismapped, find_intersecting_vmas in Hmapped. cbv zeta in Hmapped.
        rewrite Z.add_0_r, u64_small in Hmapped by (unfold upper_vma_limit in Hup; lia).
        rewrite Z.leb_refl in Hmapped. cbn [mbind outcome_bind] in Hmapped.
        unfold slice in Hmapped. rewrite Nat.sub_diag in Hmapped. discriminate.
      * intros x Hx. apply (ismapped_sound l addr size x); try assumption;
          unfold upper_vma_limit in Hup; lia.
    + intros [Hpos Hall]. now apply ismapped_complete.
  - intros o' Hown Hne. apply vma_lock_owner in Hlock as [Ho _].
    unfold mmu.ismapped, superblock_manager.find_intersecting_vmas. cbv zeta.
    rewrite Hend, Ho, Hown.
    replace (o =? o') with false by (symmetry; apply Z.eqb_neq; congruence).
    reflexivity.
Qed.

Lemma ismapped_under_owner_witness :
  (mmu.ismapped sample_layout sample_superblocks (vma_list sample_mm) 0x1000 0x3000
     = Done true <->
   0 < 0x3000 /\ forall x, 0x1000 <= x < 0x1000 + 0x3000 -> mapped_byte (vma_list sample_mm) x) /\
  mmu.ismapped sample_layout sample_superblocks (vma_list sample_mm) 0x1ffffffff000 0x2000
    = Aborted.
Proof.
  split.
  - destruct (ismapped_under_owner sample_layout sample_superblocks (vma_list sample_mm)
                0x1000 0x3000 64 sample_well_formed has_markers_sample) as [H _].
    + lia.
    + lia.
    + vm_compute. discriminate.
    + reflexivity.
    + apply H. reflexivity.
  - destruct (ismapped_under_owner sample_layout sample_superblocks (vma_list sample_mm)
                0x1ffffffff000 0x2000 64 sample_well_formed has_markers_sample) as [_ H].
    + lia.
    + lia.
    + vm_compute. discriminate.
    + reflexivity.
    + apply (H 0); [reflexivity|discriminate].
Defined.

(** ** Calls on a mapped range *)

Section Erase.

Implicit Types (l : list vma) (v w : vma).

(** Taking one VMA out of an ordered registry unmaps its bytes and no
    others. *)
Lemma mapped_byte_delete l i v x :
  ordered_disjoint l -> l !! i = Some v ->
  (mapped_byte (delete i l) x <-> mapped_byte l x /\ ~ covers_byte v x).
Proof.
  intros Hord Hi. rewrite delete_take_drop.
  pose proof (ordered_before l i v) as Hb. pose proof (ordered_after l i v) as Ha.
  rewrite <- (take_drop_middle l i v Hi) at 3.
  unfold mapped_byte, covers_byte. split.
  - intros (u & Hu & Hc). apply in_app_or in Hu as [Hu|Hu].
    + split; [exists u; split; [apply in_or_app; now left|exact Hc]|].
      destruct (Hb u Hord Hi Hu). lia.
    + split; [exists u; split; [apply in_or_app; right; now right|exact Hc]|].
      destruct (Ha u Hord Hi Hu). lia.
  - intros [(u & Hu & Hc) Hno]. exists u. split; [|exact Hc].
    apply in_app_or in Hu as [Hu|[<-|Hu]]; [apply in_or_app; now left|lia|].
    apply in_or_app. now right.
Qed.

End Erase.

(** X22: [munmap_anon] at an address whose owner is one of the workers,
    so that the assertion of [vma_lock] holds, removes the whole VMA that
    holds the address: the VMA is walked by [unpopulate], its range goes back
    to the free-range map, and afterwards exactly its bytes are no longer
    mapped; an address that lies in no VMA, and at which none starts, gives
    EINVAL and changes nothing. *)
Theorem munmap_anon_under_lock L sb st addr o :
  well_formed (vma_list st) -> has_markers (vma_list st) -> 0 <= addr <= upper_vma_limit ->
  superblock_manager.vma_lock L sb addr = Done o ->
  (forall i v, vma_list st !! i = Some v -> covers_byte v addr ->
     exists st', mmu.munmap_anon L sb st addr = Done (no_error, st') /\
       vma_list st' = delete i (vma_list st) /\
       free_ranges st' = free_range (v_start v) (vma_size v) (free_ranges st) /\
       effects st' = effects st ++
         [walk_unpopulate (_page_ops v) (v_start v) (v_start v) (vma_size v)] /\
       forall x, mapped_byte (vma_list st') x <->
                 mapped_byte (vma_list st) x /\ ~ covers_byte v x) /\
  ((forall v, In v (vma_list st) -> ~ covers_byte v addr /\ v_start v <> addr) ->
   mmu.munmap_anon L sb st addr = Done (EINVAL, st)).
Proof.
  intros [Hord Hok] Hm Ha Hlock.
  assert (Hrun : mmu.munmap_anon L sb st addr =
                 (v ← find_intersecting_vma (vma_list st) addr;
                  if (v =? length (vma_list st))%nat then Done (EINVAL, st)
                  else st' ← evacuate_vma st v; Done (no_error, st'))).
  { unfold mmu.munmap_anon. rewrite Hlock. cbn [mbind outcome_bind].
    now rewrite (locked_find_intersecting_vma L sb _ addr o Hlock). }
  rewrite Hrun. clear Hrun. split.
  - intros i v Hi Hc.
    rewrite (find_vma_holding _ addr i v Hord Hm (proj2 Ha) Hi (proj1 Hc) (or_introl (proj2 Hc))).
    cbn [mbind outcome_bind].
    pose proof (lookup_lt_Some _ _ _ Hi) as Hlt.
    replace (i =? length (vma_list st))%nat with false by (symmetry; apply Nat.eqb_neq; lia).
    unfold evacuate_vma. rewrite Hi. cbn [mbind outcome_bind].
    eexists. split; [reflexivity|]. cbn [vma_list free_ranges effects].
    do 3 (split; [reflexivity|]).
    intros x. apply (mapped_byte_delete _ i v x Hord Hi).
  - intros Hnone.
    rewrite (find_vma_none _ addr Hord Hm Ha).
    + cbn [mbind outcome_bind]. now rewrite Nat.eqb_refl.
    + intros v Hv Hs [Hc|Hc]; destruct (Hnone v Hv) as [H1 H2]; [|contradiction].
      apply H1. split; assumption.
Qed.

Lemma munmap_anon_under_lock_witness :
  (exists st', mmu.munmap_anon sample_layout sample_superblocks sample_mm 0x2000
                 = Done (no_error, st') /\
     vma_list st' = [anon_vma lower_vma_limit lower_vma_limit 0 0;
                     anon_vma upper_vma_limit upper_vma_limit 0 0]) /\
  mmu.munmap_anon sample_layout sample_superblocks sample_mm 0x5000 = Done (EINVAL, sample_mm).
Proof.
  destruct (munmap_anon_under_lock sample_layout sample_superblocks sample_mm 0x2000 64
              sample_well_formed has_markers_sample)
    as [H1 _]; [vm_compute; split; discriminate|reflexivity|].
  destruct (munmap_anon_under_lock sample_layout sample_superblocks sample_mm 0x5000 64
              sample_well_formed has_markers_sample)
    as [_ H2]; [vm_compute; split; discriminate|reflexivity|].
  split.
  - destruct (H1 1%nat (anon_vma 0x1000 0x4000 (Z.lor perm_read perm_write) 0) eq_refl)
      as (st' & Hrun & Hl & _).
    + vm_compute. split; [discriminate|reflexivity].
    + exists st'. split; [exact Hrun|exact Hl].
  - apply H2. intros v [<-|[<-|[<-|[]]]]; vm_compute; split;
      try discriminate; intros [H H']; try discriminate; apply H; reflexivity.
Defined.

Section Sync.

Implicit Types (l vs : list vma) (v w : vma).

Lemma ismapped_not_empty l addr :
  0 <= addr < 2 ^ 64 -> ismapped l addr 0 <> Done true.
Proof.
  intros Ha Hmapped.
  unfold ismapped, find_intersecting_vmas in Hmapped. cbv zeta in Hmapped.
  rewrite Z.add_0_r, u64_small in Hmapped by lia.
  rewrite Z.leb_refl in Hmapped. cbn [mbind outcome_bind] in Hmapped.
  unfold slice in Hmapped. rewrite Nat.sub_diag in Hmapped. discriminate.
Qed.

(** The VMAs the calls visit for a mapped range, when its length is rounded
    up to pages: a slice that begins with the VMA holding the first byte and
    holds every VMA with a byte of the range. *)
Lemma rounded_range_slice l addr len :
  well_formed l -> has_markers l ->
  0 <= addr -> 0 <= len -> addr + len <= upper_vma_limit ->
  ismapped l addr len = Done true ->
  exists i v,
    l !! i = Some v /\ covers_byte v addr /\
    find_intersecting_vmas l addr (u64 (addr + align_up len page_size))
      = Done (i, lower_bound (addr + align_up len page_size) l) /\
    (i < lower_bound (addr + align_up len page_size) l <= length l)%nat /\
    forall x u j, addr <= x < addr + len -> l !! j = Some u -> covers_byte u x ->
      (i <= j < lower_bound (addr + align_up len page_size) l)%nat.
Proof.
  intros [Hord Hok] Hm Ha Hl Hup Hmapped.
  assert (Hlen : 0 < len).
  { destruct (Z.eq_dec len 0) as [->|]; [|lia]. exfalso.
    apply (ismapped_not_empty l addr); [unfold upper_vma_limit in Hup; lia|exact Hmapped]. }
  assert (Hal : len <= align_up len page_size <= len + 4095).
  { split; [|apply align_up_page_le; lia].
    unfold align_up, align_down, page_size. unfold upper_vma_limit in Hup.
    rewrite u64_small by lia. Z.to_euclidean_division_equations. lia. }
  destruct (ismapped_sound l addr len addr) as (v & Hv & Hc); try assumption;
    try (unfold upper_vma_limit in Hup; lia).
  apply list_elem_of_In, list_elem_of_lookup in Hv as (i & Hi).
  exists i, v. split; [exact Hi|]. split; [exact Hc|].
  rewrite u64_small by (unfold upper_vma_limit in Hup; lia).
  split; [|split; [split|]].
  - apply (find_vmas_from_cover l addr _ i v Hord Hm); try assumption; lia.
  - apply (lower_bound_spec l _ i v Hord Hi). unfold covers_byte in Hc. lia.
  - apply lower_bound_length.
  - intros x u j Hx Hj Hcu. unfold covers_byte in *. split.
    + destruct (Nat.le_gt_cases i j) as [|Hlt]; [assumption|exfalso].
      destruct (ordered_lookup_lt l j i u v Hord Hj Hi Hlt) as [_ Hend]. lia.
    + apply (lower_bound_spec l _ j u Hord Hj). lia.
Qed.

Lemma sync_loop_anonymous vs start end_ err log :
  (forall v, In v vs -> variant v = anon_variant) ->
  sync_loop vs start end_ err log = (match vs with [] => err | _ => no_error end, log).
Proof.
  revert err. induction vs as [|v vs IH]; intros err Hall; [reflexivity|].
  cbn [sync_loop]. unfold vma_sync. rewrite (Hall v (or_introl eq_refl)). cbn [bad].
  rewrite IH by (intros w Hw; apply Hall; now right).
  now destruct vs.
Qed.

End Sync.

(** What the owner assertions of [msync] ask of a range inside the window:
    the last byte of the range as given, and of the range with its length
    rounded up to pages. *)
Lemma rounded_range_ends addr len :
  0 <= addr -> 0 <= len -> addr + len <= upper_vma_limit ->
  u64 (addr + len) = addr + len /\
  u64 (addr + align_up len page_size) = addr + align_up len page_size.
Proof.
  intros Ha Hl Hup. pose proof (align_up_page_le len Hl) as Hle.
  pose proof (align_up_page_range len) as Hr. unfold upper_vma_limit in Hup.
  split; apply u64_small; lia.
Qed.

(** X23: [msync] over anonymous memory has nothing to write back: on a
    range that [ismapped] accepts and whose VMAs are all anonymous, at an
    address whose owner is one of the workers, it returns success and
    changes nothing when the range with its length rounded up to pages ends
    with that owner too.  When the rounded
    range ends in a superblock of another owner, the owner assertion that
    [sync] runs after rounding stops the program. *)
Theorem msync_of_anonymous_memory_under_lock L sb st addr len o :
  well_formed (vma_list st) -> has_markers (vma_list st) ->
  0 <= addr -> 0 <= len -> addr + len <= upper_vma_limit ->
  (forall v, In v (vma_list st) -> variant v = anon_variant) ->
  superblock_manager.vma_lock L sb addr = Done o ->
  mmu.ismapped L sb (vma_list st) addr len = Done true ->
  (owner L sb (u64 (addr + align_up len page_size - 1)) = Some o ->
   mmu.msync L sb st addr len = Done (no_error, st)) /\
  (forall o', owner L sb (u64 (addr + align_up len page_size - 1)) = Some o' -> o' <> o ->
   mmu.msync L sb st addr len = Aborted).
Proof.
  intros Hwf Hm Ha Hl Hup Hanon Hlock Hmapped.
  destruct (rounded_range_ends addr len Ha Hl Hup) as [Hend Hrend].
  pose proof (ismapped_passed _ _ _ _ _ _ Hmapped) as Hmapped'.
  destruct (rounded_range_slice _ addr len Hwf Hm Ha Hl Hup Hmapped')
    as (i & v & Hi & Hc & Hfind & Hlt & _).
  unfold mmu.msync. rewrite Hlock. cbn [mbind outcome_bind].
  rewrite Hmapped. cbn [mbind outcome_bind negb].
  unfold mmu.sync. cbv zeta. split.
  - intros Hown.
    rewrite (locked_find_intersecting_vmas L sb _ addr _ o Hlock) by (now rewrite Hrend).
    rewrite Hfind. cbn [mbind outcome_bind].
    rewrite sync_loop_anonymous by (intros w Hw; apply Hanon; eapply In_slice, Hw).
    destruct (slice (vma_list st) i _) as [|w ws] eqn:Hs.
    + exfalso. apply (f_equal length) in Hs. unfold slice in Hs.
      rewrite length_take, length_drop in Hs. cbn in Hs. lia.
    + destruct st. reflexivity.
  - intros o' Hown Hne. apply vma_lock_owner in Hlock as [Ho _].
    unfold superblock_manager.find_intersecting_vmas. rewrite Hrend, Ho, Hown.
    replace (o =? o') with false by (symmetry; apply Z.eqb_neq; congruence).
    reflexivity.
Qed.

Lemma msync_of_anonymous_memory_under_lock_witness :
  mmu.msync sample_layout sample_superblocks sample_mm 0x1800 0x2000
    = Done (no_error, sample_mm).
Proof.
  destruct (msync_of_anonymous_memory_under_lock sample_layout sample_superblocks sample_mm
              0x1800 0x2000 64 sample_well_formed has_markers_sample) as [H _].
  - lia.
  - lia.
  - vm_compute. discriminate.
  - intros v [<-|[<-|[<-|[]]]]; reflexivity.
  - reflexivity.
  - vm_compute. reflexivity.
  - apply H. reflexivity.
Defined.

Section NoHugePage.

Variables (L : layout) (sb : list Z) (held : Z) (this : vma -> Z).
Hypothesis this_held : forall v, superblock_manager.vma_lock L sb (this v) = Done held.

Implicit Types (l vs : list vma) (v w : vma).

Lemma has_small_flag v : has_flags (update_flags v mmap_small) mmap_small = true.
Proof. unfold has_flags, update_flags. cbn. now apply has_bits_lor_r. Qed.

(** With every VMA object at an address of the worker whose lock is held,
    the loop of [nohugepage] marks the VMAs at the positions it visits and
    moves none. *)
Lemma nohugepage_loop_marks count :
  forall i start length st,
    (i + count <= List.length (vma_list st))%nat ->
    exists st', mmu.nohugepage_loop L sb held this count i start length st = Done st' /\
      free_ranges st' = free_ranges st /\
      forall j v, vma_list st !! j = Some v ->
        exists v', vma_list st' !! j = Some v' /\
          v_start v' = v_start v /\ v_end v' = v_end v /\
          ((i <= j < i + count)%nat -> has_flags v' mmap_small = true) /\
          (~ (i <= j < i + count)%nat -> v' = v).
Proof.
  induction count as [|c IH]; intros i start length st Hlen.
  - exists st. split; [reflexivity|]. split; [reflexivity|].
    intros j v Hj. exists v. repeat split; auto. lia.
  - cbn [mmu.nohugepage_loop].
    destruct (lookup_lt_is_Some_2 (vma_list st) i) as (v & Hv); [lia|]. rewrite Hv.
    set (st1 := if negb (has_flags v mmap_small)
                then add_effect (set_vma_list st (<[i := update_flags v mmap_small]> (vma_list st)))
                       (walk_splithugepages (v_start v) start (Z.min length (vma_size v)))
                else st).
    assert (Hstep :
      (if negb (has_flags v mmap_small) then
         v' ← mmu.update_flags L sb held (this v) v mmap_small;
         Done (add_effect (set_vma_list st (<[i := v']> (vma_list st)))
                 (walk_splithugepages (v_start v) start (Z.min length (vma_size v))))
       else Done st) = Done st1).
    { unfold st1, mmu.update_flags. destruct (has_flags v mmap_small); cbn [negb]; [reflexivity|].
      rewrite this_held. cbn [mbind outcome_bind]. now rewrite Z.eqb_refl. }
    rewrite Hstep. cbn [mbind outcome_bind].
    assert (H1 : free_ranges st1 = free_ranges st /\
                 List.length (vma_list st1) = List.length (vma_list st) /\
                 (exists v1, vma_list st1 !! i = Some v1 /\ v_start v1 = v_start v /\
                             v_end v1 = v_end v /\ has_flags v1 mmap_small = true) /\
                 forall j, j <> i -> vma_list st1 !! j = vma_list st !! j).
    { unfold st1. destruct (has_flags v mmap_small) eqn:Hf; cbn [negb].
      - repeat split. exists v. auto.
      - cbn [add_effect set_vma_list vma_list free_ranges].
        split; [reflexivity|]. split; [apply length_insert|]. split.
        + exists (update_flags v mmap_small).
          split; [apply list_lookup_insert_eq; eapply lookup_lt_Some, Hv|].
          repeat split. apply has_small_flag.
        + intros j Hj. now apply list_lookup_insert_ne. }
    destruct H1 as (Hfr & Hl1 & (v1 & Hv1 & Hs1 & He1 & Hf1) & Hother).
    destruct (IH (S i) (u64 (start + vma_size v)) (u64 (length - vma_size v)) st1)
      as (st' & Hrun & Hfr' & Hall); [lia|].
    exists st'. split; [exact Hrun|]. split; [congruence|].
    intros j w Hj. destruct (Nat.eq_dec j i) as [->|Hne].
    + rewrite Hv in Hj. injection Hj as <-.
      destruct (Hall i v1 Hv1) as (v' & Hv' & Hs' & He' & _ & Hsame).
      rewrite (Hsame ltac:(lia)) in Hv'. exists v1. repeat split; auto. lia.
    + rewrite <- (Hother j Hne) in Hj.
      destruct (Hall j w Hj) as (v' & Hv' & Hs' & He' & Hin & Hout).
      exists v'. repeat split; auto.
      * intros Hr. apply Hin. lia.
      * intros Hr. apply Hout. lia.
Qed.

End NoHugePage.

(** X24: [madvise] with [advise_nohugepage] on a range that [ismapped]
    accepts, called at an address whose owner is one of the workers, the
    range rounded up to pages ending with the same owner: when the VMA
    objects lie at addresses of that owner, so that the assertion of
    [update_flags] on the lock holds, it succeeds and marks every VMA that
    holds a byte of the range small, so that faults there populate 4K pages
    from then on; it moves no VMA and leaves the free ranges alone.  When
    the VMA that holds the start is not small yet and its object lies at an
    address of another worker, the assertion stops the program. *)
Theorem madvise_nohugepage_under_lock L sb this st addr len o :
  well_formed (vma_list st) -> has_markers (vma_list st) ->
  0 <= addr -> 0 <= len -> addr + len <= upper_vma_limit ->
  superblock_manager.vma_lock L sb addr = Done o ->
  owner L sb (u64 (addr + align_up len page_size - 1)) = Some o ->
  mmu.ismapped L sb (vma_list st) addr len = Done true ->
  ((forall v, superblock_manager.vma_lock L sb (this v) = Done o) ->
   exists st', mmu.advise L sb this st addr len advise_nohugepage = Done (no_error, st') /\
     free_ranges st' = free_ranges st /\
     (forall x, addr <= x < addr + len ->
        exists v', In v' (vma_list st') /\ covers_byte v' x /\ has_flags v' mmap_small = true) /\
     (forall x, mapped_byte (vma_list st) x -> mapped_byte (vma_list st') x)) /\
  ((forall v, In v (vma_list st) -> covers_byte v addr ->
      has_flags v mmap_small = false /\
      exists o', superblock_manager.vma_lock L sb (this v) = Done o' /\ o' <> o) ->
   mmu.advise L sb this st addr len advise_nohugepage = Aborted).
Proof.
  intros Hwf Hm Ha Hl Hup Hlock Hround Hmapped.
  destruct (rounded_range_ends addr len Ha Hl Hup) as [Hend Hrend].
  pose proof (ismapped_passed _ _ _ _ _ _ Hmapped) as Hmapped'.
  destruct (rounded_range_slice _ addr len Hwf Hm Ha Hl Hup Hmapped')
    as (i & v & Hi & Hc & Hfind & Hlt & Hpos).
  unfold mmu.advise. rewrite Hlock. cbn [mbind outcome_bind].
  rewrite Hmapped. cbn [mbind outcome_bind negb].
  unfold mmu.nohugepage. cbv zeta.
  rewrite (locked_find_intersecting_vmas L sb _ addr _ o Hlock) by (now rewrite Hrend).
  rewrite Hfind. cbn [mbind outcome_bind].
  set (s := lower_bound (addr + align_up len page_size) (vma_list st)) in *.
  split.
  - intros Hthis.
    destruct (nohugepage_loop_marks L sb o this Hthis (s - i) i addr (align_up len page_size) st)
      as (st' & Hrun & Hfr & Hall); [lia|].
    rewrite Hrun. cbn [mbind outcome_bind].
    exists st'. split; [reflexivity|]. split; [exact Hfr|]. split.
    + intros x Hx.
      destruct (ismapped_sound (vma_list st) addr len x) as (u & Hu & Hcu); try assumption;
        try (unfold upper_vma_limit in Hup; lia).
      apply list_elem_of_In, list_elem_of_lookup in Hu as (j & Hj).
      destruct (Hall j u Hj) as (u' & Hu' & Hs' & He' & Hin & _).
      exists u'. split; [apply list_elem_of_In; eapply list_elem_of_lookup_2, Hu'|].
      split; [unfold covers_byte in *; lia|].
      apply Hin. pose proof (Hpos x u j Hx Hj Hcu). lia.
    + intros x (u & Hu & Hcu).
      apply list_elem_of_In, list_elem_of_lookup in Hu as (j & Hj).
      destruct (Hall j u Hj) as (u' & Hu' & Hs' & He' & _).
      exists u'. split; [apply list_elem_of_In; eapply list_elem_of_lookup_2, Hu'|].
      unfold covers_byte in *. lia.
  - intros Hother.
    destruct (Hother v) as (Hflag & o' & Hobj & Hne);
      [apply list_elem_of_In; eapply list_elem_of_lookup_2, Hi|exact Hc|].
    destruct (s - i)%nat as [|c] eqn:Hcount; [lia|].
    cbn [mmu.nohugepage_loop]. rewrite Hi, Hflag. cbn [negb].
    unfold mmu.update_flags. rewrite Hobj. cbn [mbind outcome_bind].
    replace (o' =? o) with false by (symmetry; apply Z.eqb_neq; exact Hne).
    reflexivity.
Qed.

Lemma madvise_nohugepage_under_lock_witness :
  (exists st', mmu.advise sample_layout sample_superblocks (fun _ => 0x400000100000) sample_mm
                 0x1800 0x2000 advise_nohugepage = Done (no_error, st') /\
     free_ranges st' = free_ranges sample_mm /\
     (forall x, 0x1800 <= x < 0x1800 + 0x2000 ->
        exists v', In v' (vma_list st') /\ covers_byte v' x /\ has_flags v' mmap_small = true) /\
     (forall x, mapped_byte (vma_list sample_mm) x -> mapped_byte (vma_list st') x)) /\
  mmu.advise sample_layout sample_superblocks (fun _ => 0x200040000100) sample_mm
    0x1800 0x2000 advise_nohugepage = Aborted.
Proof.
  split.
  - destruct (madvise_nohugepage_under_lock sample_layout sample_superblocks
                (fun _ => 0x400000100000) sample_mm 0x1800 0x2000 64 sample_well_formed
                has_markers_sample) as [H _].
    + lia.
    + lia.
    + vm_compute. discriminate.
    + reflexivity.
    + reflexivity.
    + vm_compute. reflexivity.
    + apply H. intros v. reflexivity.
  - destruct (madvise_nohugepage_under_lock sample_layout sample_superblocks
                (fun _ => 0x200040000100) sample_mm 0x1800 0x2000 64 sample_well_formed
                has_markers_sample) as [_ H].
    + lia.
    + lia.
    + vm_compute. discriminate.
    + reflexivity.
    + reflexivity.
    + vm_compute. reflexivity.
    + apply H. intros v [<-|[<-|[<-|[]]]] Hc; vm_compute in Hc; destruct Hc as [H1 H2];
        try (exfalso; apply H1; reflexivity); try discriminate.
      split; [reflexivity|]. exists 1. split; [reflexivity|discriminate].
Defined.

Section TotalSize.

Implicit Types (l : list vma) (v w : vma).

Lemma all_vmas_size_from l a :
  fold_left (fun s v => u64 (s + vma_size v)) l (u64 a)
    = u64 (a + fold_right Z.add 0 (map vma_size l)).
Proof.
  revert a. induction l as [|v l IH]; intros a; cbn [fold_left fold_right map].
  - now rewrite Z.add_0_r.
  - rewrite IH. unfold u64. rewrite <- Z.add_assoc, Zplus_mod_idemp_l. reflexivity.
Qed.

Lemma all_vmas_size_sum l : all_vmas_size l = u64 (fold_right Z.add 0 (map vma_size l)).
Proof. unfold all_vmas_size. exact (all_vmas_size_from l 0). Qed.

Lemma sum_sizes_app l1 l2 :
  fold_right Z.add 0 (map vma_size (l1 ++ l2))
    = fold_right Z.add 0 (map vma_size l1) + fold_right Z.add 0 (map vma_size l2).
Proof. induction l1 as [|v l1 IH]; cbn; [reflexivity|]. rewrite IH. lia. Qed.

End TotalSize.



(** ** Reserving address space in the set of ranges *)

Section ReserveHole.

Variables (limit : Z) (s : list vma_range) (start size : Z) (small : bool).
Hypothesis sorted : ranges_sorted s.
Hypothesis size_pos : 0 < size.
Hypothesis size_small : small = (size <? huge_page_size).
Hypothesis in_space : 0 <= start /\ start + size < 2 ^ 63.

(** Between two neighbours of the set there is nothing. *)
Lemma hole_between p rp rn a :
  s !! p = Some rp -> s !! S p = Some rn ->
  r_end rp <= a -> a + size <= r_start rn -> hole s a size.
Proof.
  intros Hp Hn Ha Hb r Hr.
  apply list_elem_of_In, list_elem_of_lookup in Hr as (j & Hj).
  destruct sorted as [Hord Hok].
  assert (Hlt : forall i k a b, s !! i = Some a -> s !! k = Some b -> (i < k)%nat ->
            range_apart a b).
  { intros i k x y Hi Hk Hik.
    rewrite <- (take_drop_middle s i x Hi) in Hord.
    apply StronglySorted_app_1_r, StronglySorted_cons in Hord as [Hall _].
    rewrite Forall_forall in Hall. apply Hall.
    apply list_elem_of_lookup. exists (k - S i)%nat.
    rewrite lookup_drop. replace (S i + (k - S i))%nat with k by lia. exact Hk. }
  destruct (Nat.lt_trichotomy j p) as [Hjp|[->|Hjp]].
  - left. destruct (Hlt j p r rp Hj Hp Hjp) as [_ He].
    assert (Hrp : In rp s) by (apply list_elem_of_In; eapply list_elem_of_lookup_2, Hp).
    destruct (Hok rp Hrp). lia.
  - rewrite Hp in Hj. injection Hj as <-. now left.
  - right. destruct (Nat.eq_dec j (S p)) as [->|Hne].
    + rewrite Hn in Hj. injection Hj as <-. exact Hb.
    + destruct (Hlt (S p) j rn r Hn Hj) as [Hs _]; lia.
Qed.

(** The loop settles only on a hole, and it comes to an end when some range
    starts above the limit. *)
Lemma reserve_loop_hole fuel p good_enough :
  (good_enough = 0 \/ hole s good_enough size) ->
  (exists k r, (p < k)%nat /\ s !! k = Some r /\ limit < r_start r /\ (k - p <= fuel)%nat) ->
  (exists res, reserve_loop fuel limit s start size small p (S p) good_enough = Done res /\
               hole s res size) \/
  reserve_loop fuel limit s start size small p (S p) good_enough = Thrown ENOMEM.
Proof.
  revert p good_enough. induction fuel as [|fuel IH]; intros p ge Hge (k & rk & Hpk & Hk & Hlim & Hfuel);
    [lia|].
  cbn [reserve_loop].
  destruct (lookup_lt_is_Some_2 s (S p)) as (rn & Hn); [apply lookup_lt_Some in Hk; lia|].
  destruct (lookup_lt_is_Some_2 s p) as (rp & Hp); [apply lookup_lt_Some in Hk; lia|].
  rewrite Hn.
  assert (Hrp : In rp s) by (apply list_elem_of_In; eapply list_elem_of_lookup_2, Hp).
  assert (Hrn : In rn s) by (apply list_elem_of_In; eapply list_elem_of_lookup_2, Hn).
  destruct sorted as [Hord Hok].
  destruct (Hok rp Hrp) as [Hrp1 Hrp2]. destruct (Hok rn Hrn) as [Hrn1 Hrn2].
  destruct (r_start rn <=? limit) eqn:El.
  - rewrite Hp.
    assert (Hnext : (exists res, reserve_loop fuel limit s start size small (S p) (S (S p)) ge
                                 = Done res /\ hole s res size) \/
                    reserve_loop fuel limit s start size small (S p) (S (S p)) ge = Thrown ENOMEM).
    { apply IH; [exact Hge|]. exists k, rk.
      assert (S p <> k).
      { intros <-. rewrite Hn in Hk. injection Hk as <-. apply Z.leb_le in El. lia. }
      repeat split; try assumption; lia. }
    assert (Hnext' : forall ge', hole s ge' size ->
              (exists res, reserve_loop fuel limit s start size small (S p) (S (S p)) ge'
                           = Done res /\ hole s res size) \/
              reserve_loop fuel limit s start size small (S p) (S (S p)) ge' = Thrown ENOMEM).
    { intros ge' Hge'. apply IH; [now right|]. exists k, rk.
      assert (S p <> k).
      { intros <-. rewrite Hn in Hk. injection Hk as <-. apply Z.leb_le in El. lia. }
      repeat split; try assumption; lia. }
    destruct ((start >=? r_end rp) && (u64 (start + size) <=? r_start rn)) eqn:E1.
    + left. exists start. split; [reflexivity|].
      apply andb_true_iff in E1 as [Ea Eb]. apply Z.geb_le in Ea. apply Z.leb_le in Eb.
      rewrite u64_small in Eb by lia.
      apply (hole_between p rp rn); assumption.
    + destruct ((r_end rp >=? start) && (u64 (r_start rn - r_end rp) >=? size)) eqn:E2;
        [|exact Hnext].
      apply andb_true_iff in E2 as [Ea Eb]. apply Z.geb_le in Ea. apply Z.geb_le in Eb.
      assert (Hapart : r_end rp <= r_start rn).
      { rewrite <- (take_drop_middle s p rp Hp) in Hord.
        apply StronglySorted_app_1_r, StronglySorted_cons in Hord as [Hall _].
        rewrite Forall_forall in Hall. apply (Hall rn).
        apply list_elem_of_lookup. exists O. rewrite lookup_drop.
        now rewrite Nat.add_0_r. }
      rewrite u64_small in Eb by lia.
      assert (Hfit : hole s (r_end rp) size).
      { apply (hole_between p rp rn); try assumption; lia. }
      cbv zeta. destruct small eqn:Es.
      * left. exists (r_end rp). split; [reflexivity|exact Hfit].
      * assert (Hbig : huge_page_size <= size).
        { symmetry in size_small. apply Z.ltb_ge in size_small. exact size_small. }
        assert (Hup : r_end rp <= align_up (r_end rp) huge_page_size < r_end rp + huge_page_size).
        { unfold align_up, align_down, huge_page_size. rewrite u64_small by lia.
          Z.to_euclidean_division_equations. lia. }
        rewrite (u64_small (r_start rn - align_up (r_end rp) huge_page_size))
          by (unfold huge_page_size in *; lia).
        destruct (r_start rn - align_up (r_end rp) huge_page_size >=? size) eqn:E3.
        -- left. eexists. split; [reflexivity|]. apply Z.geb_le in E3.
           apply (hole_between p rp rn); try assumption; lia.
        -- now apply Hnext'.
  - destruct Hge as [->|Hge].
    + right. reflexivity.
    + destruct (ge =? 0); [right; reflexivity|].
      left. exists ge. split; [reflexivity|exact Hge].
Qed.

End ReserveHole.

Section ReserveStart.

Implicit Types (s : list vma_range) (r : vma_range).

Lemma range_lower_bound_spec s addr i r :
  StronglySorted range_apart s -> s !! i = Some r ->
  ((i < range_lower_bound addr s)%nat <-> r_start r < addr).
Proof.
  intros Hord. revert i. induction s as [|a s IH]; intros i Hr; [discriminate|].
  apply StronglySorted_cons in Hord as [Hall Hord]. cbn [range_lower_bound].
  destruct (r_start a <? addr) eqn:E.
  - apply Z.ltb_lt in E. destruct i as [|i]; cbn in Hr.
    + injection Hr as <-. split; [intros _; exact E|lia].
    + rewrite <- (IH Hord i Hr). lia.
  - apply Z.ltb_ge in E. split; [lia|]. intros Hlt. exfalso.
    destruct i as [|i]; cbn in Hr.
    + injection Hr as <-. lia.
    + rewrite Forall_forall in Hall.
      apply list_elem_of_lookup_2, Hall in Hr. destruct Hr. lia.
Qed.

Lemma range_lower_bound_length s addr : (range_lower_bound addr s <= length s)%nat.
Proof. induction s as [|a s IH]; cbn; [lia|]. destruct (r_start a <? addr); cbn; lia. Qed.

End ReserveStart.

(** X26: [vma_store::reserve] hands out only address space that is not in
    use: on an ordered set that begins with a range at or below the limit and
    holds a range above it, the call either throws ENOMEM or returns an
    address [res] such that [res, res+size) meets no range of the set, and
    enters the page-aligned range around it into the set. *)
Theorem reserve_returns_a_hole limit s start size :
  ranges_sorted s -> 0 < size -> 0 <= start <= limit -> start + size < 2 ^ 63 ->
  (exists r0 rest, s = r0 :: rest /\ r_start r0 <= limit) ->
  (exists r, In r s /\ limit < r_start r) ->
  (exists res, reserve limit s start size
               = Done (res, range_insert {| r_start := align_down res page_size;
                                            r_end := align_up (u64 (res + size)) page_size |} s) /\
               hole s res size) \/
  reserve limit s start size = Thrown ENOMEM.
Proof.
  intros Hs Hsize Hstart Hend (r0 & rest & Hhd & Hr0) (r & Hr & Hlim).
  apply list_elem_of_In, list_elem_of_lookup in Hr as (k & Hk).
  unfold reserve. cbv zeta.
  set (p := match range_lower_bound start s with O => O | S p' => p' end).
  assert (Hpk : (p < k)%nat).
  { assert (Hk0 : k <> O).
    { intros ->. rewrite Hhd in Hk. cbn in Hk. injection Hk as <-. lia. }
    assert (~ (k < range_lower_bound start s)%nat).
    { rewrite (range_lower_bound_spec s start k r (proj1 Hs) Hk). lia. }
    unfold p. destruct (range_lower_bound start s); lia. }
  destruct (reserve_loop_hole limit s start size (size <? huge_page_size) Hs Hsize eq_refl
              (conj (proj1 Hstart) Hend) (S (length s)) p 0) as [(res & Hrun & Hhole)|Hrun].
  - now left.
  - exists k, r. repeat split; try assumption. apply lookup_lt_Some in Hk. lia.
  - left. exists res. rewrite Hrun. cbn [mbind outcome_bind]. split; [reflexivity|exact Hhole].
  - right. rewrite Hrun. reflexivity.
Qed.

Lemma reserve_returns_a_hole_witness :
  (exists res, reserve 0x400000000000
                 [{| r_start := 0; r_end := 0 |}; {| r_start := 0x1000; r_end := 0x3000 |};
                  {| r_start := 0x400000000000; r_end := 0x400000000000 |};
                  {| r_start := 0x400000001000; r_end := 0x400000002000 |}] 0x2000 0x1000
               = Done (res, range_insert {| r_start := align_down res page_size;
                                            r_end := align_up (u64 (res + 0x1000)) page_size |}
                              [{| r_start := 0; r_end := 0 |};
                               {| r_start := 0x1000; r_end := 0x3000 |};
                               {| r_start := 0x400000000000; r_end := 0x400000000000 |};
                               {| r_start := 0x400000001000; r_end := 0x400000002000 |}]) /\
               hole [{| r_start := 0; r_end := 0 |}; {| r_start := 0x1000; r_end := 0x3000 |};
                     {| r_start := 0x400000000000; r_end := 0x400000000000 |};
                     {| r_start := 0x400000001000; r_end := 0x400000002000 |}] res 0x1000) \/
  reserve 0x400000000000
    [{| r_start := 0; r_end := 0 |}; {| r_start := 0x1000; r_end := 0x3000 |};
     {| r_start := 0x400000000000; r_end := 0x400000000000 |};
     {| r_start := 0x400000001000; r_end := 0x400000002000 |}] 0x2000 0x1000 = Thrown ENOMEM.
Proof.
  apply (reserve_returns_a_hole 0x400000000000
           [{| r_start := 0; r_end := 0 |}; {| r_start := 0x1000; r_end := 0x3000 |};
            {| r_start := 0x400000000000; r_end := 0x400000000000 |};
            {| r_start := 0x400000001000; r_end := 0x400000002000 |}] 0x2000 0x1000).
  - split.
    + repeat constructor; cbn; lia.
    + intros r [<-|[<-|[<-|[<-|[]]]]]; cbn; lia.
  - lia.
  - lia.
  - lia.
  - eexists _, _. split; [reflexivity|cbn; lia].
  - exists {| r_start := 0x400000001000; r_end := 0x400000002000 |}.
    split; [right; right; right; now left|cbn; lia].
Defined.

(** X27: a request that fits where it is asked for is granted there: when
    [start, start+size) lies between two neighbours of the set, the first of
    which starts below [start] and the second of which starts at or below the
    limit, [vma_store::reserve] returns [start]. *)
Theorem reserve_grants_the_hint limit s start size p rp rn :
  ranges_sorted s -> 0 < size -> 0 <= start -> start + size < 2 ^ 63 ->
  s !! p = Some rp -> s !! S p = Some rn ->
  r_start rp < start -> r_end rp <= start -> start + size <= r_start rn <= limit ->
  reserve limit s start size
    = Done (start, range_insert {| r_start := align_down start page_size;
                                   r_end := align_up (u64 (start + size)) page_size |} s).
Proof.
  intros Hs Hsize Hstart Hend Hp Hn Hps Hpe Hfit.
  assert (Hlb : range_lower_bound start s = S p).
  { pose proof (range_lower_bound_spec s start p rp (proj1 Hs) Hp) as H1.
    pose proof (range_lower_bound_spec s start (S p) rn (proj1 Hs) Hn) as H2.
    lia. }
  unfold reserve. cbv zeta. rewrite Hlb. cbn [reserve_loop]. rewrite Hn, Hp.
  replace (r_start rn <=? limit) with true by (symmetry; apply Z.leb_le; lia).
  replace (start >=? r_end rp) with true by (symmetry; apply Z.geb_le; lia).
  replace (u64 (start + size) <=? r_start rn) with true
    by (symmetry; apply Z.leb_le; rewrite u64_small; lia).
  reflexivity.
Qed.

Lemma reserve_grants_the_hint_witness :
  reserve 0x400000000000
    [{| r_start := 0; r_end := 0 |}; {| r_start := 0x1000; r_end := 0x3000 |};
     {| r_start := 0x400000000000; r_end := 0x400000000000 |}] 0x5000 0x2000
  = Done (0x5000, [{| r_start := 0; r_end := 0 |}; {| r_start := 0x1000; r_end := 0x3000 |};
                   {| r_start := 0x5000; r_end := 0x7000 |};
                   {| r_start := 0x400000000000; r_end := 0x400000000000 |}]).
Proof.
  apply (reserve_grants_the_hint 0x400000000000
           [{| r_start := 0; r_end := 0 |}; {| r_start := 0x1000; r_end := 0x3000 |};
            {| r_start := 0x400000000000; r_end := 0x400000000000 |}] 0x5000 0x2000
           1 {| r_start := 0x1000; r_end := 0x3000 |}
           {| r_start := 0x400000000000; r_end := 0x400000000000 |}).
  - split.
    + repeat constructor; cbn; lia.
    + intros r [<-|[<-|[<-|[]]]]; cbn; lia.
  - lia.
  - lia.
  - lia.
  - reflexivity.
  - reflexivity.
  - cbn. lia.
  - cbn. lia.
  - cbn. lia.
Defined.

(** ** Unmapping a range *)

Section Evacuate.

Variables (start end_ : Z).
Hypothesis start_aligned : page_aligned start.
Hypothesis end_aligned : page_aligned end_.
Hypothesis nonempty : start < end_.

Implicit Types (l A B C : list vma) (v w : vma).

Lemma mapped_byte_app A B x : mapped_byte (A ++ B) x <-> mapped_byte A x \/ mapped_byte B x.
Proof.
  unfold mapped_byte. split.
  - intros (v & Hv & Hc). apply in_app_or in Hv as [Hv|Hv]; [left|right]; now exists v.
  - intros [(v & Hv & Hc)|(v & Hv & Hc)]; exists v; split; auto; apply in_or_app; auto.
Qed.

Lemma mapped_byte_cons v l x : mapped_byte (v :: l) x <-> covers_byte v x \/ mapped_byte l x.
Proof.
  unfold mapped_byte, covers_byte. split.
  - intros (w & [<-|Hw] & Hc); [now left|]. right. now exists w.
  - intros [Hc|(w & Hw & Hc)]; [exists v|exists w]; split; auto; now (left + right).
Qed.

Lemma mapped_byte_nil x : ~ mapped_byte [] x.
Proof. intros (v & [] & _). Qed.

Lemma well_formed_delete A v R : well_formed (A ++ v :: R) -> well_formed (A ++ R).
Proof.
  intros [Hord Hok]. split.
  - unfold ordered_disjoint in *. apply StronglySorted_app in Hord as (Hc & HA & HR).
    apply StronglySorted_cons in HR as [_ HR].
    apply StronglySorted_app. split; [|split; assumption].
    intros x y Hx Hy. apply Hc; [exact Hx|now right].
  - intros w Hw. apply Hok. apply in_app_or in Hw as [Hw|Hw]; apply in_or_app; [now left|].
    right. now right.
Qed.

(** [split] on a VMA of the registry returns, or throws what the file's
    [mmap] throws. *)
Lemma split_defined l i v edge :
  l !! i = Some v ->
  (exists l1 p1, split l i edge = Done (l1, p1)) \/ (exists e, split l i edge = Thrown e).
Proof.
  intros Hv. unfold split. rewrite Hv.
  destruct (variant v) as [|f off ino dev]; unfold anon_vma_split, file_vma_split.
  - destruct ((edge <=? v_start v) || (edge >=? v_end v)); left; eauto.
  - destruct ((edge <=? v_start v) || (edge >=? v_end v)); [left; eauto|].
    cbv zeta.
    destruct (file_mmap_returns f edge (v_end v) (_flags v) (_perm v) (file_offset v off edge))
      as [(n & ->)|(e & ->)]; cbn [mbind outcome_bind]; [left|right]; eauto.
Qed.

Lemma strictly_inside_iff edge v : strictly_inside edge v = true <-> v_start v < edge < v_end v.
Proof.
  unfold strictly_inside. rewrite andb_true_iff, !Z.ltb_lt. tauto.
Qed.

Lemma evacuate_budget_app B1 B2 :
  evacuate_budget start end_ (B1 ++ B2)
    = (evacuate_budget start end_ B1 + evacuate_budget start end_ B2)%nat.
Proof.
  induction B1 as [|v B1 IH]; [reflexivity|].
  cbn [app evacuate_budget fold_right]. fold (evacuate_budget start end_ (B1 ++ B2)).
  fold (evacuate_budget start end_ B1). rewrite IH. lia.
Qed.

Lemma evacuate_budget_bound B : (evacuate_budget start end_ B <= 3 * length B)%nat.
Proof.
  induction B as [|v B IH]; cbn [evacuate_budget fold_right length]; [lia|].
  fold (evacuate_budget start end_ B).
  destruct (strictly_inside end_ v), (strictly_inside start v); lia.
Qed.

(** The new VMA of a split has the permissions of the VMA that was cut. *)
Lemma split_perm A v R edge l1 p1 :
  well_formed (A ++ v :: R) -> page_aligned edge ->
  split (A ++ v :: R) (length A) edge = Done (l1, p1) ->
  v_start v < edge < v_end v ->
  exists n, l1 = A ++ truncated v edge :: n :: R /\ _perm n = _perm v.
Proof.
  intros Hwf Hedge Hsplit Hin.
  assert (Hv : (A ++ v :: R) !! length A = Some v) by apply list_lookup_middle, eq_refl.
  assert (Hok : vma_ok v) by (apply Hwf, in_elt).
  destruct Hok as (Hs & He & H0 & Hle & Hup).
  assert (Htake : take (length A) (A ++ v :: R) = A) by apply take_app_length.
  assert (Hdrop : drop (S (length A)) (A ++ v :: R) = R).
  { rewrite (cons_middle v A R), app_assoc. apply drop_app_length'.
    rewrite length_app. cbn. lia. }
  assert (Hcut : forall n, v_start n = edge ->
            Done (split_insert (A ++ v :: R) (length A) v edge n) = Done (l1, p1) ->
            l1 = A ++ truncated v edge :: n :: R).
  { intros n Hn Heq.
    rewrite (split_insert_behind _ _ _ _ n (proj1 Hwf) Hv) in Heq by assumption.
    rewrite Htake, Hdrop in Heq. now injection Heq as <- _. }
  unfold split in Hsplit. rewrite Hv in Hsplit.
  destruct (variant v) as [|f offset ino dev];
    unfold anon_vma_split, file_vma_split in Hsplit;
    rewrite (inside_edge v edge Hin) in Hsplit; cbv iota zeta in Hsplit.
  - eexists. split; [apply Hcut; [|exact Hsplit]|reflexivity].
    cbn. apply align_down_aligned, Hedge.
  - destruct (file_mmap f edge (v_end v) (_flags v) (_perm v) (file_offset v offset edge))
      as [n|e| | |] eqn:Hmap; cbn [mbind outcome_bind] in Hsplit; try discriminate.
    apply file_mmap_fields in Hmap as (_ & _ & Hp & Hst & _).
    rewrite (align_down_aligned _ Hedge) in Hst.
    exists n. split; [apply Hcut; assumption|exact Hp].
Qed.

Lemma split_in_place_perm A v R edge l1 p1 v1 N :
  well_formed (A ++ v :: R) -> page_aligned edge ->
  split (A ++ v :: R) (length A) edge = Done (l1, p1) ->
  l1 = A ++ v1 :: N ++ R ->
  (~ v_start v < edge < v_end v /\ v1 = v /\ N = []) \/
  (v_start v < edge < v_end v /\ v1 = truncated v edge /\
   exists n, N = [n] /\ v_start n = edge /\ v_end n = v_end v) ->
  forall n, In n (v1 :: N) -> _perm n = _perm v.
Proof.
  intros Hwf Hedge Hsplit Hl1 [(_ & -> & ->)|(Hyes & -> & n & -> & _)].
  - intros m [<-|[]]. reflexivity.
  - destruct (split_perm A v R edge l1 p1 Hwf Hedge Hsplit Hyes) as (n' & Hl1' & Hp).
    rewrite Hl1 in Hl1'. apply app_inv_head in Hl1'. injection Hl1' as ->.
    intros m [<-|[<-|[]]]; [reflexivity|exact Hp].
Qed.

(** What the two splits of one iteration make of the VMA [v] that the
    iterator is on. *)
Lemma splits_in_place A v R l1 p1 l2 p2 :
  well_formed (A ++ v :: R) ->
  split (A ++ v :: R) (length A) end_ = Done (l1, p1) ->
  split l1 (length A) start = Done (l2, p2) ->
  exists v2 N,
    l2 = A ++ v2 :: N ++ R /\ well_formed l2 /\
    (forall s, (length A < s)%nat ->
       after_insert p2 (after_insert p1 s) = (s + length N)%nat) /\
    (forall n, In n (v2 :: N) -> _perm n = _perm v) /\
    v_start v2 = v_start v /\
    (forall x, covers_byte v x <-> covers_byte v2 x \/ mapped_byte N x) /\
    (v_start v < end_ -> v_end v2 <= end_) /\
    (v_start v2 < start -> v_end v2 <= start) /\
    (contains start end_ v2 = true -> forall n, In n N -> v_start n = end_ /\ end_ < v_end n) /\
    (forall n, In n N -> v_start n = start /\ v_end n <= end_ \/ v_start n = end_ /\ end_ < v_end n) /\
    (forall n, In n N -> strictly_inside start n = false /\ strictly_inside end_ n = false) /\
    length N = ((if strictly_inside end_ v then 1 else 0)
                + (if strictly_inside start v then 1 else 0))%nat.
Proof.
  intros Hwf Hs1 Hs2.
  destruct (split_in_place A v R end_ l1 p1 Hwf end_aligned Hs1)
    as (v1 & N1 & Hl1 & Hwf1 & Hsh1 & Hcase1).
  pose proof (split_in_place_perm A v R end_ l1 p1 v1 N1 Hwf end_aligned Hs1 Hl1 Hcase1)
    as Hperm1.
  subst l1.
  destruct (split_in_place A v1 (N1 ++ R) start l2 p2 Hwf1 start_aligned Hs2)
    as (v2 & N2 & Hl2 & Hwf2 & Hsh2 & Hcase2).
  pose proof (split_in_place_perm A v1 (N1 ++ R) start l2 p2 v2 N2 Hwf1 start_aligned Hs2
                Hl2 Hcase2) as Hperm2.
  subst l2.
  exists v2, (N2 ++ N1). rewrite <- app_assoc.
  split; [reflexivity|]. split; [exact Hwf2|].
  assert (Hok : vma_ok v) by (apply Hwf, in_elt).
  destruct Hok as (_ & _ & H0 & Hle & Hup).
  split.
  { intros s Hs. rewrite Hsh1 by exact Hs. rewrite Hsh2 by lia. rewrite length_app. lia. }
  split.
  { intros n Hn. change (v2 :: N2 ++ N1) with ((v2 :: N2) ++ N1) in Hn.
    apply in_app_or in Hn as [Hn|Hn].
    - rewrite (Hperm2 n Hn). apply Hperm1. now left.
    - apply Hperm1. now right. }
  clear Hperm1 Hperm2.
  unfold covers_byte, mapped_byte, contains.
  pose proof (strictly_inside_iff end_ v) as Hie. pose proof (strictly_inside_iff start v) as His.
  destruct Hcase1 as [(Hno1 & -> & ->)|(Hyes1 & -> & n1 & -> & Hn1s & Hn1e)];
    destruct Hcase2 as [(Hno2 & -> & ->)|(Hyes2 & -> & n2 & -> & Hn2s & Hn2e)];
    cbn [truncated v_start v_end app length] in *.
  all: split; [reflexivity|].
  all: split; [intros x; split;
       [intros Hc; destruct (Z_lt_le_dec x start), (Z_lt_le_dec x end_);
        first [ left; lia
              | match goal with
                | H : v_start ?n = _ |- _ => right; exists n; split; [cbn [In]; tauto|lia]
                end ]
       |intros [Hc|(w & Hw & Hc)]; [lia|];
        repeat (destruct Hw as [<-|Hw]; [lia|]); destruct Hw]|].
  all: split; [lia|].
  all: split; [lia|].
  all: split; [intros Hc n Hn; apply andb_true_iff in Hc as [Hc _]; apply Z.geb_le in Hc;
             repeat (destruct Hn as [<-|Hn]; [lia|]); destruct Hn|].
  all: split; [intros n Hn; repeat (destruct Hn as [<-|Hn]; [lia|]); destruct Hn|].
  all: split; [intros n Hn;
             repeat (destruct Hn as [<-|Hn];
                     [split; apply not_true_is_false; rewrite strictly_inside_iff; lia|]);
             destruct Hn|].
  all: destruct (strictly_inside end_ v), (strictly_inside start v); intuition lia.
Qed.

Lemma evacuate_budget_pieces N :
  (forall n, In n N -> strictly_inside start n = false /\ strictly_inside end_ n = false) ->
  evacuate_budget start end_ N = length N.
Proof.
  induction N as [|n N IH]; intros H; [reflexivity|].
  cbn [evacuate_budget fold_right length]. fold (evacuate_budget start end_ N).
  destruct (H n (or_introl eq_refl)) as [-> ->]. rewrite IH; [lia|].
  intros m Hm. apply H. now right.
Qed.

(** The loop of [evacuate] on a registry [A ++ B ++ C], with the iterator
    at the head of [B] and [second] at the head of [C]: it ends with every
    VMA outside the range, and has changed nothing outside the range. *)
Lemma evacuate_loop_spec fuel : forall A B C st,
  vma_list st = A ++ B ++ C ->
  well_formed (A ++ B ++ C) ->
  (forall v B', A = [] -> B = v :: B' -> v_start v < start) ->
  (forall w, In w A -> outside start end_ w) ->
  (forall w, In w C -> outside start end_ w) ->
  (evacuate_budget start end_ B < fuel)%nat ->
  (exists st',
     evacuate_loop fuel start end_ (length A) (length A + length B) st = Done st' /\
     well_formed (vma_list st') /\
     (forall w, In w (vma_list st') -> outside start end_ w) /\
     (forall x, ~ start <= x < end_ ->
        (mapped_byte (vma_list st') x <-> mapped_byte (vma_list st) x))) \/
  (exists e, evacuate_loop fuel start end_ (length A) (length A + length B) st = Thrown e).
Proof.
  induction fuel as [|f IH]; intros A B C st Hst Hwf Hhead HA HC Hfuel; [lia|].
  cbn [evacuate_loop].
  destruct B as [|v B'].
  - cbn [length]. rewrite Nat.add_0_r, Nat.eqb_refl. left. exists st. rewrite Hst. cbn [app].
    split; [reflexivity|]. split; [exact Hwf|]. split; [|tauto].
    intros w Hw. apply in_app_or in Hw as [Hw|Hw]; auto.
  - replace (length A =? length A + length (v :: B'))%nat with false
      by (symmetry; apply Nat.eqb_neq; cbn [length]; lia).
    cbn [app] in Hst, Hwf. rewrite Hst.
    destruct (split_defined (A ++ v :: B' ++ C) (length A) v end_)
      as [(l1 & p1 & Hs1)|(e & Hs1)];
      [apply list_lookup_middle; reflexivity| |right; exists e; rewrite Hs1; reflexivity].
    rewrite Hs1. cbn [mbind outcome_bind].
    destruct (split_in_place A v (B' ++ C) end_ l1 p1 Hwf end_aligned Hs1)
      as (v1 & N1 & Hl1 & _).
    destruct (split_defined l1 (length A) v1 start) as [(l2 & p2 & Hs2)|(e & Hs2)];
      [rewrite Hl1; apply list_lookup_middle; reflexivity|
      |right; exists e; rewrite Hs2; reflexivity].
    rewrite Hs2. cbn [mbind outcome_bind].
    destruct (splits_in_place A v (B' ++ C) l1 p1 l2 p2 Hwf Hs1 Hs2)
      as (v2 & N & Hl2 & Hwf2 & Hsh & _ & Hst2 & Hcov & He & Hb & _ & _ & Hpieces & HlenN).
    assert (Hv2 : l2 !! length A = Some v2) by (rewrite Hl2; apply list_lookup_middle; reflexivity).
    rewrite Hv2.
    assert (Hsecond : after_insert p2 (after_insert p1 (length A + length (v :: B')))
                      = S (length A + length (N ++ B'))).
    { rewrite Hsh by (cbn [length]; lia). rewrite length_app. cbn [length]. lia. }
    rewrite Hsecond.
    assert (Hbudget : (evacuate_budget start end_ (N ++ B') < f)%nat).
    { rewrite evacuate_budget_app, (evacuate_budget_pieces N Hpieces).
      cbn [evacuate_budget fold_right] in Hfuel. fold (evacuate_budget start end_ B') in Hfuel.
      lia. }
    assert (Hmid : forall x, mapped_byte (A ++ v :: B' ++ C) x <->
                     covers_byte v2 x \/ mapped_byte (A ++ N ++ B' ++ C) x).
    { intros x. rewrite !mapped_byte_app, mapped_byte_cons, !mapped_byte_app, Hcov. tauto. }
    destruct (contains start end_ v2) eqn:Hc.
    + unfold evacuate_vma. cbn [vma_list set_vma_list]. rewrite Hv2.
      cbn [mbind outcome_bind].
      apply andb_true_iff in Hc as [Hc1 Hc2]. rewrite Z.geb_leb in Hc1.
      apply Z.leb_le in Hc1. apply Z.leb_le in Hc2.
      destruct A as [|a A'].
      { pose proof (Hhead v B' eq_refl eq_refl). lia. }
      cbn [length] in *.
      match goal with
      | |- context [after_erase ?i ?s] =>
          replace (after_erase i s) with (S (length A') + length (N ++ B'))%nat
            by (unfold after_erase;
                replace (i <? s)%nat with true by (symmetry; apply Nat.ltb_lt; lia);
                cbn [pred]; lia)
      end.
      match goal with
      | |- context [evacuate_loop f start end_ _ _ ?s] => set (st1 := s)
      end.
      assert (Hl : vma_list st1 = (a :: A') ++ (N ++ B') ++ C).
      { subst st1. cbn [vma_list]. rewrite Hl2.
        change (S (length A')) with (length (a :: A')).
        rewrite delete_middle, <- app_assoc. reflexivity. }
      assert (Hwf3 : well_formed ((a :: A') ++ (N ++ B') ++ C)).
      { rewrite Hl2 in Hwf2. apply well_formed_delete in Hwf2.
        rewrite <- app_assoc. exact Hwf2. }
      destruct (IH (a :: A') (N ++ B') C st1 Hl Hwf3) as [(st' & Hrun & Hw' & Hout & Hsame)|(e & Hrun)];
        try assumption; try discriminate.
      * left. exists st'. cbn [length] in Hrun. split; [exact Hrun|]. split; [exact Hw'|].
        split; [exact Hout|]. intros x Hx. rewrite (Hsame x Hx), Hl, Hmid, <- app_assoc.
        unfold covers_byte. split; [tauto|]. intros [Hcx|Hm]; [lia|exact Hm].
      * right. exists e. exact Hrun.
    + assert (Hl : vma_list (set_vma_list st l2) = (A ++ [v2]) ++ (N ++ B') ++ C).
      { cbn [vma_list set_vma_list]. rewrite Hl2, <- !app_assoc. reflexivity. }
      assert (Hwf3 : well_formed ((A ++ [v2]) ++ (N ++ B') ++ C)).
      { rewrite Hl2 in Hwf2. rewrite <- !app_assoc. exact Hwf2. }
      assert (Hout2 : outside start end_ v2).
      { unfold outside, contains in *. apply andb_false_iff in Hc.
        rewrite Z.geb_leb, !Z.leb_gt in Hc. lia. }
      destruct (IH (A ++ [v2]) (N ++ B') C (set_vma_list st l2) Hl Hwf3)
        as [(st' & Hrun & Hw' & Hout & Hsame)|(e & Hrun)];
        try assumption.
      * intros w B0 HA0. destruct A; discriminate.
      * intros w Hw. apply in_app_or in Hw as [Hw|[<-|[]]]; auto.
      * rewrite length_app in Hrun. cbn [length] in Hrun.
        replace (length A + 1)%nat with (S (length A)) in Hrun by lia.
        left. exists st'. split; [exact Hrun|]. split; [exact Hw'|].
        split; [exact Hout|]. intros x Hx. rewrite (Hsame x Hx), Hl, Hmid.
        rewrite <- !app_assoc. rewrite (mapped_byte_app A), (mapped_byte_app A).
        cbn [app]. rewrite mapped_byte_cons. tauto.
      * rewrite length_app in Hrun. cbn [length] in Hrun.
        replace (length A + 1)%nat with (S (length A)) in Hrun by lia.
        right. exists e. exact Hrun.
Qed.

End Evacuate.

Section Anonymous.

Implicit Types (l : list vma) (v w : vma).

Lemma In_list_insert l i v w : In w (<[i := v]> l) -> w = v \/ In w l.
Proof.
  revert i. induction l as [|a l IH]; intros [|i]; cbn; try tauto.
  - intros [<-|Hw]; tauto.
  - intros [<-|Hw]; [tauto|]. destruct (IH i Hw); tauto.
Qed.

Lemma In_vma_insert n l w : In w (vma_insert n l) -> w = n \/ In w l.
Proof.
  induction l as [|a l IH]; cbn [vma_insert].
  - intros [<-|[]]. now left.
  - destruct (v_start n <? v_start a); [intros [<-|Hw]; cbn; tauto|].
    destruct (v_start n =? v_start a); [tauto|].
    intros [<-|Hw]; [cbn; tauto|]. destruct (IH Hw); cbn; tauto.
Qed.

Lemma In_delete l i w : In w (delete i l) -> In w l.
Proof.
  revert i. induction l as [|a l IH]; intros [|i]; cbn; try tauto.
  intros [<-|Hw]; [tauto|]. right. exact (IH i Hw).
Qed.

(** Splitting anonymous memory makes anonymous memory, and does not throw. *)
Lemma split_anonymous l i edge :
  all_anonymous l ->
  match split l i edge with
  | Done (l1, _) => all_anonymous l1
  | Thrown _ | NoFuel | Aborted => False
  | Undefined => True
  end.
Proof.
  intros Hall. unfold split. destruct (l !! i) as [v|] eqn:Hv; [|exact I].
  rewrite (Hall v) by (apply list_elem_of_In; eapply list_elem_of_lookup_2, Hv).
  unfold anon_vma_split. destruct ((edge <=? v_start v) || (edge >=? v_end v)); [exact Hall|].
  unfold split_insert. intros w Hw. apply In_vma_insert in Hw as [->|Hw]; [reflexivity|].
  apply In_list_insert in Hw as [->|Hw]; [|exact (Hall w Hw)].
  cbn. apply Hall. apply list_elem_of_In. eapply list_elem_of_lookup_2, Hv.
Qed.

(** The loop of [evacuate] over anonymous memory does not throw. *)
Lemma evacuate_loop_anonymous start end_ fuel : forall i second st e,
  all_anonymous (vma_list st) -> evacuate_loop fuel start end_ i second st <> Thrown e.
Proof.
  induction fuel as [|f IH]; intros i second st e Hall; [discriminate|].
  cbn [evacuate_loop]. destruct (i =? second)%nat; [discriminate|].
  pose proof (split_anonymous (vma_list st) i end_ Hall) as H1.
  destruct (split (vma_list st) i end_) as [[l1 p1]| | | |]; try discriminate; try contradiction.
  cbn [mbind outcome_bind].
  pose proof (split_anonymous l1 i start H1) as H2.
  destruct (split l1 i start) as [[l2 p2]| | | |]; try discriminate; try contradiction.
  cbn [mbind outcome_bind].
  destruct (l2 !! i) as [v|] eqn:Hv; [|discriminate].
  destruct (contains start end_ v).
  - unfold evacuate_vma. cbn [vma_list set_vma_list]. rewrite Hv. cbn [mbind outcome_bind].
    destruct i; [discriminate|]. apply IH. cbn [vma_list].
    intros w Hw. apply H2. eapply In_delete, Hw.
  - apply IH. exact H2.
Qed.

End Anonymous.

Lemma page_aligned_add a b : page_aligned a -> page_aligned b -> page_aligned (a + b).
Proof.
  unfold page_aligned, page_size. intros Ha Hb. Z.to_euclidean_division_equations. lia.
Qed.

(** [evacuate] over a mapped range of whole pages. *)
Lemma evacuate_mapped st addr len :
  well_formed (vma_list st) -> has_markers (vma_list st) ->
  page_aligned addr -> 0 < addr ->
  page_aligned len -> 0 <= len -> addr + len <= upper_vma_limit ->
  ismapped (vma_list st) addr len = Done true ->
  (exists st',
     evacuate st addr (u64 (addr + len)) = Done st' /\
     well_formed (vma_list st') /\
     forall x, mapped_byte (vma_list st') x <->
               mapped_byte (vma_list st) x /\ ~ addr <= x < addr + len) \/
  (exists e, evacuate st addr (u64 (addr + len)) = Thrown e /\
             ~ all_anonymous (vma_list st)).
Proof.
  intros Hwf Hm Haddr Hpos Hlen Hnn Hup Hmapped.
  assert (Hl0 : 0 < len).
  { destruct (Z.eq_dec len 0) as [->|Hne]; [exfalso|lia].
    apply (ismapped_not_empty (vma_list st) addr); [|exact Hmapped].
    unfold upper_vma_limit in Hup. lia. }
  assert (Hround : align_up len page_size = len).
  { apply align_up_aligned; [exact Hlen|unfold upper_vma_limit in *; lia]. }
  destruct (rounded_range_slice _ addr len Hwf Hm) as (i & v & Hi & Hc & Hfind & Hlt & _);
    try lia; try assumption.
  rewrite Hround in Hfind, Hlt.
  set (l := vma_list st) in *. set (end_ := addr + len) in *.
  set (second := lower_bound end_ l) in *.
  unfold evacuate. fold l. rewrite Hfind. cbn [mbind outcome_bind].
  rewrite (u64_small end_) by (unfold end_, upper_vma_limit in *; lia).
  destruct Hwf as [Hord Hok].
  assert (Hsplit : l = take i l ++ slice l i second ++ drop second l).
  { unfold slice. rewrite <- (take_drop i l) at 1. f_equal.
    rewrite <- (take_drop (second - i) (drop i l)) at 1. f_equal.
    rewrite drop_drop. f_equal. lia. }
  assert (HlenA : length (take i l) = i) by (rewrite length_take; lia).
  assert (HlenB : length (slice l i second) = (second - i)%nat).
  { unfold slice. rewrite length_take, length_drop. lia. }
  destruct (evacuate_loop_spec addr end_ Haddr (page_aligned_add addr len Haddr Hlen)
              ltac:(unfold end_; lia) (3 * length l + 1)
              (take i l) (slice l i second) (drop second l) st)
    as [(st' & Hrun & Hwf' & Hout & Hsame)|(e & Hrun)].
  - exact Hsplit.
  - rewrite <- Hsplit. split; assumption.
  - intros w B' HA HB.
    assert (Hi0 : i = O) by (rewrite <- HlenA, HA; reflexivity). subst i.
    destruct Hm as [(v0 & r & Hl & Hv0) _]. rewrite Hl in Hi. injection Hi as <-.
    unfold slice in HB. rewrite Hl in HB. cbn [drop] in HB.
    destruct (second - 0)%nat; [discriminate|]. injection HB as <- _.
    rewrite Hv0. unfold lower_vma_limit. lia.
  - intros w Hw. left. apply list_elem_of_In, list_elem_of_lookup in Hw as (j & Hj).
    apply lookup_take_Some in Hj as [Hj Hji].
    destruct (ordered_lookup_lt l j i w v Hord Hj Hi Hji) as [_ Hb].
    unfold covers_byte in Hc. lia.
  - intros w Hw. right. apply list_elem_of_In, list_elem_of_lookup in Hw as (j & Hj).
    rewrite lookup_drop in Hj.
    pose proof (lower_bound_spec l end_ (second + j) w Hord Hj) as Hs.
    fold second in Hs. lia.
  - pose proof (evacuate_budget_bound addr end_ (slice l i second)) as Hbound.
    rewrite HlenB in Hbound. lia.
  - left. exists st'. rewrite HlenA, HlenB in Hrun.
    replace (i + (second - i))%nat with second in Hrun by lia.
    split; [exact Hrun|]. split; [exact Hwf'|].
    intros x. pose proof (Hsame x) as Hs. fold l in Hs. unfold outside in Hout.
    clearbody second. unfold end_ in *.
    destruct (Z_lt_le_dec x addr) as [Hx|Hx]; [|destruct (Z_lt_le_dec x (addr + len)) as [Hx'|Hx']].
    + split; [intros Hx1; split; [apply Hs; [lia|exact Hx1]|lia]
             |intros [Hx1 _]; apply Hs; [lia|exact Hx1]].
    + split; [|intros [_ Hno]; lia].
      intros (w & Hw & Hcw). destruct (Hout w Hw); lia.
    + split; [intros Hx1; split; [apply Hs; [lia|exact Hx1]|lia]
             |intros [Hx1 _]; apply Hs; [lia|exact Hx1]].
  - right. exists e. rewrite HlenA, HlenB in Hrun.
    replace (i + (second - i))%nat with second in Hrun by lia. split; [exact Hrun|].
    intros Hanon. exact (evacuate_loop_anonymous _ _ _ _ _ _ _ Hanon Hrun).
Qed.



(** ** Changing permissions *)

Section ProtectOutside.

Variables (start end_ perm : Z).
Hypothesis start_aligned : page_aligned start.
Hypothesis end_aligned : page_aligned end_.
Hypothesis nonempty : start < end_.

Implicit Types (l A R N : list vma) (v w : vma).

Lemma perm_at_app A R x p : perm_at (A ++ R) x p <-> perm_at A x p \/ perm_at R x p.
Proof.
  unfold perm_at. split.
  - intros (v & Hv & Hc). apply in_app_or in Hv as [Hv|Hv]; [left|right]; now exists v.
  - intros [(v & Hv & Hc)|(v & Hv & Hc)]; exists v; split; auto; apply in_or_app; auto.
Qed.

Lemma perm_at_cons v l x p :
  perm_at (v :: l) x p <-> (covers_byte v x /\ _perm v = p) \/ perm_at l x p.
Proof.
  unfold perm_at. split.
  - intros (w & [<-|Hw] & Hc); [now left|]. right. now exists w.
  - intros [Hc|(w & Hw & Hc)]; [exists v|exists w]; split; auto; now (left + right).
Qed.

Lemma perm_at_pieces N v x p :
  (forall n, In n N -> _perm n = _perm v) ->
  (perm_at N x p <-> mapped_byte N x /\ _perm v = p).
Proof.
  intros Hall. unfold perm_at, mapped_byte. split.
  - intros (n & Hn & Hc & Hp). rewrite <- (Hall n Hn). split; [now exists n|exact Hp].
  - intros [(n & Hn & Hc) Hp]. exists n. rewrite (Hall n Hn). auto.
Qed.

Lemma same_outside_refl l : same_outside start end_ l l.
Proof. split; intros; reflexivity. Qed.

Lemma same_outside_trans l1 l2 l3 :
  same_outside start end_ l1 l2 -> same_outside start end_ l2 l3 ->
  same_outside start end_ l1 l3.
Proof.
  intros [Hm1 Hp1] [Hm2 Hp2]. split.
  - intros x. now rewrite Hm2, Hm1.
  - intros x p Hx. now rewrite (Hp2 x p Hx), (Hp1 x p Hx).
Qed.

(** One iteration: the VMA [v] becomes [v2] and the pieces cut off it, and
    [v2], if it lies inside the range, is given the new permissions. *)
Lemma iteration_same_outside A v R v2 N v3 :
  (forall n, In n (v2 :: N) -> _perm n = _perm v) ->
  (forall x, covers_byte v x <-> covers_byte v2 x \/ mapped_byte N x) ->
  v_start v3 = v_start v2 -> v_end v3 = v_end v2 ->
  v3 = v2 \/ contains start end_ v2 = true ->
  same_outside start end_ (A ++ v :: R) (A ++ v3 :: N ++ R).
Proof.
  intros Hperm Hcov Hs He Hv3.
  assert (Hc3 : forall x, covers_byte v3 x <-> covers_byte v2 x).
  { intros x. unfold covers_byte. rewrite Hs, He. reflexivity. }
  split.
  - intros x.
    rewrite !mapped_byte_app, !mapped_byte_cons, mapped_byte_app, Hc3, Hcov. tauto.
  - intros x p Hx.
    rewrite !perm_at_app, !perm_at_cons, perm_at_app, Hcov.
    rewrite (perm_at_pieces N v x p) by (intros n Hn; apply Hperm; now right).
    pose proof (Hperm v2 (or_introl eq_refl)) as Hp2.
    destruct Hv3 as [->|Hin].
    + rewrite Hp2. tauto.
    + assert (Hno : ~ covers_byte v2 x).
      { unfold contains in Hin. apply andb_true_iff in Hin as [H1 H2].
        apply Z.geb_le in H1. apply Z.leb_le in H2. unfold covers_byte. lia. }
      rewrite Hc3. tauto.
Qed.

(** The loop of [protect] keeps the registry in order, leaves the free
    ranges alone and changes nothing outside the range. *)
Lemma protect_loop_outside fuel : forall i second st e st',
  well_formed (vma_list st) ->
  protect_loop fuel start end_ perm i second st = Done (e, st') ->
  well_formed (vma_list st') /\ free_ranges st' = free_ranges st /\
  same_outside start end_ (vma_list st) (vma_list st').
Proof.
  induction fuel as [|f IH]; intros i second st e st' Hwf Hrun; [discriminate|].
  cbn [protect_loop] in Hrun.
  assert (Hstop : forall e0, Done (e0, st) = Done (e, st') ->
            well_formed (vma_list st') /\ free_ranges st' = free_ranges st /\
            same_outside start end_ (vma_list st) (vma_list st')).
  { intros e0 [= _ <-]. split; [exact Hwf|]. split; [reflexivity|apply same_outside_refl]. }
  destruct (i =? second)%nat; [exact (Hstop _ Hrun)|].
  destruct (vma_list st !! i) as [v|] eqn:Hv; [|discriminate].
  destruct (_perm v =? perm); [exact (IH _ _ _ _ _ Hwf Hrun)|].
  destruct (validate_perm v perm); try exact (Hstop _ Hrun).
  apply list_elem_of_split_length in Hv as (A & R & Hl & ->).
  rewrite Hl in Hrun, Hwf |- *.
  destruct (split (A ++ v :: R) (length A) end_) as [[l1 p1]| | | |] eqn:Hs1;
    cbn [mbind outcome_bind] in Hrun; try discriminate.
  destruct (split l1 (length A) start) as [[l2 p2]| | | |] eqn:Hs2;
    cbn [mbind outcome_bind] in Hrun; try discriminate.
  destruct (splits_in_place start end_ start_aligned end_aligned nonempty
              A v R l1 p1 l2 p2 Hwf Hs1 Hs2)
    as (v2 & N & Hl2 & Hwf2 & _ & Hperm & _ & Hcov & _).
  assert (Hv2 : l2 !! length A = Some v2) by (rewrite Hl2; apply list_lookup_middle; reflexivity).
  rewrite Hv2 in Hrun.
  destruct (contains start end_ v2) eqn:Hc.
  - apply IH in Hrun as (Hwf' & Hfree & Hsame).
    + split; [exact Hwf'|]. split; [exact Hfree|].
      cbn [vma_list add_effect set_vma_list] in Hsame.
      rewrite Hl2, insert_app_r_alt, Nat.sub_diag in Hsame by lia. cbn [insert list_insert] in Hsame.
      refine (same_outside_trans _ _ _ _ Hsame).
      apply (iteration_same_outside A v R v2 N (vma_protect v2 perm));
        try assumption; try reflexivity. now right.
    + cbn [vma_list add_effect set_vma_list].
      rewrite Hl2, insert_app_r_alt, Nat.sub_diag by lia. cbn [insert list_insert].
      apply (well_formed_same_range A v2); [|reflexivity|reflexivity].
      rewrite <- Hl2. exact Hwf2.
  - apply IH in Hrun as (Hwf' & Hfree & Hsame); [|exact Hwf2].
    split; [exact Hwf'|]. split; [exact Hfree|].
    cbn [vma_list set_vma_list] in Hsame. rewrite Hl2 in Hsame.
    refine (same_outside_trans _ _ _ _ Hsame).
    apply (iteration_same_outside A v R v2 N v2); try assumption; try reflexivity. now left.
Qed.

End ProtectOutside.



(** ** Owner lists from a superblock boundary *)

Section OwnerList.

Variables (L : layout) (sb : list Z) (start size : Z).
Hypothesis HL : layout_ok L.
Hypothesis base_aligned : superblock_area_base L mod superblock_size L = 0.
Hypothesis in_area :
  superblock_area_base L <= start /\ start + size <= main_mem_area_base L.
Hypothesis no_wrap : start + size + superblock_size L < 2 ^ 64.
Hypothesis owned : forall x, start <= x < start + size -> exists o, owner L sb x = Some o.

Lemma tiles_snoc_iff res a b s0 l0 o :
  tiles (res ++ [(s0, l0, o)]) a b <-> tiles res a s0 /\ 0 < l0 /\ b = s0 + l0.
Proof.
  revert a. induction res as [|[[s1 l1] o1] res IH]; intros a; cbn [app tiles].
  - split; [intros (-> & H1 & H2)|intros (-> & H1 & H2)]; repeat split; auto; lia.
  - rewrite IH. tauto.
Qed.

Lemma tiles_le res a b : tiles res a b -> a <= b.
Proof.
  revert a. induction res as [|[[s1 l1] o1] res IH]; intros a; cbn [tiles]; [lia|].
  intros (_ & Hl & Hr). apply IH in Hr. lia.
Qed.

(** The addresses of one superblock have one owner. *)
Lemma block_owner a x o :
  a mod superblock_size L = 0 -> start <= a ->
  owner L sb a = Some o -> a <= x < a + superblock_size L -> x < start + size ->
  owner L sb x = Some o.
Proof.
  intros Ha Hsa Ho Hx Hend. destruct HL as (HS & Hb & Hm).
  unfold owner in *.
  replace (x <? superblock_area_base L) with false by (symmetry; apply Z.ltb_ge; lia).
  replace (x >=? main_mem_area_base L) with false
    by (symmetry; rewrite Z.geb_leb; apply Z.leb_gt; lia).
  replace (a <? superblock_area_base L) with false in Ho by (symmetry; apply Z.ltb_ge; lia).
  replace (a >=? main_mem_area_base L) with false in Ho
    by (symmetry; rewrite Z.geb_leb; apply Z.leb_gt; lia).
  cbn [orb] in *. rewrite <- Ho. f_equal. f_equal.
  unfold superblock_index. rewrite !u64_small by lia.
  apply Z.mod_divide in Ha as [ka Hka]; [|lia].
  apply Z.mod_divide in base_aligned as [kb Hkb]; [|lia].
  replace (a - superblock_area_base L) with ((ka - kb) * superblock_size L) by lia.
  replace (x - superblock_area_base L) with ((x - a) + (ka - kb) * superblock_size L) by lia.
  rewrite Z.div_add, Z.div_mul, Z.div_small by lia. lia.
Qed.

Lemma next_barrier_aligned a :
  a mod superblock_size L = 0 -> 0 <= a -> a + superblock_size L < 2 ^ 64 ->
  align_up (u64 (a + 1)) (superblock_size L) = a + superblock_size L.
Proof.
  intros Ha H0 Hw. destruct HL as (HS & Hb & Hm).
  unfold align_up, align_down. rewrite (u64_small (a + 1)) by lia.
  rewrite u64_small by lia.
  apply Z.mod_divide in Ha as [ka Hka]; [|lia].
  replace (a + 1 + superblock_size L - 1) with ((ka + 1) * superblock_size L) by lia.
  rewrite Z.div_mul by lia. lia.
Qed.

(** The loop of [generate_owner_list] from a superblock boundary on. *)
Lemma owner_loop_aligned fuel : forall i prev res,
  0 <= i <= size -> (i < size -> (start + i) mod superblock_size L = 0) ->
  size - i <= Z.of_nat fuel * superblock_size L ->
  tiles res start (start + i) -> owners_right L sb res ->
  (res = [] /\ i = 0 /\ owner L sb start <> Some prev) \/
  (exists res' s0 l0, res = res' ++ [(s0, l0, prev)]) ->
  exists out,
    owner_loop L sb fuel start size i prev res = Some out /\
    tiles out start (start + size) /\ owners_right L sb out.
Proof.
  pose proof HL as (HS & Hb & Hm).
  induction fuel as [|f IH]; intros i prev res Hi Hal Hfuel Htiles Hown Hlast.
  - assert (i = size) by lia. subst i. cbn [owner_loop]. rewrite Z.ltb_irrefl. eauto.
  - cbn [owner_loop]. destruct (i <? size) eqn:Hlt.
    2:{ apply Z.ltb_ge in Hlt. assert (i = size) by lia. subst i. eauto. }
    apply Z.ltb_lt in Hlt. specialize (Hal Hlt).
    rewrite (u64_small (start + i)) by lia.
    destruct (owned (start + i)) as (cur & Hcur); [lia|]. rewrite Hcur. cbv zeta.
    replace (start + i + 1) with ((start + i) + 1) by lia.
    rewrite next_barrier_aligned by (try assumption; lia).
    rewrite (u64_small (start + size)), (u64_small (size - i)) by lia.
    set (len := Z.min (superblock_size L) (size - i)).
    replace (Z.min (start + i + superblock_size L) (start + size)) with (start + i + len)
      by (unfold len; lia).
    replace (start + i + len - (start + i)) with len by lia.
    assert (Hlen : 0 < len <= superblock_size L /\ len <= size - i) by (unfold len; lia).
    rewrite (u64_small len), (u64_small (i + len)) by lia.
    assert (Hnext : i + len < size -> (start + (i + len)) mod superblock_size L = 0).
    { intros Hn. assert (len = superblock_size L) as -> by (unfold len in *; lia).
      rewrite Z.add_assoc, <- (Z.mul_1_l (superblock_size L)) at 1.
      rewrite Z.mod_add by lia. exact Hal. }
    assert (Hfuel' : size - (i + len) <= Z.of_nat f * superblock_size L).
    { unfold len. destruct (Z_le_gt_dec (superblock_size L) (size - i)); nia. }
    assert (Hblock : forall x, start + i <= x < start + i + len -> owner L sb x = Some cur).
    { intros x Hx. apply (block_owner (start + i)); try assumption; lia. }
    destruct (prev =? cur) eqn:Heq.
    + apply Z.eqb_eq in Heq. subst cur.
      destruct Hlast as [(_ & -> & Hne)|(res' & s0 & l0 & ->)].
      { rewrite Z.add_0_r in Hcur. contradiction. }
      assert (Hlk : (res' ++ [(s0, l0, prev)]) !! (length (res' ++ [(s0, l0, prev)]) - 1)%nat
                    = Some (s0, l0, prev)).
      { rewrite length_app. cbn [length].
        replace (length res' + 1 - 1)%nat with (length res') by lia.
        apply list_lookup_middle. reflexivity. }
      rewrite Hlk.
      assert (Hins : <[(length (res' ++ [(s0, l0, prev)]) - 1)%nat := (s0, u64 (l0 + len), prev)]>
                       (res' ++ [(s0, l0, prev)]) = res' ++ [(s0, u64 (l0 + len), prev)]).
      { rewrite length_app. cbn [length].
        replace (length res' + 1 - 1)%nat with (length res' + 0)%nat by lia.
        rewrite insert_app_r. reflexivity. }
      rewrite Hins.
      rewrite length_app. cbn [length]. replace (length res' + 1)%nat with (S (length res')) by lia.
      apply tiles_snoc_iff in Htiles as (Ht & Hl0 & Hs0).
      pose proof (tiles_le _ _ _ Ht) as Hle.
      rewrite (u64_small (l0 + len)) by lia.
      apply IH; try assumption; try lia.
      * apply tiles_snoc_iff. split; [exact Ht|]. lia.
      * intros s1 l1 o1 x Hin Hx. apply in_app_or in Hin as [Hin|[Hin|[]]].
        -- apply (Hown s1 l1 o1 x); [apply in_or_app; now left|exact Hx].
        -- injection Hin as <- <- <-.
           destruct (Z_lt_le_dec x (s0 + l0)) as [Hx1|Hx1].
           ++ apply (Hown s0 l0 prev x); [apply in_or_app; right; now left|lia].
           ++ apply Hblock. lia.
      * right. eauto.
    + apply Z.eqb_neq in Heq.
      apply IH; try assumption; try lia.
      * apply tiles_snoc_iff. split; [exact Htiles|]. lia.
      * intros s1 l1 o1 x Hin Hx. apply in_app_or in Hin as [Hin|[Hin|[]]].
        -- apply (Hown s1 l1 o1 x); assumption.
        -- injection Hin as <- <- <-. apply Hblock. lia.
      * right. eauto.
Qed.

End OwnerList.

(** X30: for a range that starts on a superblock boundary inside the
    superblock area, in a first superblock that is not free,
    [generate_owner_list] returns tuples that lie one behind the other from
    [start] to [start + size], none of them empty, and every address of a
    tuple has the owner the tuple names. *)
Theorem generate_owner_list_aligned_start L sb start size :
  layout_ok L ->
  superblock_area_base L mod superblock_size L = 0 ->
  start mod superblock_size L = 0 ->
  superblock_area_base L <= start -> 0 < size -> start + size <= main_mem_area_base L ->
  start + size + superblock_size L < 2 ^ 64 ->
  (forall x, start <= x < start + size -> exists o, owner L sb x = Some o) ->
  owner L sb start <> Some 255 ->
  exists res,
    generate_owner_list L sb start size = Some res /\
    tiles res start (start + size) /\ owners_right L sb res.
Proof.
  intros HL Hbase Hstart Hlow Hsize Hup Hwrap Howned Hfirst.
  pose proof HL as (HS & Hb & Hm).
  unfold generate_owner_list.
  rewrite u64_small by lia.
  replace (start + size <? superblock_area_base L) with false by (symmetry; apply Z.ltb_ge; lia).
  replace (start >=? main_mem_area_base L) with false
    by (symmetry; rewrite Z.geb_leb; apply Z.leb_gt; lia).
  cbn [orb].
  apply (owner_loop_aligned L sb start size HL Hbase (conj Hlow Hup) Hwrap Howned).
  - lia.
  - intros _. now rewrite Z.add_0_r.
  - rewrite Z2Nat.id by (pose proof (Z.div_pos size (superblock_size L)); lia).
    pose proof (Z.mul_succ_div_gt size (superblock_size L) HS). lia.
  - cbn. lia.
  - intros s0 l0 o x [].
  - left. auto.
Qed.

Lemma generate_owner_list_aligned_start_witness :
  exists res,
    generate_owner_list sample_layout sample_superblocks 0x200000000000 0x60000000 = Some res /\
    tiles res 0x200000000000 (0x200000000000 + 0x60000000) /\
    owners_right sample_layout sample_superblocks res.
Proof.
  apply (generate_owner_list_aligned_start sample_layout sample_superblocks
           0x200000000000 0x60000000).
  - vm_compute. repeat split; discriminate.
  - reflexivity.
  - reflexivity.
  - vm_compute. discriminate.
  - lia.
  - vm_compute. discriminate.
  - vm_compute. reflexivity.
  - intros x Hx. unfold owner.
    replace (x <? superblock_area_base sample_layout) with false
      by (symmetry; apply Z.ltb_ge; cbn; lia).
    replace (x >=? main_mem_area_base sample_layout) with false
      by (symmetry; rewrite Z.geb_leb; apply Z.leb_gt; cbn; lia).
    cbn [orb]. unfold superblock_index. cbn [superblock_area_base superblock_size sample_layout].
    rewrite u64_small by lia.
    assert (Hidx : 0 <= (x - 0x200000000000) / 0x40000000 < 2)
      by (split; [apply Z.div_pos; lia|apply Z.div_lt_upper_bound; lia]).
    destruct (Z.eq_dec ((x - 0x200000000000) / 0x40000000) 0) as [->|];
      [eexists; reflexivity|].
    replace ((x - 0x200000000000) / 0x40000000) with 1 by lia. eexists. reflexivity.
  - vm_compute. discriminate.
Defined.
